(** * XAIGER backend (backends/aiger/xaiger.cc): a shallow embedding

    The writer lowers a flattened netlist to an And-Inverter Graph and
    serialises it in the extended AIGER format.  The C++ [int] counters
    and literals are modelled as [Z]; signed overflow is undefined in
    C++, so the model describes the runs in which they stay in range.
    Bytes are [Z] values in [0, 256).  Hash tables ([dict], [pool]) that
    the code only looks up are [gmap]s; those it iterates over are lists
    in iteration order. *)

From Stdlib Require Import ZArith Lia Bool Ascii String DecimalString.
From stdpp Require Import gmap strings list fin_maps.

Local Open Scope Z_scope.

(** ** Outcomes of fallible code *)

Inductive result (A : Type) : Type :=
| Ok (a : A)
| Abort           (* log_assert or log_error: the pass stops *)
| OutOfRange      (* dict::at or vector::at threw std::out_of_range *)
| OutOfFuel.      (* the recursion bound of the model was reached *)
Arguments Ok {A} a.
Arguments Abort {A}.
Arguments OutOfRange {A}.
Arguments OutOfFuel {A}.

Definition bind {A B} (k : A → result B) (r : result A) : result B :=
  match r with
  | Ok a => k a
  | Abort => Abort
  | OutOfRange => OutOfRange
  | OutOfFuel => OutOfFuel
  end.

#[global] Instance result_bind : MBind result := @bind.
#[global] Instance result_ret : MRet result := @Ok.

Definition log_assert (b : bool) : result unit :=
  if b then Ok tt else Abort.

(** ** aiger_encode (lines 64-74) *)

(** The [while (x & ~0x7f)] loop.  [fuel] bounds the iterations. *)
Fixpoint aiger_encode_loop (fuel : nat) (x : Z) : result (list Z) :=
  if Z.land x (Z.lnot 127) =? 0 then Ok [x]
  else match fuel with
       | O => OutOfFuel
       | S fuel' =>
           bs ← aiger_encode_loop fuel' (Z.shiftr x 7);
           Ok (Z.lor (Z.land x 127) 128 :: bs)
       end.

(** [aiger_encode(f, x)]: the bytes put on the stream.  Every iteration
    drops seven bits, so [log2 x] iterations are more than the loop can
    take. *)
Definition aiger_encode (x : Z) : result (list Z) :=
  _ ← log_assert (0 <=? x);
  aiger_encode_loop (Z.to_nat (Z.log2 x)) x.

(** The encodings of a sequence, one after the other, as the gate loop
    of [write_aiger] puts them on the stream. *)
Fixpoint aiger_encode_all (xs : list Z) : result (list Z) :=
  match xs with
  | [] => Ok []
  | x :: xs' =>
      b ← aiger_encode x;
      bs ← aiger_encode_all xs';
      Ok (b ++ bs)
  end.

(** Modelled from the spec: the reader of the format is not part of the
    backend.  The spec describes the encoding as 7-bit groups, least
    significant group first, the top bit of each byte telling whether
    another byte follows; [aiger_decode] reads one integer that way and
    returns it with the rest of the stream. *)
Fixpoint aiger_decode (bs : list Z) : option (Z * list Z) :=
  match bs with
  | [] => None
  | ch :: rest =>
      if Z.testbit ch 7 then
        match aiger_decode rest with
        | Some (x, rest') => Some (Z.lor (Z.land ch 127) (Z.shiftl x 7), rest')
        | None => None
        end
      else Some (ch, rest)
  end.

(** Modelled from the spec: reading [n] integers in a row. *)
Fixpoint aiger_decode_all (n : nat) (bs : list Z) : option (list Z * list Z) :=
  match n with
  | O => Some ([], bs)
  | S n' =>
      match aiger_decode bs with
      | Some (x, rest) =>
          match aiger_decode_all n' rest with
          | Some (xs, rest') => Some (x :: xs, rest')
          | None => None
          end
      | None => None
      end
  end.


(** ** The design data the writer reads (kernel/rtlil.h)

    Only the members the backend touches are kept. *)

Inductive State : Type := S0 | S1 | Sx | Sz | Sa | Sm.

Definition IdString : Type := string.

(** A [SigBit] is a constant ([wire == nullptr]) or a bit of a wire.
    Wires of one module have distinct names, so the name stands for the
    pointer. *)
Inductive SigBit : Type :=
| ConstBit (data : State)
| WireBit (wire : IdString) (offset : nat).

#[global] Instance State_eq_dec : EqDecision State.
Proof. solve_decision. Defined.

#[global] Instance State_countable : Countable State.
Proof.
  refine (inj_countable'
    (λ s, match s with
          | S0 => 0 | S1 => 1 | Sx => 2 | Sz => 3 | Sa => 4 | Sm => 5
          end%nat)
    (λ n, match n with
          | 0 => S0 | 1 => S1 | 2 => Sx | 3 => Sz | 4 => Sa | _ => Sm
          end%nat) _).
  by intros [].
Defined.

#[global] Instance SigBit_eq_dec : EqDecision SigBit.
Proof. solve_decision. Defined.

#[global] Instance SigBit_countable : Countable SigBit.
Proof.
  refine (inj_countable'
    (λ b, match b with
          | ConstBit s => inl s
          | WireBit w o => inr (w, o)
          end)
    (λ x, match x with
          | inl s => ConstBit s
          | inr (w, o) => WireBit w o
          end) _).
  by intros [].
Defined.

(** A [float] is kept as its IEEE-754 binary32 bit pattern: the backend
    only stores floats and copies their bytes. *)
Record float32 : Type := Float32 { f32_bits : Z }.

Module RTLIL.

Record Wire : Type := mkWire {
  name : IdString;
  width : nat;                       (* GetSize(wire) *)
  port_input : bool;
  port_output : bool;
  port_id : Z;
  init : option (list State)         (* the \init attribute *)
}.

Record Cell : Type := mkCell {
  cell_name : IdString;
  cell_type : IdString;
  connections : list (IdString * list SigBit);
  known : bool;                      (* cell->known() *)
  input : IdString → bool;           (* cell->input(port) *)
  output : IdString → bool           (* cell->output(port) *)
}.

(** A module: its wires, and for a box type its port list and the
    attributes the backend asks for. *)
Record Module : Type := mkModule {
  module_name : IdString;
  wires : list Wire;
  ports : list IdString;
  cells : list Cell;
  abc9_box_id : option Z;
  abc9_flop : bool;
  whitebox : bool
}.

(** [module->wire(id)]: [None] stands for [nullptr]. *)
Definition wire (m : Module) (id : IdString) : option Wire :=
  List.find (λ w, bool_decide (name w = id)) (wires m).

(** [design->module(id)]. *)
Definition Design : Type := gmap IdString Module.

(** [log_id]: the name without its leading backslash. *)
Definition log_id (id : IdString) : string :=
  match id with
  | String "\"%char rest => rest
  | _ => id
  end.

End RTLIL.

(** Modelled from the spec: [SigMap] (kernel/sigtools.h) is not part of
    the backend.  The spec has one representative per electrically
    connected node, and [add] enters a bit "as its own representative":
    the bit becomes the representative of its node (the constructor's
    comments call this promoting a wire).  A node whose representative is
    a constant keeps it: the constructor still finds [sigmap(wirebit)]
    equal to the constant x for bits of output wires it has added. *)
Record SigMap : Type := mkSigMap {
  node_of : SigBit → nat;
  representative : gmap nat SigBit
}.

(** Modelled from the spec: [sigmap(bit)], the representative of the
    bit's node. *)
Definition sigmap_apply (m : SigMap) (bit : SigBit) : SigBit :=
  default bit (representative m !! node_of m bit).



(** ** struct XAigerWriter (lines 76-100) *)

Record XAigerWriter : Type := mkXAigerWriter {
  module : RTLIL.Module;
  zinit_mode : bool;
  sigmap : SigMap;
  init_map : gmap SigBit bool;
  input_bits : list SigBit;
  output_bits : list SigBit;
  not_map : gmap SigBit SigBit;
  alias_map : gmap SigBit SigBit;
  and_map : gmap SigBit (SigBit * SigBit);
  ci_bits : list (SigBit * IdString * IdString * Z);
  co_bits : list (SigBit * IdString * IdString * Z * Z);
  ff_bits : list (SigBit * Z);
  arrival_times : gmap SigBit float32;
  aig_gates : list (Z * Z);
  aig_outputs : list Z;
  aig_m : Z;
  aig_i : Z;
  aig_l : Z;
  aig_o : Z;
  aig_a : Z;
  aig_map : gmap SigBit Z;
  ordered_outputs : gmap SigBit Z;
  box_list : list RTLIL.Cell;
  omode : bool
}.

(** Field updates (C++ assignments to one member). *)

Definition set_output_bits (v : list SigBit) (w : XAigerWriter) :
  XAigerWriter :=
  mkXAigerWriter (module w) (zinit_mode w) (sigmap w) (init_map w)
    (input_bits w) v (not_map w) (alias_map w) (and_map w) (ci_bits w)
    (co_bits w) (ff_bits w) (arrival_times w) (aig_gates w) (aig_outputs w)
    (aig_m w) (aig_i w) (aig_l w) (aig_o w) (aig_a w) (aig_map w)
    (ordered_outputs w) (box_list w) (omode w).

Definition set_co_bits (v : list (SigBit * IdString * IdString * Z * Z)) (w : XAigerWriter) :
  XAigerWriter :=
  mkXAigerWriter (module w) (zinit_mode w) (sigmap w) (init_map w)
    (input_bits w) (output_bits w) (not_map w) (alias_map w) (and_map w)
    (ci_bits w) v (ff_bits w) (arrival_times w) (aig_gates w)
    (aig_outputs w) (aig_m w) (aig_i w) (aig_l w) (aig_o w) (aig_a w)
    (aig_map w) (ordered_outputs w) (box_list w) (omode w).

Definition set_aig_gates (v : list (Z * Z)) (w : XAigerWriter) :
  XAigerWriter :=
  mkXAigerWriter (module w) (zinit_mode w) (sigmap w) (init_map w)
    (input_bits w) (output_bits w) (not_map w) (alias_map w) (and_map w)
    (ci_bits w) (co_bits w) (ff_bits w) (arrival_times w) v (aig_outputs w)
    (aig_m w) (aig_i w) (aig_l w) (aig_o w) (aig_a w) (aig_map w)
    (ordered_outputs w) (box_list w) (omode w).

Definition set_aig_outputs (v : list Z) (w : XAigerWriter) :
  XAigerWriter :=
  mkXAigerWriter (module w) (zinit_mode w) (sigmap w) (init_map w)
    (input_bits w) (output_bits w) (not_map w) (alias_map w) (and_map w)
    (ci_bits w) (co_bits w) (ff_bits w) (arrival_times w) (aig_gates w) v
    (aig_m w) (aig_i w) (aig_l w) (aig_o w) (aig_a w) (aig_map w)
    (ordered_outputs w) (box_list w) (omode w).

Definition set_aig_m (v : Z) (w : XAigerWriter) :
  XAigerWriter :=
  mkXAigerWriter (module w) (zinit_mode w) (sigmap w) (init_map w)
    (input_bits w) (output_bits w) (not_map w) (alias_map w) (and_map w)
    (ci_bits w) (co_bits w) (ff_bits w) (arrival_times w) (aig_gates w)
    (aig_outputs w) v (aig_i w) (aig_l w) (aig_o w) (aig_a w) (aig_map w)
    (ordered_outputs w) (box_list w) (omode w).

Definition set_aig_i (v : Z) (w : XAigerWriter) :
  XAigerWriter :=
  mkXAigerWriter (module w) (zinit_mode w) (sigmap w) (init_map w)
    (input_bits w) (output_bits w) (not_map w) (alias_map w) (and_map w)
    (ci_bits w) (co_bits w) (ff_bits w) (arrival_times w) (aig_gates w)
    (aig_outputs w) (aig_m w) v (aig_l w) (aig_o w) (aig_a w) (aig_map w)
    (ordered_outputs w) (box_list w) (omode w).

Definition set_aig_o (v : Z) (w : XAigerWriter) :
  XAigerWriter :=
  mkXAigerWriter (module w) (zinit_mode w) (sigmap w) (init_map w)
    (input_bits w) (output_bits w) (not_map w) (alias_map w) (and_map w)
    (ci_bits w) (co_bits w) (ff_bits w) (arrival_times w) (aig_gates w)
    (aig_outputs w) (aig_m w) (aig_i w) (aig_l w) v (aig_a w) (aig_map w)
    (ordered_outputs w) (box_list w) (omode w).

Definition set_aig_a (v : Z) (w : XAigerWriter) :
  XAigerWriter :=
  mkXAigerWriter (module w) (zinit_mode w) (sigmap w) (init_map w)
    (input_bits w) (output_bits w) (not_map w) (alias_map w) (and_map w)
    (ci_bits w) (co_bits w) (ff_bits w) (arrival_times w) (aig_gates w)
    (aig_outputs w) (aig_m w) (aig_i w) (aig_l w) (aig_o w) v (aig_map w)
    (ordered_outputs w) (box_list w) (omode w).

Definition set_aig_map (v : gmap SigBit Z) (w : XAigerWriter) :
  XAigerWriter :=
  mkXAigerWriter (module w) (zinit_mode w) (sigmap w) (init_map w)
    (input_bits w) (output_bits w) (not_map w) (alias_map w) (and_map w)
    (ci_bits w) (co_bits w) (ff_bits w) (arrival_times w) (aig_gates w)
    (aig_outputs w) (aig_m w) (aig_i w) (aig_l w) (aig_o w) (aig_a w) v
    (ordered_outputs w) (box_list w) (omode w).

Definition set_ordered_outputs (v : gmap SigBit Z) (w : XAigerWriter) :
  XAigerWriter :=
  mkXAigerWriter (module w) (zinit_mode w) (sigmap w) (init_map w)
    (input_bits w) (output_bits w) (not_map w) (alias_map w) (and_map w)
    (ci_bits w) (co_bits w) (ff_bits w) (arrival_times w) (aig_gates w)
    (aig_outputs w) (aig_m w) (aig_i w) (aig_l w) (aig_o w) (aig_a w)
    (aig_map w) v (box_list w) (omode w).

Definition set_omode (v : bool) (w : XAigerWriter) :
  XAigerWriter :=
  mkXAigerWriter (module w) (zinit_mode w) (sigmap w) (init_map w)
    (input_bits w) (output_bits w) (not_map w) (alias_map w) (and_map w)
    (ci_bits w) (co_bits w) (ff_bits w) (arrival_times w) (aig_gates w)
    (aig_outputs w) (aig_m w) (aig_i w) (aig_l w) (aig_o w) (aig_a w)
    (aig_map w) (ordered_outputs w) (box_list w) v.

Definition set_zinit_mode (v : bool) (w : XAigerWriter) :
  XAigerWriter :=
  mkXAigerWriter (module w) v (sigmap w) (init_map w) (input_bits w)
    (output_bits w) (not_map w) (alias_map w) (and_map w) (ci_bits w)
    (co_bits w) (ff_bits w) (arrival_times w) (aig_gates w) (aig_outputs w)
    (aig_m w) (aig_i w) (aig_l w) (aig_o w) (aig_a w) (aig_map w)
    (ordered_outputs w) (box_list w) (omode w).

(** *** mkgate (lines 102-107) *)

Definition mkgate (a0 a1 : Z) (w : XAigerWriter) : Z * XAigerWriter :=
  let w := set_aig_m (aig_m w + 1) w in
  let w := set_aig_a (aig_a w + 1) w in
  let w := set_aig_gates
             (aig_gates w ++ [if a0 >? a1 then (a0, a1) else (a1, a0)]) w in
  (2 * aig_m w, w).

(** *** bit2aig (lines 109-142)

    [fuel] bounds the depth of the recursion; the C++ function recurses
    without bound. *)

Definition is_Sx_or_Sz (bit : SigBit) : bool :=
  bool_decide (bit = ConstBit Sx) || bool_decide (bit = ConstBit Sz).

(** [dict::at]. *)
Definition dict_at {K V} `{Countable K} (d : gmap K V) (k : K) : result V :=
  match d !! k with
  | Some v => Ok v
  | None => OutOfRange
  end.

(** Lines 134-141: the end of [bit2aig], where the literal found for
    [bit] is checked and entered in the cache. *)
Definition cache_literal (bit : SigBit) (a : Z) (w : XAigerWriter) :
  result (Z * XAigerWriter) :=
  a ← (if is_Sx_or_Sz bit then dict_at (aig_map w) (ConstBit S0)
       else Ok a);
  _ ← log_assert (0 <=? a);
  Ok (a, set_aig_map (<[bit := a]> (aig_map w)) w).

Fixpoint bit2aig (fuel : nat) (bit : SigBit) (w : XAigerWriter) :
  result (Z * XAigerWriter) :=
  match fuel with
  | O => OutOfFuel
  | S fuel' =>
      match aig_map w !! bit with
      | Some a =>
          _ ← log_assert (0 <=? a);
          Ok (a, w)
      | None =>
          '(a, w) ←
            match not_map w !! bit with
            | Some arg =>
                '(a, w) ← bit2aig fuel' arg w;
                Ok (Z.lxor a 1, w)
            | None =>
                match and_map w !! bit with
                | Some args =>
                    '(a0, w) ← bit2aig fuel' args.1 w;
                    '(a1, w) ← bit2aig fuel' args.2 w;
                    Ok (mkgate a0 a1 w)
                | None =>
                    match alias_map w !! bit with
                    | Some arg => bit2aig fuel' arg w
                    | None => Ok (-1, w)
                    end
                end
            end;
          cache_literal bit a w
      end
  end.

(** *** The constructor, lines 578-629: numbering and output list

    Lines 146-576 classify the wires and cells of the module into the
    tables below; they do not read [zinit_mode].  [Tables] is the state
    of the writer at line 577, with the pools in the order in which the
    loops that follow visit them. *)

Record Tables : Type := mkTables {
  t_sigmap : SigMap;
  t_init_map : gmap SigBit bool;
  t_input_bits : list SigBit;
  t_output_bits : list SigBit;
  t_not_map : gmap SigBit SigBit;
  t_alias_map : gmap SigBit SigBit;
  t_and_map : gmap SigBit (SigBit * SigBit);
  t_ci_bits : list (SigBit * IdString * IdString * Z);
  t_co_bits : list (SigBit * IdString * IdString * Z * Z);
  t_ff_bits : list (SigBit * Z);
  t_arrival_times : gmap SigBit float32;
  t_box_list : list RTLIL.Cell
}.

(** The member initialisers of the struct and of the constructor. *)
Definition classified (module : RTLIL.Module) (zinit_mode : bool)
    (t : Tables) : XAigerWriter :=
  {| module := module; zinit_mode := zinit_mode; sigmap := t_sigmap t;
     init_map := t_init_map t; input_bits := t_input_bits t;
     output_bits := t_output_bits t; not_map := t_not_map t;
     alias_map := t_alias_map t; and_map := t_and_map t;
     ci_bits := t_ci_bits t; co_bits := t_co_bits t;
     ff_bits := t_ff_bits t; arrival_times := t_arrival_times t;
     aig_gates := []; aig_outputs := [];
     aig_m := 0; aig_i := 0; aig_l := 0; aig_o := 0; aig_a := 0;
     aig_map := ∅; ordered_outputs := ∅;
     box_list := t_box_list t; omode := false |}.

(** A range-based [for] whose body may abort. *)
Fixpoint for_each {A S : Type} (body : A → S → result S) (l : list A)
    (s : S) : result S :=
  match l with
  | [] => Ok s
  | x :: l' => s' ← body x s; for_each body l' s'
  end.

(** Lines 581-592: the body of the loops over [input_bits] and
    [ff_bits]. *)
Definition number_input (bit : SigBit) (w : XAigerWriter) :
  result XAigerWriter :=
  let w := set_aig_m (aig_m w + 1) w in
  let w := set_aig_i (aig_i w + 1) w in
  _ ← log_assert (bool_decide (aig_map w !! bit = None));
  Ok (set_aig_map (<[bit := 2 * aig_m w]> (aig_map w)) w).

(** Lines 595-601: the body of the loop over [ci_bits]; [aig_map.insert]
    keeps an entry that is already there. *)
Definition number_ci (c : SigBit * IdString * IdString * Z)
    (s : XAigerWriter * gmap SigBit Z) : result (XAigerWriter * gmap SigBit Z) :=
  let '(w, ff_aig_map) := s in
  let bit := c.1.1.1 in
  let w := set_aig_m (aig_m w + 1) w in
  let w := set_aig_i (aig_i w + 1) w in
  match aig_map w !! bit with
  | None => Ok (set_aig_map (<[bit := 2 * aig_m w]> (aig_map w)) w, ff_aig_map)
  | Some _ => Ok (w, <[bit := 2 * aig_m w]> ff_aig_map)
  end.

(** Lines 603-607: the body of the loop over [co_bits].  The entry is
    updated in place with its position in the output list. *)
Definition output_co (fuel : nat) (c : SigBit * IdString * IdString * Z * Z)
    (s : XAigerWriter * list (SigBit * IdString * IdString * Z * Z)) :
  result (XAigerWriter * list (SigBit * IdString * IdString * Z * Z)) :=
  let '(w, done) := s in
  let bit := c.1.1.1.1 in
  let o := aig_o w in
  let w := set_aig_o (aig_o w + 1) w in
  let w := set_ordered_outputs (<[bit := o]> (ordered_outputs w)) w in
  '(a, w) ← bit2aig fuel bit w;
  Ok (set_aig_outputs (aig_outputs w ++ [a]) w, done ++ [(c.1, o)]).

(** Lines 614-617: the body of the loop over [output_bits]. *)
Definition output_po (fuel : nat) (bit : SigBit) (w : XAigerWriter) :
  result XAigerWriter :=
  let o := aig_o w in
  let w := set_aig_o (aig_o w + 1) w in
  let w := set_ordered_outputs (<[bit := o]> (ordered_outputs w)) w in
  '(a, w) ← bit2aig fuel bit w;
  Ok (set_aig_outputs (aig_outputs w ++ [a]) w).

(** Lines 619-623: the body of the loop over [ff_bits]. *)
Definition output_ff (ff_aig_map : gmap SigBit Z) (i : SigBit * Z)
    (w : XAigerWriter) : result XAigerWriter :=
  let bit := i.1 in
  let w := set_aig_o (aig_o w + 1) w in
  a ← dict_at ff_aig_map bit;
  Ok (set_aig_outputs (aig_outputs w ++ [a]) w).

(** [XAigerWriter(module, zinit_mode, holes_mode)] from line 578 on,
    started on the classified tables. *)
Definition XAigerWriter_new (fuel : nat) (module : RTLIL.Module)
    (zinit_mode : bool) (t : Tables) : result XAigerWriter :=
  let w := classified module zinit_mode t in
  let w := set_aig_map (<[ConstBit S0 := 0]> (aig_map w)) w in
  let w := set_aig_map (<[ConstBit S1 := 1]> (aig_map w)) w in
  w ← for_each number_input (input_bits w) w;
  w ← for_each number_input (map fst (ff_bits w)) w;
  '(w, ff_aig_map) ← for_each number_ci (ci_bits w) (w, ∅);
  '(w, co) ← for_each (output_co fuel) (co_bits w) (w, []);
  let w := set_co_bits co w in
  let w := if bool_decide (output_bits w = [])
           then set_omode true (set_output_bits [ConstBit S0] w)
           else w in
  w ← for_each (output_po fuel) (output_bits w) w;
  w ← for_each (output_ff ff_aig_map) (ff_bits w) w;
  let w := if bool_decide (output_bits w = [])
           then set_omode true
                  (set_aig_outputs (aig_outputs w ++ [0])
                     (set_aig_o (aig_o w + 1) w))
           else w in
  Ok w.

(** ** Byte order (lines 21-62) *)

(** [__BYTE_ORDER__] of the machine the backend runs on. *)
Inductive byte_order : Type := LittleEndian | BigEndian.

(** Byte [k] of a 32-bit value, byte 0 the least significant. *)
Definition byte_of (x k : Z) : Z := Z.land (Z.shiftr x (8 * k)) 255.

(** [bswap32]: the builtin the macro of lines 22-29 selects.  (The
    fallback of lines 32-44 names an undeclared variable and is not
    compiled by any of the three compilers the macro knows.) *)
Definition bswap32 (x : Z) : Z :=
  Z.lor (Z.lor (Z.lor (Z.shiftl (byte_of x 0) 24)
                      (Z.shiftl (byte_of x 1) 16))
               (Z.shiftl (byte_of x 2) 8))
        (byte_of x 3).

Definition to_big_endian (host : byte_order) (i32 : Z) : Z :=
  match host with
  | LittleEndian => bswap32 i32
  | BigEndian => i32
  end.

(** The four bytes of a 32-bit object as they lie in memory, lowest
    address first: what [write(reinterpret_cast<const char*>(&x), 4)]
    copies to the stream. *)
Definition object_bytes (host : byte_order) (x : Z) : list Z :=
  match host with
  | LittleEndian => [byte_of x 0; byte_of x 1; byte_of x 2; byte_of x 3]
  | BigEndian => [byte_of x 3; byte_of x 2; byte_of x 1; byte_of x 0]
  end.

(** The lambda [write_buffer] (lines 692-695). *)
Definition write_buffer (host : byte_order) (i32 : Z) : list Z :=
  let i32_be := to_big_endian host i32 in
  object_bytes host i32_be.

(** The lambda [write_buffer_float] (lines 710-712). *)
Definition write_buffer_float (host : byte_order) (f32 : float32) : list Z :=
  object_bytes host (f32_bits f32).

(** The four bytes of a 32-bit value, most significant first. *)
Definition big_endian_bytes (x : Z) : list Z :=
  [byte_of x 3; byte_of x 2; byte_of x 1; byte_of x 0].

(** ** Text *)

Definition nl : string := String (ascii_of_nat 10) EmptyString.

(** ["%d"]. *)
Definition dec (z : Z) : string := NilZero.string_of_int (Z.to_int z).

(** The bytes of a text. *)
Definition string_bytes (s : string) : list Z :=
  map (λ c, Z.of_N (N_of_ascii c)) (list_ascii_of_string s).

(** [std::vector::at]. *)
Definition vector_at {A : Type} (v : list A) (i : Z) : result A :=
  if i <? 0 then OutOfRange
  else match v !! Z.to_nat i with
       | Some x => Ok x
       | None => OutOfRange
       end.

(** [GetSize] and [size()]. *)
Definition GetSize {A : Type} (l : list A) : Z := Z.of_nat (length l).

Definition empty {A : Type} (l : list A) : bool :=
  match l with
  | [] => true
  | _ => false
  end.

(** ** write_aiger (lines 632-952) *)

(** What [write_aiger] reads besides the writer: the host, the version
    string, the box modules of the design, and the holes module as the
    passes of lines 863-917 leave it, classified by the constructor in
    holes mode ([Abort] when one of them stops with an error). *)
Record Env : Type := mkEnv {
  host : byte_order;
  yosys_version_str : string;
  design : RTLIL.Design;
  derive : RTLIL.Module → RTLIL.Cell → RTLIL.Module;
  holes : result (RTLIL.Module * Tables)
}.

(** One output line, [stringf("%d\n", aig_outputs.at(i))]. *)
Definition write_output (w : XAigerWriter) (i : Z) (f : list Z) :
  result (list Z) :=
  o ← vector_at (aig_outputs w) i;
  Ok (f ++ string_bytes (dec o +:+ nl)).

(** Lines 646-659 and 666-676: the input lines (ASCII only) and the
    output lines. *)
Definition write_inputs_outputs (w : XAigerWriter) (ascii_mode : bool)
    (f : list Z) : result (list Z) :=
  let aig_obc := aig_o w in
  let aig_obcj := aig_obc in
  let aig_obcjf := aig_obcj in
  f ← (if ascii_mode
       then for_each (λ i f, Ok (f ++ string_bytes (dec (2 * i + 2) +:+ nl)))
                     (seqZ 0 (aig_i w)) f
       else Ok f);
  f ← for_each (write_output w) (seqZ 0 aig_obc) f;
  f ← for_each (λ _ f, Ok (f ++ string_bytes ("1" +:+ nl)))
               (seqZ aig_obc (aig_obcj - aig_obc)) f;
  f ← for_each (write_output w) (seqZ aig_obc (aig_obcj - aig_obc)) f;
  for_each (write_output w) (seqZ aig_obcj (aig_obcjf - aig_obcj)) f.

(** Lines 661-662: one gate in ASCII mode. *)
Definition write_gate_ascii (w : XAigerWriter) (i : Z) (f : list Z) :
  result (list Z) :=
  g ← vector_at (aig_gates w) i;
  Ok (f ++ string_bytes
        (dec (2 * (aig_i w + aig_l w + i) + 2) +:+ " " +:+ dec g.1 +:+ " "
         +:+ dec g.2 +:+ nl)).

(** Lines 678-686: one gate in binary mode. *)
Definition write_gate_binary (w : XAigerWriter) (i : Z) (f : list Z) :
  result (list Z) :=
  let lhs := 2 * (aig_i w + aig_l w + i) + 2 in
  rhs0 ← (g ← vector_at (aig_gates w) i; Ok g.1);
  rhs1 ← (g ← vector_at (aig_gates w) i; Ok g.2);
  let delta0 := lhs - rhs0 in
  let delta1 := rhs0 - rhs1 in
  b0 ← aiger_encode delta0;
  b1 ← aiger_encode delta1;
  Ok (f ++ b0 ++ b1).

Definition write_gates (w : XAigerWriter) (ascii_mode : bool) (f : list Z) :
  result (list Z) :=
  for_each (if ascii_mode then write_gate_ascii w else write_gate_binary w)
           (seqZ 0 (aig_a w)) f.

(** A section: its tag, the length of its buffer as a big-endian
    [int32_t], and the buffer (as in lines 827-831). *)
Definition write_section (host : byte_order) (tag : string)
    (buffer_str : list Z) (f : list Z) : list Z :=
  let buffer_size_be := to_big_endian host (GetSize buffer_str) in
  f ++ string_bytes tag ++ object_bytes host buffer_size_be ++ buffer_str.

(** Lines 749-790: the port loop over a box module, as far as it counts
    [box_inputs] and [box_outputs]. *)
Definition count_box_ports (box_module : RTLIL.Module) : result (Z * Z) :=
  for_each
    (λ port_name (c : Z * Z),
       match RTLIL.wire box_module port_name with
       | None => Abort
       | Some w =>
           let c := if RTLIL.port_input w
                    then (c.1 + Z.of_nat (RTLIL.width w), c.2) else c in
           let c := if RTLIL.port_output w
                    then (c.1, c.2 + Z.of_nat (RTLIL.width w)) else c in
           Ok c
       end)
    (RTLIL.ports box_module) (0, 0).

(** Lines 730-813: the body of the loop over [box_list], as far as it
    writes to [h_buffer].  [cell_cache] records, per derived type,
    whether a holes cell exists. *)
Definition write_box (env : Env) (w : XAigerWriter) (cell : RTLIL.Cell)
    (s : list Z * gmap IdString bool * Z) :
  result (list Z * gmap IdString bool * Z) :=
  let '(h_buffer, cell_cache, box_count) := s in
  match design env !! RTLIL.cell_type cell with
  | None => Abort
  | Some box_module =>
      let box_module := derive env box_module cell in
      let derived_name := RTLIL.module_name box_module in
      let inserted := bool_decide (cell_cache !! derived_name = None) in
      let holes_cell := default false (cell_cache !! derived_name) in
      let holes_cell :=
        if inserted && negb holes_cell && RTLIL.whitebox box_module
        then true else holes_cell in
      let cell_cache := <[derived_name := holes_cell]> cell_cache in
      '(box_inputs, box_outputs) ← count_box_ports box_module;
      box_inputs ←
        (if RTLIL.abc9_flop box_module
         then _ ← log_assert holes_cell; Ok (box_inputs + 1)
         else Ok box_inputs);
      box_id ← match RTLIL.abc9_box_id box_module with
               | Some id => Ok id
               | None => OutOfRange
               end;
      Ok (h_buffer ++ write_buffer (host env) box_inputs
                   ++ write_buffer (host env) box_outputs
                   ++ write_buffer (host env) box_id
                   ++ write_buffer (host env) box_count,
          cell_cache, box_count + 1)
  end.

(** [arrival_times.at(bit, 0)]. *)
Definition arrival_at (w : XAigerWriter) (bit : SigBit) : float32 :=
  default (Float32 0) (arrival_times w !! bit).

(** Lines 819-825: the body of the first loop over [ff_bits]. *)
Definition write_ff_r (env : Env) (w : XAigerWriter) (i : SigBit * Z)
    (s : list Z * list Z) : result (list Z * list Z) :=
  let '(r_buffer, i_buffer) := s in
  _ ← log_assert (0 <? i.2);
  Ok (r_buffer ++ write_buffer (host env) i.2,
      i_buffer ++ write_buffer_float (host env) (arrival_at w i.1)).

(** Lines 836-847: the body of the second loop over [ff_bits]; a
    constant bit has no wire to ask for its attribute. *)
Definition write_ff_s (env : Env) (w : XAigerWriter) (i : SigBit * Z)
    (s_buffer : list Z) : result (list Z) :=
  match i.1 with
  | ConstBit _ => Abort
  | WireBit wire_name offset =>
      match RTLIL.wire (module w) wire_name with
      | None => Abort
      | Some wire =>
          match RTLIL.init wire with
          | Some init =>
              match init !! offset with
              | None => OutOfRange
              | Some S1 => Ok (s_buffer ++ write_buffer (host env) 1)
              | Some _ => Ok (s_buffer ++ write_buffer (host env) 0)
              end
          | None => Ok (s_buffer ++ write_buffer (host env) 0)
          end
      end
  end.

(** Lines 634-687: the assertions, the header and the body. *)
Definition write_body (w : XAigerWriter) (ascii_mode : bool) :
  result (list Z) :=
  let aig_obcjf := aig_o w in
  _ ← log_assert (aig_m w =? aig_i w + aig_l w + aig_a w);
  _ ← log_assert (aig_obcjf =? GetSize (aig_outputs w));
  let f := string_bytes
             ((if ascii_mode then "aag" else "aig") +:+ " " +:+ dec (aig_m w)
              +:+ " " +:+ dec (aig_i w) +:+ " " +:+ dec (aig_l w)
              +:+ " " +:+ dec (aig_o w) +:+ " " +:+ dec (aig_a w)) in
  let f := f ++ string_bytes nl in
  f ← write_inputs_outputs w ascii_mode f;
  write_gates w ascii_mode f.

(** Lines 696-708: the first six words of [h_buffer]. *)
Definition h_buffer_counts (env : Env) (w : XAigerWriter) : list Z :=
  let write_h_buffer := write_buffer (host env) in
  let h_buffer := write_h_buffer 1 in
  let h_buffer := h_buffer ++ write_h_buffer
    (GetSize (input_bits w) + GetSize (ff_bits w) + GetSize (ci_bits w)) in
  let h_buffer := h_buffer ++ write_h_buffer
    (GetSize (output_bits w) + GetSize (ff_bits w) + GetSize (co_bits w)) in
  let h_buffer := h_buffer ++ write_h_buffer
    (GetSize (input_bits w) + GetSize (ff_bits w)) in
  let h_buffer := h_buffer ++ write_h_buffer
    (GetSize (output_bits w) + GetSize (ff_bits w)) in
  h_buffer ++ write_h_buffer (GetSize (box_list w)).

(** [write_aiger(f, ascii_mode)]; [nested] is the stream the private
    writer of lines 919-921 produces for the holes module. *)
Definition write_aiger_with (nested : result (list Z)) (env : Env)
    (w : XAigerWriter) (ascii_mode : bool) : result (list Z) :=
  f ← write_body w ascii_mode;
  let f := f ++ string_bytes "c" in
  _ ← log_assert (negb (empty (output_bits w)));
  let h_buffer := h_buffer_counts env w in
  let i_buffer :=
    flat_map (λ bit, write_buffer_float (host env) (arrival_at w bit))
             (input_bits w) in
  '(f, h_buffer, i_buffer) ←
    (if negb (empty (box_list w)) || negb (empty (ff_bits w)) then
       '(h_buffer, _, _) ←
         for_each (write_box env w) (box_list w) (h_buffer, ∅, 0);
       let r_buffer := write_buffer (host env) (GetSize (ff_bits w)) in
       '(r_buffer, i_buffer) ←
         for_each (write_ff_r env w) (ff_bits w) (r_buffer, i_buffer);
       let f := write_section (host env) "r" r_buffer f in
       let s_buffer := write_buffer (host env) (GetSize (ff_bits w)) in
       s_buffer ← for_each (write_ff_s env w) (ff_bits w) s_buffer;
       let f := write_section (host env) "s" s_buffer f in
       a_buffer ← nested;
       let f := write_section (host env) "a" a_buffer f in
       Ok (f, h_buffer, i_buffer)
     else Ok (f, h_buffer, i_buffer));
  let f := write_section (host env) "h" h_buffer f in
  let f := write_section (host env) "i" i_buffer f in
  Ok (f ++ string_bytes ("Generated by " +:+ yosys_version_str env +:+ nl)).

(** The private writer runs on the holes module with [zinit_mode] false
    and in binary mode (lines 920-921).  It is built in holes mode, where
    the constructor stops at line 255 on any cell that would give it a
    box or a register, so its own holes branch is never entered. *)
Definition write_holes (fuel : nat) (env : Env) : result (list Z) :=
  '(holes_module, t) ← holes env;
  writer ← XAigerWriter_new fuel holes_module false t;
  write_aiger_with Abort env writer false.

Definition write_aiger (fuel : nat) (env : Env) (w : XAigerWriter)
    (ascii_mode : bool) : result (list Z) :=
  write_aiger_with (write_holes fuel env) env w ascii_mode.

(** ** write_map (lines 954-1027) *)

(** A [dict<int, string>] of text lines, each string kept as the list of
    the lines appended to it, the keys in ascending order: the order in
    which the entries are written after [sort()]. *)
Definition Lines : Type := list (Z * list string).

(** [d[k] += line]. *)
Fixpoint lines_add (k : Z) (line : string) (d : Lines) : Lines :=
  match d with
  | [] => [(k, [line])]
  | (k', ls) :: d' =>
      if k =? k' then (k', ls ++ [line]) :: d'
      else if k <? k' then (k, [line]) :: d
      else (k', ls) :: lines_add k line d'
  end.

(** [d[k] = line]. *)
Fixpoint lines_set (k : Z) (line : string) (d : Lines) : Lines :=
  match d with
  | [] => [(k, [line])]
  | (k', ls) :: d' =>
      if k =? k' then (k', [line]) :: d'
      else if k <? k' then (k, [line]) :: d
      else (k', ls) :: lines_set k line d'
  end.

(** [for (auto &it : d) f << it.second]. *)
Definition lines_text (d : Lines) : list string := flat_map snd d.

(** [pool::count]. *)
Definition count (p : list SigBit) (b : SigBit) : bool := bool_decide (b ∈ p).

(** Lines 971-994: the body of the loop over the bits of one wire. *)
Definition map_wire_bit (w : XAigerWriter) (verbose_map : bool)
    (wire : RTLIL.Wire) (i : nat) (s : Lines * Lines * Lines) :
  result (Lines * Lines * Lines) :=
  let '(input_lines, output_lines, wire_lines) := s in
  let b := WireBit (RTLIL.name wire) i in
  input_lines ←
    (if count (input_bits w) b then
       a ← dict_at (aig_map w) b;
       _ ← log_assert (Z.land a 1 =? 0);
       Ok (lines_add a
             ("input " +:+ dec (Z.shiftr a 1 - 1) +:+ " " +:+ dec (Z.of_nat i)
              +:+ " " +:+ RTLIL.log_id (RTLIL.name wire) +:+ nl)
             input_lines)
     else Ok input_lines);
  if count (output_bits w) b then
    o ← dict_at (ordered_outputs w) b;
    let init := if zinit_mode w then 0 else 2 in
    let init := match init_map w !! b with
                | Some true => 1
                | Some false => 0
                | None => init
                end in
    Ok (input_lines,
        lines_add o
          ("output " +:+ dec (o - GetSize (co_bits w)) +:+ " "
           +:+ dec (Z.of_nat i) +:+ " " +:+ RTLIL.log_id (RTLIL.name wire)
           +:+ " " +:+ dec init +:+ nl)
          output_lines,
        wire_lines)
  else if verbose_map then
    match aig_map w !! sigmap_apply (sigmap w) b with
    | None => Ok (input_lines, output_lines, wire_lines)
    | Some a =>
        Ok (input_lines, output_lines,
            lines_add a
              ("wire " +:+ dec a +:+ " " +:+ dec (Z.of_nat i) +:+ " "
               +:+ RTLIL.log_id (RTLIL.name wire) +:+ nl)
              wire_lines)
    end
  else Ok (input_lines, output_lines, wire_lines).

(** Lines 962-996: the loop over the wires of the module. *)
Definition map_wires (w : XAigerWriter) (verbose_map : bool) :
  result (Lines * Lines * Lines) :=
  for_each
    (λ wire s,
       for_each (map_wire_bit w verbose_map wire)
                (seq 0 (RTLIL.width wire)) s)
    (RTLIL.wires (module w)) ([], [], []).

(** The placeholder lines of lines 1013 and 1018. *)
Definition dummy_line : string := "output 0 0 $__dummy__" +:+ nl.

(** Lines 1011-1018: the output lines as they are written, the
    placeholder included. *)
Definition map_output_text (w : XAigerWriter) (output_lines : Lines) :
  result (list string) :=
  let output_lines :=
    if omode w then lines_set 0 dummy_line output_lines else output_lines in
  _ ← log_assert (GetSize output_lines =? GetSize (output_bits w));
  Ok (lines_text output_lines
      ++ (if omode w && empty (output_bits w)
          then ["output " +:+ dec (GetSize output_lines) +:+ " 0 $__dummy__"
                +:+ nl]
          else [])).

(** Lines 1007-1009. *)
Definition map_box_text (w : XAigerWriter) : list string :=
  imap (λ box_count cell,
          "box " +:+ dec (Z.of_nat box_count) +:+ " " +:+ dec 0 +:+ " "
          +:+ RTLIL.log_id (RTLIL.cell_name cell) +:+ nl)
       (box_list w).

(** [write_map(f, verbose_map)]: the lines written, in order. *)
Definition write_map (w : XAigerWriter) (verbose_map : bool) :
  result (list string) :=
  '(input_lines, output_lines, wire_lines) ← map_wires w verbose_map;
  let f := lines_text input_lines in
  _ ← log_assert (GetSize input_lines =? GetSize (input_bits w));
  let f := f ++ map_box_text w in
  outs ← map_output_text w output_lines;
  let f := f ++ outs in
  Ok (f ++ lines_text wire_lines).

(** ** The constructor, lines 150-163: promotion in the signal map *)




(** ** The constructor, lines 216-409: the dependency order *)

(** Modelled from the spec: [TopoSort] (kernel/utils.h) is not part of
    the backend.  The spec has a directed graph whose nodes are cell
    instances and whose edges go from the producer of a bit to each of
    its consumers, on which "a full topological sort is run". *)
Record TopoSort : Type := mkTopoSort {
  nodes : list IdString;
  edges : list (IdString * IdString)
}.

(** [pool::insert]. *)
Definition insert_name (n : IdString) (p : list IdString) : list IdString :=
  if bool_decide (n ∈ p) then p else p ++ [n].

(** Modelled from the spec: [toposort.node(n)]. *)
Definition toposort_node (n : IdString) (t : TopoSort) : TopoSort :=
  mkTopoSort (insert_name n (nodes t)) (edges t).

(** Modelled from the spec: [toposort.edge(left, right)]. *)
Definition toposort_edge (left right : IdString) (t : TopoSort) : TopoSort :=
  mkTopoSort (insert_name right (insert_name left (nodes t)))
             (edges t ++ [(left, right)]).

(** A node all of whose producers are placed can be placed. *)
Definition ready (es : list (IdString * IdString)) (placed : list IdString)
    (n : IdString) : bool :=
  forallb (λ e : IdString * IdString,
             negb (bool_decide (e.2 = n)) || bool_decide (e.1 ∈ placed)) es.

(** One pass over the nodes: those not placed yet whose producers all
    are, are placed. *)
Definition sort_round (t : TopoSort) (placed : list IdString) :
  list IdString :=
  placed ++ filter (λ n, (n ∉ placed) ∧ (ready (edges t) placed n = true))
                   (nodes t).

Fixpoint sort_rounds (rounds : nat) (t : TopoSort) (placed : list IdString) :
  list IdString :=
  match rounds with
  | O => placed
  | S rounds' => sort_rounds rounds' t (sort_round t placed)
  end.


(** The part of the constructor's state the ordering works on. *)
Record Orderer : Type := mkOrderer {
  toposort : TopoSort;
  bit_users : gmap SigBit (list IdString);
  bit_drivers : gmap SigBit (list IdString);
  abc9_box_seen : bool;
  ff_seen : list SigBit              (* the keys of ff_bits *)
}.

Definition add_node (n : IdString) (o : Orderer) : Orderer :=
  mkOrderer (toposort_node n (toposort o)) (bit_users o) (bit_drivers o)
            (abc9_box_seen o) (ff_seen o).

(** [bit_users[bit].insert(n)]. *)
Definition add_user (bit : SigBit) (n : IdString) (o : Orderer) : Orderer :=
  mkOrderer (toposort o)
            (<[bit := insert_name n (default [] (bit_users o !! bit))]>
               (bit_users o))
            (bit_drivers o) (abc9_box_seen o) (ff_seen o).

(** [bit_drivers[bit].insert(n)]. *)
Definition add_driver (bit : SigBit) (n : IdString) (o : Orderer) : Orderer :=
  mkOrderer (toposort o) (bit_users o)
            (<[bit := insert_name n (default [] (bit_drivers o !! bit))]>
               (bit_drivers o))
            (abc9_box_seen o) (ff_seen o).

(** [cell->getPort(port)] and [SigSpec::as_bit()] (kernel/rtlil.h). *)
Definition getPort (cell : RTLIL.Cell) (port : IdString) :
  result (list SigBit) :=
  match List.find (λ c : IdString * list SigBit, bool_decide (c.1 = port))
                  (RTLIL.connections cell) with
  | Some c => Ok c.2
  | None => OutOfRange
  end.

Definition as_bit (sig : list SigBit) : result SigBit :=
  match sig with
  | [bit] => Ok bit
  | _ => Abort
  end.

(** [sigmap(cell->getPort(port).as_bit())]. *)
Definition port_bit (m : SigMap) (cell : RTLIL.Cell) (port : IdString) :
  result SigBit :=
  sig ← getPort cell port;
  bit ← as_bit sig;
  Ok (sigmap_apply m bit).

Definition is_fully_const (sig : list SigBit) : bool :=
  forallb (λ b, match b with ConstBit _ => true | WireBit _ _ => false end)
          sig.

(** Lines 275-287: one connection of a box cell. *)
Definition order_box_conn (m : SigMap) (inst_module : RTLIL.Module)
    (n : IdString) (conn : IdString * list SigBit) (o : Orderer) :
  result Orderer :=
  match RTLIL.wire inst_module conn.1 with
  | None => Abort
  | Some port_wire =>
      if RTLIL.port_input port_wire && RTLIL.port_output port_wire
      then Ok o
      else
        let o := if RTLIL.port_input port_wire
                 then foldl (λ o bit, add_user (sigmap_apply m bit) n o)
                            o conn.2
                 else o in
        let o := if RTLIL.port_output port_wire
                 then foldl (λ o bit, add_driver (sigmap_apply m bit) n o)
                            o conn.2
                 else o in
        Ok o
  end.

(** Lines 294-302: a connection of any other cell is an error when it is
    neither an input nor an output. *)
Definition check_conn (inst_module : option RTLIL.Module)
    (cell : RTLIL.Cell) (c : IdString * list SigBit) (o : Orderer) :
  result Orderer :=
  if is_fully_const c.2 then Ok o
  else
    let cell_known := bool_decide (is_Some inst_module) || RTLIL.known cell in
    let port_wire := inst_module ≫= λ im, RTLIL.wire im c.1 in
    let is_input :=
      from_option RTLIL.port_input false port_wire || negb cell_known
      || RTLIL.input cell c.1 in
    let is_output :=
      from_option RTLIL.port_output false port_wire || negb cell_known
      || RTLIL.output cell c.1 in
    _ ← log_assert (is_input || is_output);
    Ok o.

(** Lines 221-346: the body of the loop over the selected cells, as far
    as it works on [toposort], [bit_users], [bit_drivers],
    [abc9_box_seen] and the keys of [ff_bits], or stops the pass. *)
Definition order_cell (holes_mode : bool) (d : RTLIL.Design) (m : SigMap)
    (cell : RTLIL.Cell) (o : Orderer) : result Orderer :=
  let n := RTLIL.cell_name cell in
  if bool_decide (RTLIL.cell_type cell = "$_NOT_") then
    A ← port_bit m cell "\A";
    Y ← port_bit m cell "\Y";
    Ok (if holes_mode then o
        else add_driver Y n (add_user A n (add_node n o)))
  else if bool_decide (RTLIL.cell_type cell = "$_AND_") then
    A ← port_bit m cell "\A";
    B ← port_bit m cell "\B";
    Y ← port_bit m cell "\Y";
    Ok (if holes_mode then o
        else add_driver Y n (add_user B n (add_user A n (add_node n o))))
  else
    _ ← log_assert (negb holes_mode);
    if bool_decide (RTLIL.cell_type cell = "$__ABC9_FF_") then
      D ← port_bit m cell "\D";
      Q ← port_bit m cell "\Q";
      _ ← log_assert (bool_decide (D ∉ ff_seen o));
      Ok (mkOrderer (toposort o) (bit_users o) (bit_drivers o)
                    (abc9_box_seen o) (ff_seen o ++ [D]))
    else
      let inst_module := d !! RTLIL.cell_type cell in
      match inst_module with
      | Some im =>
          if bool_decide (is_Some (RTLIL.abc9_box_id im)) then
            let o := mkOrderer (toposort o) (bit_users o) (bit_drivers o)
                               true (ff_seen o) in
            let o := add_node n o in
            for_each (order_box_conn m im n) (RTLIL.connections cell) o
          else for_each (check_conn inst_module cell)
                        (RTLIL.connections cell) o
      | None => for_each (check_conn inst_module cell)
                         (RTLIL.connections cell) o
      end.

(** Lines 388-392: an edge from every driver of a bit to every user. *)
Definition add_edges (o : Orderer) : TopoSort :=
  foldl
    (λ t (it : SigBit * list IdString),
       match bit_drivers o !! it.1 with
       | None => t
       | Some drivers =>
           foldl (λ t driver_cell,
                    foldl (λ t user_cell, toposort_edge driver_cell user_cell t)
                          t it.2)
                 t drivers
       end)
    (toposort o) (map_to_list (bit_users o)).

Definition new_orderer : Orderer :=
  mkOrderer (mkTopoSort [] []) ∅ ∅ false [].


(** ** XAigerBackend::execute (lines 1055-1103) *)

(** The locals the option loop assigns to, and [argidx]. *)
Record Options : Type := mkOptions {
  opt_ascii_mode : bool;
  opt_zinit_mode : bool;
  opt_verbose_map : bool;
  opt_map_filename : string;
  opt_argidx : nat
}.

(** Lines 1065-1085: the loop over the arguments; [rest] holds the
    arguments from [args[argidx]] on. *)
Fixpoint parse_options (rest : list string) (o : Options) : Options :=
  match rest with
  | [] => o
  | arg :: rest' =>
      if String.eqb arg "-ascii" then
        parse_options rest'
          (mkOptions true (opt_zinit_mode o) (opt_verbose_map o)
                     (opt_map_filename o) (S (opt_argidx o)))
      else if String.eqb arg "-zinit" then
        parse_options rest'
          (mkOptions (opt_ascii_mode o) true (opt_verbose_map o)
                     (opt_map_filename o) (S (opt_argidx o)))
      else
        match rest' with
        | file :: rest'' =>
            if String.eqb (opt_map_filename o) "" && String.eqb arg "-map"
            then
              parse_options rest''
                (mkOptions (opt_ascii_mode o) (opt_zinit_mode o)
                           (opt_verbose_map o) file (S (S (opt_argidx o))))
            else if String.eqb (opt_map_filename o) ""
                    && String.eqb arg "-vmap"
            then
              parse_options rest''
                (mkOptions (opt_ascii_mode o) (opt_zinit_mode o) true file
                           (S (S (opt_argidx o))))
            else o
        | [] => o
        end
  end.

(** Lines 1057-1085; [args[0]] is the name of the command. *)
Definition parse_args (args : list string) : Options :=
  parse_options (drop 1 args) (mkOptions false false false "" 1).

(** What [execute] calls that is not part of the backend:
    [extra_args] (kernel/register.cc), which takes the arguments from
    [argidx] on and opens the output stream or stops with an error,
    whether the map file can be opened for writing, and lines 146-576
    of the constructor, which classify the top module. *)
Record Host : Type := mkHost {
  extra_args : list string → nat → bool → result unit;
  map_file_opens : string → bool;
  classify : RTLIL.Module → result Tables
}.

(** [execute(f, filename, args, design)]: the bytes written to [*f] and,
    when a map file is written, its lines. *)
Definition execute (fuel : nat) (env : Env) (h : Host) (args : list string)
    (top_module : option RTLIL.Module) :
  result (list Z * option (list string)) :=
  let o := parse_args args in
  _ ← extra_args h args (opt_argidx o) (negb (opt_ascii_mode o));
  match top_module with
  | None => Abort
  | Some top =>
      t ← classify h top;
      writer ← XAigerWriter_new fuel top (opt_zinit_mode o) t;
      f ← write_aiger fuel env writer (opt_ascii_mode o);
      if String.eqb (opt_map_filename o) "" then Ok (f, None)
      else
        _ ← log_assert (map_file_opens h (opt_map_filename o));
        mapf ← write_map writer (opt_verbose_map o);
        Ok (f, Some mapf)
  end.

(** ** The constructor, lines 165-212: the loop over the wires *)

(** [pool::insert] and [pool::erase]. *)
Definition pool_insert (b : SigBit) (p : list SigBit) : list SigBit :=
  if bool_decide (b ∈ p) then p else p ++ [b].

Definition pool_erase (b : SigBit) (p : list SigBit) : list SigBit :=
  filter (λ x, x ≠ b) p.

(** The pools and maps the loop over the wires fills. *)
Record Classifier : Type := mkClassifier {
  c_init_map : gmap SigBit bool;
  c_undriven_bits : list SigBit;
  c_unused_bits : list SigBit;
  c_keep_bits : list SigBit;
  c_input_bits : list SigBit;
  c_output_bits : list SigBit;
  c_alias_map : gmap SigBit SigBit
}.

Definition new_classifier : Classifier :=
  mkClassifier ∅ [] [] [] [] [] ∅.

(** Lines 167-173: the init attribute of a wire. *)
Definition classify_init (m : SigMap) (wire : RTLIL.Wire) (c : Classifier) :
  Classifier :=
  match RTLIL.init wire with
  | None => c
  | Some initval =>
      foldl
        (λ c i,
           match initval !! i with
           | Some S0 | Some S1 =>
               mkClassifier
                 (<[sigmap_apply m (WireBit (RTLIL.name wire) i)
                    := bool_decide (initval !! i = Some S1)]> (c_init_map c))
                 (c_undriven_bits c) (c_unused_bits c) (c_keep_bits c)
                 (c_input_bits c) (c_output_bits c) (c_alias_map c)
           | _ => c
           end)
        c (seq 0 (min (RTLIL.width wire) (length initval)))
  end.

(** Lines 179-204: one bit of a wire; [keep] is whether the wire has the
    keep attribute. *)
Definition classify_bit (m : SigMap) (keep : bool) (wire : RTLIL.Wire)
    (c : Classifier) (i : nat) : Classifier :=
  let wirebit := WireBit (RTLIL.name wire) i in
  let bit := sigmap_apply m wirebit in
  let c := match bit with
           | WireBit _ _ =>
               mkClassifier (c_init_map c)
                 (pool_insert bit (c_undriven_bits c))
                 (pool_insert bit (c_unused_bits c))
                 (c_keep_bits c) (c_input_bits c) (c_output_bits c)
                 (c_alias_map c)
           | ConstBit _ => c
           end in
  let c := if keep
           then mkClassifier (c_init_map c) (c_undriven_bits c)
                  (c_unused_bits c) (pool_insert bit (c_keep_bits c))
                  (c_input_bits c) (c_output_bits c) (c_alias_map c)
           else c in
  let c := if RTLIL.port_input wire || keep
           then mkClassifier (c_init_map c) (c_undriven_bits c)
                  (c_unused_bits c) (c_keep_bits c)
                  (pool_insert wirebit (c_input_bits c)) (c_output_bits c)
                  (if bool_decide (bit ≠ wirebit)
                   then <[bit := wirebit]> (c_alias_map c)
                   else c_alias_map c)
           else c in
  if RTLIL.port_output wire || keep
  then if bool_decide (bit ≠ ConstBit Sx)
       then mkClassifier (c_init_map c) (c_undriven_bits c)
              (c_unused_bits c) (c_keep_bits c) (c_input_bits c)
              (pool_insert wirebit (c_output_bits c))
              (if bool_decide (bit ≠ wirebit)
               then <[wirebit := bit]> (c_alias_map c)
               else c_alias_map c)
       else c
  else c.

(** Lines 165-206: the body of the loop over the wires. *)
Definition classify_wire (m : SigMap) (keep : RTLIL.Wire → bool)
    (c : Classifier) (wire : RTLIL.Wire) : Classifier :=
  let c := classify_init m wire c in
  foldl (classify_bit m (keep wire) wire) c (seq 0 (RTLIL.width wire)).

(** Lines 208-212.  The bits of [output_bits] are bits of wires of the
    module; [bit.wire->port_input] is read off the wire of that name. *)
Definition settle_ports (m : SigMap) (module : RTLIL.Module)
    (c : Classifier) : Classifier :=
  let undriven :=
    foldl (λ p bit, pool_erase (sigmap_apply m bit) p)
          (c_undriven_bits c) (c_input_bits c) in
  let unused :=
    foldl (λ p bit,
             match bit with
             | WireBit name _ =>
                 match RTLIL.wire module name with
                 | Some wire =>
                     if RTLIL.port_input wire then p else pool_erase bit p
                 | None => p
                 end
             | ConstBit _ => p
             end)
          (c_unused_bits c) (c_output_bits c) in
  mkClassifier (c_init_map c) undriven unused (c_keep_bits c)
               (c_input_bits c) (c_output_bits c) (c_alias_map c).

(** Lines 165-212 on the promoted signal map. *)
Definition classify_wires (m : SigMap) (keep : RTLIL.Wire → bool)
    (module : RTLIL.Module) : Classifier :=
  settle_ports m module
    (foldl (classify_wire m keep) new_classifier (RTLIL.wires module)).

(** ** Vocabulary of the statements *)

(** The writer with the members [bit2aig] and [mkgate] assign to blanked:
    two writers agree on all the other members when this is equal. *)
Definition erase_aig (w : XAigerWriter) : XAigerWriter :=
  set_aig_map ∅ (set_aig_gates [] (set_aig_a 0 (set_aig_m 0 w))).

Definition frame (w w' : XAigerWriter) : Prop := erase_aig w' = erase_aig w.

(** The same for all the members the constructor assigns to from line
    578 on. *)
Definition erase_built (w : XAigerWriter) : XAigerWriter :=
  set_omode false (set_output_bits [] (set_co_bits [] (set_ordered_outputs ∅
    (set_aig_outputs [] (set_aig_o 0 (set_aig_i 0 (erase_aig w))))))).

Definition same_tables (w w' : XAigerWriter) : Prop :=
  erase_built w' = erase_built w.

(** The numbering invariant: the header equation, and every literal,
    cached or stored in a gate, refers to a variable that exists; a gate
    has its larger operand first and is larger than both. *)
Record aig_ok (w : XAigerWriter) : Prop := mk_aig_ok {
  ok_count : aig_m w = aig_i w + aig_l w + aig_a w;
  ok_latch : aig_l w = 0;
  ok_inputs : 0 ≤ aig_i w;
  ok_gates_len : GetSize (aig_gates w) = aig_a w;
  ok_lits : ∀ b v, aig_map w !! b = Some v → 0 ≤ v ≤ 2 * aig_m w + 1;
  ok_gates : ∀ (i : nat) g, aig_gates w !! i = Some g →
      0 ≤ g.2 ∧ g.2 ≤ g.1 ∧ g.1 < 2 * (aig_i w + aig_l w + Z.of_nat i) + 2
}.

(** The two deltas binary mode writes for gate [i] (lines 679-683). *)
Definition gate_deltas (w : XAigerWriter) (i : nat) (g : Z * Z) : list Z :=
  let lhs := 2 * (aig_i w + aig_l w + Z.of_nat i) + 2 in
  [lhs - g.1; g.1 - g.2].

Definition all_deltas (w : XAigerWriter) : list Z :=
  concat (imap (gate_deltas w) (aig_gates w)).




(** The primary outputs after line 612. *)
Definition final_output_bits (t : Tables) : list SigBit :=
  if bool_decide (t_output_bits t = []) then [ConstBit S0]
  else t_output_bits t.


(** The writer with the members the numbering loops (lines 581-601)
    assign to blanked. *)
Definition erase_num (w : XAigerWriter) : XAigerWriter :=
  set_aig_map ∅ (set_aig_i 0 (set_aig_m 0 w)).

(** The writer with the members the output loops (lines 603-623) assign
    to blanked, [co_bits] apart. *)
Definition erase_out (w : XAigerWriter) : XAigerWriter :=
  set_ordered_outputs ∅ (set_aig_outputs [] (set_aig_o 0 (erase_aig w))).

(** The bit of an entry of [ci_bits] and of [co_bits]. *)
Definition ci_bit (c : SigBit * IdString * IdString * Z) : SigBit := c.1.1.1.
Definition co_bit (c : SigBit * IdString * IdString * Z * Z) : SigBit :=
  c.1.1.1.1.

(** [k] is the last position of [x] in [l]. *)
Definition last_at {A : Type} (l : list A) (k : nat) (x : A) : Prop :=
  l !! k = Some x ∧ ∀ k', (k < k')%nat → l !! k' ≠ Some x.

(** The literal line 598 gives to entry [k] of [ci_bits]. *)
Definition ci_literal (t : Tables) (k : nat) : Z :=
  2 * (GetSize (t_input_bits t) + GetSize (t_ff_bits t) + Z.of_nat k + 1).

(** What the constructor leaves behind when it returns. *)
Record built (module : RTLIL.Module) (zinit : bool) (t : Tables)
    (w : XAigerWriter) : Prop := mk_built {
  b_ok : aig_ok w;
  b_tables : erase_built w = erase_built (classified module zinit t);
  b_aig_i : aig_i w = GetSize (t_input_bits t) + GetSize (t_ff_bits t)
                      + GetSize (t_ci_bits t);
  b_output_bits : output_bits w = final_output_bits t;
  b_omode : omode w = bool_decide (t_output_bits t = []);
  b_co_bits : map fst (co_bits w) = map fst (t_co_bits t);
  b_aig_o : aig_o w = GetSize (aig_outputs w);
  b_false : aig_map w !! ConstBit S0 = Some 0;
  b_outputs : ∃ co_lits po_lits ff_lits,
      aig_outputs w = co_lits ++ po_lits ++ ff_lits ∧
      Forall2 (λ c a, aig_map w !! co_bit c = Some a) (t_co_bits t) co_lits ∧
      Forall2 (λ b a, aig_map w !! b = Some a) (final_output_bits t) po_lits ∧
      Forall2 (λ (i : SigBit * Z) a,
                 ∃ k v, last_at (map ci_bit (t_ci_bits t)) k i.1 ∧
                        a = ci_literal t k ∧
                        aig_map w !! i.1 = Some v ∧ v < a)
              (t_ff_bits t) ff_lits
}.



(** An extension section as it lies in the file: the tag, the length of
    the payload as four bytes, most significant first, and the payload. *)
Definition section (tag : string) (payload : list Z) : list Z :=
  string_bytes tag ++ big_endian_bytes (GetSize payload) ++ payload.

(** The condition of line 722. *)
Definition has_holes (w : XAigerWriter) : bool :=
  negb (empty (box_list w)) || negb (empty (ff_bits w)).

(** The last line of the file. *)
Definition trailer (env : Env) : list Z :=
  string_bytes ("Generated by " +:+ yosys_version_str env +:+ nl).

(** The claim that the sections follow the byte 'c' in the order h, r,
    s, a, i. *)
Definition sections_h_first (w : XAigerWriter) (ascii_mode : bool)
    (stream : list Z) : Prop :=
  ∃ head h r s a i rest,
    write_body w ascii_mode = Ok head ∧
    stream = head ++ string_bytes "c" ++ section "h" h ++ section "r" r
             ++ section "s" s ++ section "a" a ++ section "i" i ++ rest.


(** The result of a fallible computation under a function. *)
Definition result_map {A B : Type} (g : A → B) (r : result A) : result B :=
  x ← r; Ok (g x).

(** The output line of lines 984 for bit [i] of [wire] at position [o],
    with the given init field. *)
Definition map_output_line (w : XAigerWriter) (wire : RTLIL.Wire) (i : nat)
    (o init : Z) : string :=
  "output " +:+ dec (o - GetSize (co_bits w)) +:+ " " +:+ dec (Z.of_nat i)
  +:+ " " +:+ RTLIL.log_id (RTLIL.name wire) +:+ " " +:+ dec init +:+ nl.

(** ** Graphs of the dependency order *)







(** ** Promotion in the signal map *)






(** ** Example designs *)

Module Examples.

(** A signal map that has recorded no representative: every bit stands
    for itself. *)
Definition no_sigmap : SigMap := mkSigMap (λ _, 0%nat) ∅.

Definition no_ports : IdString → bool := λ _, false.

Definition a : SigBit := WireBit "\a" 0.
Definition b : SigBit := WireBit "\b" 0.
Definition n : SigBit := WireBit "$n" 0.
Definition y : SigBit := WireBit "\y" 0.
Definition d : SigBit := WireBit "$d" 0.
Definition q : SigBit := WireBit "\q" 0.
Definition currQ : SigBit := WireBit "\ff1.$currQ" 0.

(** [y = ~(a & b)]: an AND gate and an inverter. *)
Definition nand_module : RTLIL.Module :=
  RTLIL.mkModule "\nand"
    [RTLIL.mkWire "\a" 1 true false 1 None;
     RTLIL.mkWire "\b" 1 true false 2 None;
     RTLIL.mkWire "$n" 1 false false 0 None;
     RTLIL.mkWire "\y" 1 false true 3 None]
    ["\a"; "\b"; "\y"] [] None false false.

Definition nand_tables : Tables :=
  {| t_sigmap := no_sigmap; t_init_map := ∅;
     t_input_bits := [a; b]; t_output_bits := [y];
     t_not_map := {[y := n]}; t_alias_map := ∅; t_and_map := {[n := (a, b)]};
     t_ci_bits := []; t_co_bits := []; t_ff_bits := [];
     t_arrival_times := ∅; t_box_list := [] |}.


(** A register behind a flop box: the box [ff1] reads [a] and its own
    state [currQ] and drives [d]; the register takes [d] to [q], which is
    an output of the design.  The register has merge class 1 and an
    arrival time of 1.0 (bit pattern 0x3F800000). *)
Definition flop_box : RTLIL.Module :=
  RTLIL.mkModule "\FDRE"
    [RTLIL.mkWire "\D" 1 true false 1 None;
     RTLIL.mkWire "\Q" 1 false true 2 None]
    ["\D"; "\Q"] [] (Some 7) true true.

Definition ff1 : RTLIL.Cell :=
  RTLIL.mkCell "\ff1" "\FDRE" [("\D", [a]); ("\Q", [d])] false
               no_ports no_ports.

Definition flop_module : RTLIL.Module :=
  RTLIL.mkModule "\top"
    [RTLIL.mkWire "\a" 1 true false 1 None;
     RTLIL.mkWire "$d" 1 false false 0 None;
     RTLIL.mkWire "\ff1.$currQ" 1 false false 0 None;
     RTLIL.mkWire "\q" 1 false true 2 None]
    ["\a"; "\q"] [ff1] None false false.

Definition flop_tables : Tables :=
  {| t_sigmap := no_sigmap; t_init_map := ∅;
     t_input_bits := [a]; t_output_bits := [q];
     t_not_map := ∅; t_alias_map := {[q := d; currQ := q]}; t_and_map := ∅;
     t_ci_bits := [(d, "\ff1", "\Q", 0)];
     t_co_bits := [(a, "\ff1", "\D", 0, 0); (currQ, "\ff1", "\$currQ", 0, 0)];
     t_ff_bits := [(d, 1)];
     t_arrival_times := {[d := Float32 1065353216]};
     t_box_list := [ff1] |}.

(** The holes module of the flop box: two inputs, one output that is
    the first input. *)
Definition holes_module : RTLIL.Module :=
  RTLIL.mkModule "$__holes__"
    [RTLIL.mkWire "\i1" 1 true false 1 None;
     RTLIL.mkWire "\i2" 1 true false 3 None;
     RTLIL.mkWire "\ff1.\Q" 1 false true 2 None]
    ["\i1"; "\ff1.\Q"; "\i2"] [] None false false.

Definition holes_tables : Tables :=
  {| t_sigmap := no_sigmap; t_init_map := ∅;
     t_input_bits := [WireBit "\i1" 0; WireBit "\i2" 0];
     t_output_bits := [WireBit "\ff1.\Q" 0];
     t_not_map := ∅;
     t_alias_map := {[WireBit "\ff1.\Q" 0 := WireBit "\i1" 0]};
     t_and_map := ∅;
     t_ci_bits := []; t_co_bits := []; t_ff_bits := [];
     t_arrival_times := ∅; t_box_list := [] |}.

Definition env (h : byte_order) : Env :=
  {| host := h; yosys_version_str := "Yosys";
     design := {["\FDRE" := flop_box]}; derive := λ m _, m;
     holes := Ok (holes_module, holes_tables) |}.



(** The writer of the first design when its inputs are numbered and no
    bit has been translated yet. *)
Definition nand_numbered : XAigerWriter :=
  set_aig_map {[ConstBit S0 := 0; ConstBit S1 := 1; a := 2; b := 4]}
    (set_aig_i 2 (set_aig_m 2 (classified nand_module false nand_tables))).

(** Two inverters in a ring, [y1 = ~y2] and [y2 = ~y1], and nothing
    else: no port, no box. *)
Definition y1 : SigBit := WireBit "$y1" 0.
Definition y2 : SigBit := WireBit "$y2" 0.

Definition not1 : RTLIL.Cell :=
  RTLIL.mkCell "$not1" "$_NOT_" [("\A", [y2]); ("\Y", [y1])] true
               no_ports no_ports.
Definition not2 : RTLIL.Cell :=
  RTLIL.mkCell "$not2" "$_NOT_" [("\A", [y1]); ("\Y", [y2])] true
               no_ports no_ports.




(** A box between two inverters, [$not3] driving what the box reads and
    [$not4] reading what the box drives; and, with [not1], a loop
    through the box. *)
Definition box1 : RTLIL.Cell :=
  RTLIL.mkCell "\b1" "\FDRE" [("\D", [y1]); ("\Q", [y2])] false
               no_ports no_ports.
Definition not3 : RTLIL.Cell :=
  RTLIL.mkCell "$not3" "$_NOT_" [("\A", [a]); ("\Y", [y1])] true
               no_ports no_ports.
Definition not4 : RTLIL.Cell :=
  RTLIL.mkCell "$not4" "$_NOT_" [("\A", [y2]); ("\Y", [n])] true
               no_ports no_ports.
Definition box_design : RTLIL.Design := {["\FDRE" := flop_box]}.

Definition box_orderer : Orderer :=
  Eval vm_compute in
    match for_each (order_cell false box_design no_sigmap) [not3; box1; not4]
                   new_orderer with
    | Ok o => o
    | _ => new_orderer
    end.





(** The writers the constructor builds for them. *)
Definition built_or (r : result XAigerWriter) (w0 : XAigerWriter) :
  XAigerWriter :=
  match r with
  | Ok w => w
  | _ => w0
  end.

Definition nand_writer : XAigerWriter :=
  Eval vm_compute in
    built_or (XAigerWriter_new 4 nand_module false nand_tables)
             (classified nand_module false nand_tables).

Definition nand_writer_zinit : XAigerWriter :=
  Eval vm_compute in
    built_or (XAigerWriter_new 4 nand_module true nand_tables)
             (classified nand_module true nand_tables).

Definition flop_writer : XAigerWriter :=
  Eval vm_compute in
    built_or (XAigerWriter_new 4 flop_module false flop_tables)
             (classified flop_module false flop_tables).


(** What [write_aiger] writes for the flop design in binary mode on a
    little-endian host, and its header and body alone. *)
Definition flop_stream : list Z :=
  Eval vm_compute in
    match write_aiger 4 (env LittleEndian) flop_writer false with
    | Ok f => f
    | _ => []
    end.

Definition nand_stream : list Z :=
  Eval vm_compute in
    match write_aiger 4 (env LittleEndian) nand_writer false with
    | Ok f => f
    | _ => []
    end.

Definition flop_head : list Z :=
  Eval vm_compute in
    match write_body flop_writer false with
    | Ok f => f
    | _ => []
    end.

End Examples.

(** ** The Boolean function of the AIG

    A literal [2v] stands for variable [v] and [2v+1] for its
    complement; variable 0 is constant false, the variables [1 .. I] are
    the inputs, and gate [i] of the list defines variable [I + L + i + 1]
    (the left-hand side [write_aiger] prints for it, halved) as the
    conjunction of its two operands. *)

Definition lit_value (var : Z → bool) (lit : Z) : bool :=
  xorb (var (lit / 2)) (Z.odd lit).

Definition set_var (var : Z → bool) (v : Z) (x : bool) : Z → bool :=
  λ u, if u =? v then x else var u.

Fixpoint eval_gates (var : Z → bool) (next : Z) (gates : list (Z * Z)) :
  Z → bool :=
  match gates with
  | [] => var
  | g :: gates' =>
      eval_gates (set_var var next (lit_value var g.1 && lit_value var g.2))
                 (next + 1) gates'
  end.

(** The value of every variable of the writer's AIG under an assignment
    of the inputs, and the value of a literal. *)
Definition aig_vars (w : XAigerWriter) (inputs : Z → bool) : Z → bool :=
  eval_gates (set_var inputs 0 false) (aig_i w + aig_l w + 1) (aig_gates w).

Definition aig_value (w : XAigerWriter) (inputs : Z → bool) (lit : Z) : bool :=
  lit_value (aig_vars w inputs) lit.

(** [val] gives every bit that is not in the cache yet the value its
    driver computes: x and z count as constant 0, an inverter output is
    the complement of its input, an AND output the conjunction of its
    inputs, an alias the bit it stands for; [bit2aig] consults the three
    maps in this order. *)
Definition solves (w : XAigerWriter) (val : SigBit → bool) : Prop :=
  ∀ bit, aig_map w !! bit = None →
    if is_Sx_or_Sz bit then val bit = val (ConstBit S0)
    else match not_map w !! bit with
         | Some arg => val bit = negb (val arg)
         | None =>
             match and_map w !! bit with
             | Some args => val bit = val args.1 && val args.2
             | None =>
                 match alias_map w !! bit with
                 | Some arg => val bit = val arg
                 | None => True
                 end
             end
         end.

(** Every literal in the cache computes the value of its bit. *)
Definition consistent (w : XAigerWriter) (inputs : Z → bool)
    (val : SigBit → bool) : Prop :=
  ∀ bit a, aig_map w !! bit = Some a → aig_value w inputs a = val bit.

(** The members the value of a literal and the equations of the drivers
    depend on. *)
Definition aig_part (w : XAigerWriter) :=
  (aig_map w, aig_gates w, aig_m w, aig_i w, aig_l w, aig_a w,
   not_map w, and_map w, alias_map w).

(** The bits lines 581-601 give an input variable to, in order: entry
    [k] gets variable [k + 1]. *)
Definition numbered (t : Tables) : list SigBit :=
  t_input_bits t ++ map fst (t_ff_bits t) ++ map ci_bit (t_ci_bits t).

(** The assignment of the AIG's inputs under which every numbered bit
    has its value. *)
Definition input_values (t : Tables) (val : SigBit → bool) : Z → bool :=
  λ v, match numbered t !! Z.to_nat (v - 1) with
       | Some bit => val bit
       | None => false
       end.

(** [val] gives constant 0 and 1 their values and every bit that gets
    no input variable the value its driver computes. *)
Definition table_solves (t : Tables) (val : SigBit → bool) : Prop :=
  val (ConstBit S0) = false ∧ val (ConstBit S1) = true ∧
  ∀ bit, bit ∉ ConstBit S0 :: ConstBit S1 :: numbered t →
    if is_Sx_or_Sz bit then val bit = val (ConstBit S0)
    else match t_not_map t !! bit with
         | Some arg => val bit = negb (val arg)
         | None =>
             match t_and_map t !! bit with
             | Some args => val bit = val args.1 && val args.2
             | None =>
                 match t_alias_map t !! bit with
                 | Some arg => val bit = val arg
                 | None => True
                 end
             end
         end.

(** ** Lines of the ASCII format *)

(** The line of gate [i] in ASCII mode (line 662). *)
Definition gate_line (w : XAigerWriter) (i : nat) (g : Z * Z) : list Z :=
  string_bytes (dec (2 * (aig_i w + aig_l w + Z.of_nat i) + 2) +:+ " "
                +:+ dec g.1 +:+ " " +:+ dec g.2 +:+ nl).

(** The header line (line 641). *)
Definition header_line (w : XAigerWriter) (ascii_mode : bool) : list Z :=
  string_bytes ((if ascii_mode then "aag" else "aig") +:+ " " +:+ dec (aig_m w)
                +:+ " " +:+ dec (aig_i w) +:+ " " +:+ dec (aig_l w)
                +:+ " " +:+ dec (aig_o w) +:+ " " +:+ dec (aig_a w))
  ++ string_bytes nl.

(** ** The loop over the wires *)

(** A bit of a wire, not a constant. *)
Definition is_wire_bit (b : SigBit) : Prop :=
  ∃ name offset, b = WireBit name offset.

(** The canonical bits of the wires of the module that are bits of
    wires. *)
Definition canonical_wire_bit (m : SigMap) (wires : list RTLIL.Wire)
    (b : SigBit) : Prop :=
  is_wire_bit b ∧
  ∃ wire i, wire ∈ wires ∧ (i < RTLIL.width wire)%nat ∧
            b = sigmap_apply m (WireBit (RTLIL.name wire) i).

(** What one bit adds to the pools. *)
Definition input_of (keep : RTLIL.Wire → bool) (wire : RTLIL.Wire)
    (i : nat) (b : SigBit) : Prop :=
  RTLIL.port_input wire || keep wire = true ∧ b = WireBit (RTLIL.name wire) i.

Definition output_of (m : SigMap) (keep : RTLIL.Wire → bool)
    (wire : RTLIL.Wire) (i : nat) (b : SigBit) : Prop :=
  RTLIL.port_output wire || keep wire = true ∧
  b = WireBit (RTLIL.name wire) i ∧ sigmap_apply m b ≠ ConstBit Sx.

Definition canonical_of (m : SigMap) (wire : RTLIL.Wire) (i : nat)
    (b : SigBit) : Prop :=
  is_wire_bit b ∧ b = sigmap_apply m (WireBit (RTLIL.name wire) i).


(** ** Further examples *)

Module MoreExamples.

(** The first design with [a] true and [b] false: the AND gives false
    and the inverter true. *)
Definition nand_inputs : Z → bool := λ v, v =? 1.

Definition nand_val : SigBit → bool :=
  λ bit, bool_decide (bit = Examples.a) || bool_decide (bit = Examples.y)
         || bool_decide (bit = ConstBit S1).


(** A host on which every file opens and that classifies every module
    like the first design. *)
Definition nand_host : Host :=
  mkHost (λ _ _ _, Ok tt) (λ _, true) (λ _, Ok Examples.nand_tables).

(** A module with an input, an output tied to constant x, and a kept
    wire whose init attribute gives bit 0 the value 1, under a signal
    map that knows the output's driver. *)
Definition ports_module : RTLIL.Module :=
  RTLIL.mkModule "\ports"
    [RTLIL.mkWire "\i" 2 true false 1 None;
     RTLIL.mkWire "\o" 1 false true 2 None;
     RTLIL.mkWire "\k" 1 false false 0 (Some [S1])]
    ["\i"; "\o"] [] None false false.

Definition ports_sigmap : SigMap :=
  mkSigMap (λ bit, match bit with
                   | WireBit "\o" _ => 1
                   | WireBit "\i" (S _) => 2
                   | WireBit "\k" _ => 3
                   | _ => 0
                   end%nat)
           {[1%nat := ConstBit Sx]}.

Definition ports_keep (wire : RTLIL.Wire) : bool :=
  String.eqb (RTLIL.name wire) "\k".

End MoreExamples.
(** * The result monad *)

Lemma bind_Ok {A B} (r : result A) (k : A → result B) (b : B) :
  r ≫= k = Ok b → ∃ a, r = Ok a ∧ k a = Ok b.
Proof. destruct r; simpl; intros H; try discriminate; eauto. Qed.

Lemma log_assert_Ok (b : bool) (u : unit) : log_assert b = Ok u → b = true.
Proof. destruct b; simpl; [done | discriminate]. Qed.

(** * aiger_encode: results, bytes and the round trip *)

Section Encode.

Example aiger_encode_0 : aiger_encode 0 = Ok [0].
Proof. reflexivity. Qed.
Example aiger_encode_127 : aiger_encode 127 = Ok [127].
Proof. reflexivity. Qed.
Example aiger_encode_128 : aiger_encode 128 = Ok [128; 1].
Proof. reflexivity. Qed.
Example aiger_encode_300 : aiger_encode 300 = Ok [172; 2].
Proof. reflexivity. Qed.
Example aiger_encode_neg : aiger_encode (-1) = Abort.
Proof. reflexivity. Qed.
Example aiger_decode_300 : aiger_decode [172; 2; 9] = Some (300, [9]).
Proof. reflexivity. Qed.

(** *** Bit-level facts *)

Lemma high_bits_zero (x : Z) :
  0 ≤ x → (Z.land x (Z.lnot 127) =? 0) = (x <? 128).
Proof.
  intros Hx.
  change (Z.land x (Z.lnot 127)) with (Z.ldiff x (Z.ones 7)).
  rewrite Z.ldiff_ones_r by lia.
  rewrite Z.shiftr_div_pow2, Z.shiftl_mul_pow2 by lia.
  change (2 ^ 7) with 128.
  destruct (Z.ltb_spec x 128) as [Hlt | Hge].
  - rewrite Z.div_small by lia. reflexivity.
  - apply Z.eqb_neq.
    assert (1 ≤ x / 128) by (apply Z.div_le_lower_bound; lia). lia.
Qed.

Lemma testbit_127 (n : Z) : 0 ≤ n → Z.testbit 127 n = (n <? 7).
Proof.
  intros Hn. change 127 with (Z.ones 7).
  destruct (Z.ltb_spec n 7).
  - apply Z.ones_spec_low; lia.
  - apply Z.ones_spec_high; lia.
Qed.

Lemma testbit_128 (n : Z) : 0 ≤ n → Z.testbit 128 n = (n =? 7).
Proof.
  intros Hn. change 128 with (2 ^ 7).
  rewrite Z.pow2_bits_eqb by lia. apply Z.eqb_sym.
Qed.

Lemma continuation_bit_set (x : Z) :
  Z.testbit (Z.lor (Z.land x 127) 128) 7 = true.
Proof. rewrite Z.lor_spec, testbit_128 by lia. apply orb_true_r. Qed.

Lemma continuation_low_bits (x : Z) :
  Z.land (Z.lor (Z.land x 127) 128) 127 = Z.land x 127.
Proof.
  apply Z.bits_inj'. intros n Hn.
  rewrite !Z.land_spec, Z.lor_spec, Z.land_spec, testbit_127, testbit_128 by lia.
  destruct (Z.ltb_spec n 7), (Z.eqb_spec n 7); try lia;
    destruct (Z.testbit x n); reflexivity.
Qed.

Lemma groups_recombine (x : Z) :
  Z.lor (Z.land x 127) (Z.shiftl (Z.shiftr x 7) 7) = x.
Proof.
  apply Z.bits_inj'. intros n Hn.
  rewrite Z.lor_spec, Z.land_spec, testbit_127 by lia.
  destruct (Z.ltb_spec n 7).
  - rewrite Z.shiftl_spec_low by lia.
    destruct (Z.testbit x n); reflexivity.
  - rewrite Z.shiftl_spec, Z.shiftr_spec by lia.
    replace (n - 7 + 7) with n by lia.
    destruct (Z.testbit x n); reflexivity.
Qed.

Lemma small_top_bit_clear (x : Z) : 0 ≤ x < 128 → Z.testbit x 7 = false.
Proof.
  intros Hx. rewrite Z.testbit_eqb by lia. change (2 ^ 7) with 128.
  rewrite Z.div_small by lia. reflexivity.
Qed.

Lemma shiftr7_bounds (x : Z) : 128 ≤ x → 0 ≤ Z.shiftr x 7 < x.
Proof.
  intros Hx. rewrite Z.shiftr_div_pow2 by lia. change (2 ^ 7) with 128.
  split.
  - apply Z.div_pos; lia.
  - apply Z.div_lt; lia.
Qed.

Lemma shiftr7_log2 (x : Z) : 128 ≤ x → Z.log2 (Z.shiftr x 7) = Z.log2 x - 7.
Proof.
  intros Hx. rewrite Z.log2_shiftr by lia.
  assert (Z.log2 128 ≤ Z.log2 x) by (apply Z.log2_le_mono; lia).
  change (Z.log2 128) with 7 in *. lia.
Qed.

(** *** The loop produces a result, made of bytes, that decodes back *)

Lemma aiger_encode_loop_total (fuel : nat) (x : Z) :
  0 ≤ x → Z.log2 x ≤ Z.of_nat fuel →
  ∃ bs, aiger_encode_loop fuel x = Ok bs.
Proof.
  revert x. induction fuel as [| fuel IH]; intros x Hx Hlog.
  - simpl. rewrite high_bits_zero by lia.
    destruct (Z.ltb_spec x 128) as [Hlt | Hge]; [eauto |].
    assert (Z.log2 128 ≤ Z.log2 x) by (apply Z.log2_le_mono; lia).
    change (Z.log2 128) with 7 in *. lia.
  - simpl. rewrite high_bits_zero by lia.
    destruct (Z.ltb_spec x 128) as [Hlt | Hge]; [eauto |].
    destruct (IH (Z.shiftr x 7)) as [bs Hbs].
    + apply shiftr7_bounds; lia.
    + rewrite shiftr7_log2 by lia. lia.
    + rewrite Hbs. simpl. eauto.
Qed.

Lemma aiger_encode_loop_bytes (fuel : nat) (x : Z) (bs : list Z) :
  0 ≤ x → aiger_encode_loop fuel x = Ok bs →
  Forall (λ b, 0 ≤ b < 256) bs.
Proof.
  revert x bs. induction fuel as [| fuel IH]; intros x bs Hx; simpl;
    rewrite high_bits_zero by lia;
    destruct (Z.ltb_spec x 128) as [Hlt | Hge]; intros H;
    try discriminate.
  - injection H as <-. constructor; [lia | constructor].
  - injection H as <-. constructor; [lia | constructor].
  - apply bind_Ok in H as (bs' & Hrec & H). injection H as <-.
    constructor.
    + rewrite Z.land_ones with (n := 7) by lia.
      change (Z.ones 7) with 127.
      assert (Hm : 0 ≤ x mod 2 ^ 7 < 128) by (apply Z.mod_pos_bound; lia).
      split.
      * apply Z.lor_nonneg. lia.
      * assert (Z.lor (x mod 2 ^ 7) 128 = x mod 2 ^ 7 + 128) as ->; [| lia].
        rewrite <- Z.add_nocarry_lor; [reflexivity |].
        apply Z.bits_inj'. intros n Hn.
        rewrite Z.land_spec, testbit_128, Z.bits_0 by lia.
        destruct (Z.eqb_spec n 7) as [-> |]; [| apply andb_false_r].
        rewrite small_top_bit_clear by lia. reflexivity.
    + eapply IH; [| exact Hrec]. apply shiftr7_bounds; lia.
Qed.

Lemma aiger_decode_encode_loop (fuel : nat) (x : Z) (bs rest : list Z) :
  0 ≤ x → aiger_encode_loop fuel x = Ok bs →
  aiger_decode (bs ++ rest) = Some (x, rest).
Proof.
  revert x bs. induction fuel as [| fuel IH]; intros x bs Hx; simpl;
    rewrite high_bits_zero by lia;
    destruct (Z.ltb_spec x 128) as [Hlt | Hge]; intros H;
    try discriminate.
  - injection H as <-. cbn [app aiger_decode].
    rewrite small_top_bit_clear by lia. reflexivity.
  - injection H as <-. cbn [app aiger_decode].
    rewrite small_top_bit_clear by lia. reflexivity.
  - apply bind_Ok in H as (bs' & Hrec & H). injection H as <-.
    cbn [app aiger_decode]. rewrite continuation_bit_set.
    rewrite (IH _ _ (proj1 (shiftr7_bounds x Hge)) Hrec).
    rewrite continuation_low_bits, groups_recombine. reflexivity.
Qed.

Lemma aiger_encode_total (x : Z) : 0 ≤ x → ∃ bs, aiger_encode x = Ok bs.
Proof.
  intros Hx. unfold aiger_encode.
  destruct (Z.leb_spec 0 x); [simpl | lia].
  apply aiger_encode_loop_total; [lia |].
  rewrite Z2Nat.id; [lia | apply Z.log2_nonneg].
Qed.

Lemma aiger_encode_nonneg (x : Z) (bs : list Z) :
  aiger_encode x = Ok bs → 0 ≤ x.
Proof.
  unfold aiger_encode. destruct (Z.leb_spec 0 x); [done | discriminate].
Qed.

Lemma aiger_decode_encode (x : Z) (bs rest : list Z) :
  aiger_encode x = Ok bs → aiger_decode (bs ++ rest) = Some (x, rest).
Proof.
  intros H. pose proof (aiger_encode_nonneg _ _ H) as Hx.
  unfold aiger_encode in H. destruct (Z.leb_spec 0 x); [simpl in H | lia].
  eapply aiger_decode_encode_loop; eauto.
Qed.

Lemma aiger_encode_all_total (xs : list Z) :
  Forall (λ x, 0 ≤ x) xs → ∃ bs, aiger_encode_all xs = Ok bs.
Proof.
  induction 1 as [| x xs Hx _ [bs IH]]; simpl; [eauto |].
  destruct (aiger_encode_total x Hx) as [b ->]. simpl.
  rewrite IH. simpl. eauto.
Qed.

Lemma aiger_decode_encode_all (xs : list Z) (bs rest : list Z) :
  aiger_encode_all xs = Ok bs →
  aiger_decode_all (length xs) (bs ++ rest) = Some (xs, rest).
Proof.
  revert bs. induction xs as [| x xs IH]; intros bs H; simpl in *.
  - injection H as <-. reflexivity.
  - apply bind_Ok in H as (b & Hb & H).
    apply bind_Ok in H as (bs' & Hbs' & H). injection H as <-.
    rewrite <- app_assoc, (aiger_decode_encode _ _ _ Hb), (IH _ Hbs').
    reflexivity.
Qed.

End Encode.

(** * The AIG builder: mkgate, bit2aig and the numbering *)

Section Builder.

#[local] Arguments mkgate : simpl never.
#[local] Arguments cache_literal : simpl never.

Lemma frame_refl w : frame w w.
Proof. reflexivity. Qed.

Lemma frame_trans w1 w2 w3 : frame w1 w2 → frame w2 w3 → frame w1 w3.
Proof. unfold frame. congruence. Qed.

Lemma frame_set_aig_map v w : frame w (set_aig_map v w).
Proof. reflexivity. Qed.

Lemma frame_aig_i w w' : frame w w' → aig_i w' = aig_i w.
Proof. intros H. apply (f_equal aig_i) in H. exact H. Qed.

Lemma frame_aig_l w w' : frame w w' → aig_l w' = aig_l w.
Proof. intros H. apply (f_equal aig_l) in H. exact H. Qed.

Lemma frame_aig_o w w' : frame w w' → aig_o w' = aig_o w.
Proof. intros H. apply (f_equal aig_o) in H. exact H. Qed.

Lemma frame_aig_outputs w w' : frame w w' → aig_outputs w' = aig_outputs w.
Proof. intros H. apply (f_equal aig_outputs) in H. exact H. Qed.

Lemma frame_not_map w w' : frame w w' → not_map w' = not_map w.
Proof. intros H. apply (f_equal not_map) in H. exact H. Qed.

Lemma frame_and_map w w' : frame w w' → and_map w' = and_map w.
Proof. intros H. apply (f_equal and_map) in H. exact H. Qed.

Lemma frame_alias_map w w' : frame w w' → alias_map w' = alias_map w.
Proof. intros H. apply (f_equal alias_map) in H. exact H. Qed.

Lemma frame_same_tables w w' : frame w w' → same_tables w w'.
Proof. intros H. apply (f_equal erase_built) in H. exact H. Qed.

(** Flipping the lowest bit stays within the same variable. *)
Lemma lxor1_bounds (a m : Z) :
  0 ≤ a ≤ 2 * m + 1 → 0 ≤ Z.lxor a 1 ≤ 2 * m + 1.
Proof.
  intros Ha.
  assert (Hhi : Z.shiftr (Z.lxor a 1) 1 = Z.shiftr a 1).
  { rewrite Z.shiftr_lxor. change (Z.shiftr 1 1) with 0.
    apply Z.lxor_0_r. }
  rewrite !Z.shiftr_div_pow2 in Hhi by lia. change (2 ^ 1) with 2 in Hhi.
  assert (0 ≤ Z.lxor a 1) by (apply Z.lxor_nonneg; lia).
  pose proof (Z.div_mod (Z.lxor a 1) 2 ltac:(lia)).
  pose proof (Z.mod_pos_bound (Z.lxor a 1) 2 ltac:(lia)).
  pose proof (Z.div_mod a 2 ltac:(lia)).
  pose proof (Z.mod_pos_bound a 2 ltac:(lia)).
  lia.
Qed.

Lemma aig_ok_m_nonneg w : aig_ok w → 0 ≤ aig_m w.
Proof. intros [Hc Hl Hin Hn _ _]. unfold GetSize in Hn. lia. Qed.

Lemma aig_ok_insert w b a :
  aig_ok w → 0 ≤ a ≤ 2 * aig_m w + 1 →
  aig_ok (set_aig_map (<[b := a]> (aig_map w)) w).
Proof.
  intros [Hc Hl Hin Hn Hlits Hg] Ha. split; simpl; try done.
  intros b' v. rewrite lookup_insert. case_decide.
  - intros [= <-]. exact Ha.
  - apply Hlits.
Qed.

Lemma mkgate_spec w a0 a1 a w' :
  aig_ok w → 0 ≤ a0 ≤ 2 * aig_m w + 1 → 0 ≤ a1 ≤ 2 * aig_m w + 1 →
  mkgate a0 a1 w = (a, w') →
  frame w w' ∧ aig_ok w' ∧ a = 2 * aig_m w' ∧ aig_m w' = aig_m w + 1 ∧
  aig_map w' = aig_map w.
Proof.
  intros [Hc Hl Hin Hn Hlits Hg] H0 H1. unfold mkgate. intros [= <- <-].
  split; [reflexivity |]. split; [| by simpl].
  split; simpl.
  - lia.
  - done.
  - done.
  - unfold GetSize in *. rewrite length_app. simpl. lia.
  - intros b v Hb. specialize (Hlits b v Hb). lia.
  - intros i g Hi. apply lookup_app_Some in Hi as [Hi | [Hlen Hi]].
    + apply Hg. exact Hi.
    + apply list_lookup_singleton_Some in Hi as [Hi <-].
      unfold GetSize in Hn.
      assert (Z.of_nat i = aig_a w) by lia.
      destruct (Z.gtb_spec a0 a1); simpl; lia.
Qed.

Lemma bit2aig_unfold fuel bit w :
  bit2aig (S fuel) bit w =
  match aig_map w !! bit with
  | Some a => _ ← log_assert (0 <=? a); Ok (a, w)
  | None =>
      '(a, w) ←
        match not_map w !! bit with
        | Some arg => '(a, w) ← bit2aig fuel arg w; Ok (Z.lxor a 1, w)
        | None =>
            match and_map w !! bit with
            | Some args =>
                '(a0, w) ← bit2aig fuel args.1 w;
                '(a1, w) ← bit2aig fuel args.2 w;
                Ok (mkgate a0 a1 w)
            | None =>
                match alias_map w !! bit with
                | Some arg => bit2aig fuel arg w
                | None => Ok (-1, w)
                end
            end
        end;
      cache_literal bit a w
  end.
Proof. reflexivity. Qed.

Lemma cache_literal_Ok bit a0 w a w' :
  cache_literal bit a0 w = Ok (a, w') →
  w' = set_aig_map (<[bit := a]> (aig_map w)) w ∧ 0 ≤ a ∧
  (if is_Sx_or_Sz bit then aig_map w !! ConstBit S0 = Some a else a = a0).
Proof.
  unfold cache_literal. intros H.
  apply bind_Ok in H as (a' & Ha' & H).
  apply bind_Ok in H as (u & Hassert & [= <- <-]).
  apply log_assert_Ok, Z.leb_le in Hassert.
  split; [done |]. split; [done |].
  destruct (is_Sx_or_Sz bit).
  - unfold dict_at in Ha'. destruct (aig_map w !! ConstBit S0); congruence.
  - congruence.
Qed.


(** The other members are left alone, whatever the tables hold. *)
Lemma bit2aig_frame fuel : ∀ bit w a w',
  bit2aig fuel bit w = Ok (a, w') → frame w w'.
Proof.
  induction fuel as [| fuel IH]; intros bit w a w' H; [discriminate |].
  rewrite bit2aig_unfold in H.
  destruct (aig_map w !! bit).
  { apply bind_Ok in H as (_ & _ & [= <- <-]). reflexivity. }
  apply bind_Ok in H as ([a0 w0] & Hrec & H).
  apply cache_literal_Ok in H as (-> & _ & _).
  enough (frame w w0) by done.
  destruct (not_map w !! bit) as [arg |].
  { apply bind_Ok in Hrec as ([a2 w2] & H2 & [= <- <-]). eauto. }
  destruct (and_map w !! bit) as [args |].
  { apply bind_Ok in Hrec as ([a2 w2] & H2 & Hrec).
    apply bind_Ok in Hrec as ([a3 w3] & H3 & [= <- <-]).
    eapply frame_trans; [eauto |].
    eapply frame_trans; [eauto | reflexivity]. }
  destruct (alias_map w !! bit) as [arg |]; [eauto |].
  by injection Hrec as <- <-.
Qed.

(** What a successful call establishes. *)
Definition bit2aig_post (bit : SigBit) (w : XAigerWriter) (a : Z)
    (w' : XAigerWriter) : Prop :=
  frame w w' ∧ aig_ok w' ∧ 0 ≤ a ≤ 2 * aig_m w' + 1 ∧
  aig_m w ≤ aig_m w' ∧ aig_map w ⊆ aig_map w' ∧
  aig_map w' !! bit = Some a.

Lemma bit2aig_spec fuel : ∀ bit w a w',
  aig_ok w → bit2aig fuel bit w = Ok (a, w') → bit2aig_post bit w a w'.
Proof.
  induction fuel as [| fuel IH]; intros bit w a w' Hok H; [discriminate |].
  rewrite bit2aig_unfold in H.
  destruct (aig_map w !! bit) as [v |] eqn:Hhit.
  { apply bind_Ok in H as (_ & _ & [= <- <-]).
    pose proof (ok_lits w Hok bit v Hhit).
    split; [reflexivity |]. split; [done |]. split; [done |].
    split; [lia |]. split; [reflexivity | done]. }
  apply bind_Ok in H as ([a0 w0] & Hrec & H).
  (* the recursive part: everything but the cache entry of [bit] *)
  assert (Hmid : frame w w0 ∧ aig_ok w0 ∧ (a0 = -1 ∨ 0 ≤ a0 ≤ 2 * aig_m w0 + 1)
                 ∧ aig_m w ≤ aig_m w0 ∧ aig_map w ⊆ aig_map w0).
  { destruct (not_map w !! bit) as [arg |].
    { apply bind_Ok in Hrec as ([a1 w1] & H1 & [= <- <-]).
      destruct (IH _ _ _ _ Hok H1) as (Hf & Hok1 & Ha & Hm & Hsub & _).
      refine (conj Hf (conj Hok1 (conj _ (conj Hm Hsub)))).
      right. by apply lxor1_bounds. }
    destruct (and_map w !! bit) as [args |].
    { apply bind_Ok in Hrec as ([a1 w1] & H1 & Hrec).
      apply bind_Ok in Hrec as ([a2 w2] & H2 & Hrec).
      assert (Hmk : mkgate a1 a2 w2 = (a0, w0)) by congruence.
      clear Hrec.
      destruct (IH _ _ _ _ Hok H1) as (Hf1 & Hok1 & Ha1 & Hm1 & Hsub1 & _).
      destruct (IH _ _ _ _ Hok1 H2) as (Hf2 & Hok2 & Ha2 & Hm2 & Hsub2 & _).
      destruct (mkgate_spec w2 a1 a2 a0 w0 Hok2 ltac:(lia) Ha2 Hmk)
        as (Hf3 & Hok3 & -> & Hm3 & Hmap3).
      split; [eauto using frame_trans |]. split; [done |].
      split; [right; lia |]. split; [lia |].
      rewrite Hmap3. by etrans. }
    destruct (alias_map w !! bit) as [arg |].
    { destruct (IH _ _ _ _ Hok Hrec) as (Hf & Hok1 & Ha & Hm & Hsub & _).
      refine (conj Hf (conj Hok1 (conj _ (conj Hm Hsub)))). by right. }
    injection Hrec as <- <-.
    refine (conj _ (conj Hok (conj _ (conj _ _)))); [done | by left | lia | done]. }
  destruct Hmid as (Hf & Hok0 & Ha0 & Hm & Hsub).
  apply cache_literal_Ok in H as (-> & Hassert & Ha').
  assert (Hbound : 0 ≤ a ≤ 2 * aig_m w0 + 1).
  { destruct (is_Sx_or_Sz bit).
    - by apply (ok_lits w0 Hok0 _ _ Ha').
    - subst a0. destruct Ha0; lia. }
  split; [exact Hf |]. split; [by apply aig_ok_insert |].
  split; [exact Hbound |]. split; [exact Hm |]. split.
  - simpl. by apply insert_subseteq_r.
  - simpl. apply lookup_insert_eq.
Qed.

(** The cache only grows, and holds the literal that was returned. *)
Lemma bit2aig_cache fuel : ∀ bit w a w',
  bit2aig fuel bit w = Ok (a, w') →
  aig_map w ⊆ aig_map w' ∧ aig_map w' !! bit = Some a ∧ 0 ≤ a.
Proof.
  induction fuel as [| fuel IH]; intros bit w a w' H; [discriminate |].
  rewrite bit2aig_unfold in H.
  destruct (aig_map w !! bit) as [v |] eqn:Hhit.
  { apply bind_Ok in H as (u & Hassert & [= <- <-]).
    apply log_assert_Ok, Z.leb_le in Hassert. done. }
  apply bind_Ok in H as ([a0 w0] & Hrec & H).
  apply cache_literal_Ok in H as (-> & Ha & _).
  assert (Hsub : aig_map w ⊆ aig_map w0).
  { destruct (not_map w !! bit) as [arg |].
    { apply bind_Ok in Hrec as ([a2 w2] & H2 & [= <- <-]).
      by destruct (IH _ _ _ _ H2). }
    destruct (and_map w !! bit) as [args |].
    { apply bind_Ok in Hrec as ([a2 w2] & H2 & Hrec).
      apply bind_Ok in Hrec as ([a3 w3] & H3 & Hmk).
      injection Hmk as <- <-. simpl.
      destruct (IH _ _ _ _ H2) as [Hs2 _].
      destruct (IH _ _ _ _ H3) as [Hs3 _]. by etrans. }
    destruct (alias_map w !! bit) as [arg |].
    { by destruct (IH _ _ _ _ Hrec). }
    by injection Hrec as <- <-. }
  split; [simpl; by apply insert_subseteq_r |].
  split; [simpl; apply lookup_insert_eq | done].
Qed.






End Builder.

(** * The constructor from line 578 on: numbering and output list *)

Section Constructor.

#[local] Arguments mkgate : simpl never.
#[local] Arguments cache_literal : simpl never.

Lemma for_each_app {A S : Type} (body : A → S → result S) l1 l2 s :
  for_each body (l1 ++ l2) s = (s' ← for_each body l1 s; for_each body l2 s').
Proof.
  revert s. induction l1 as [| x l1 IH]; intros s; simpl; [done |].
  destruct (body x s); simpl; [apply IH | done..].
Qed.

Lemma for_each_cons_Ok {A S : Type} (body : A → S → result S) x l s s' :
  for_each body (x :: l) s = Ok s' →
  ∃ s1, body x s = Ok s1 ∧ for_each body l s1 = Ok s'.
Proof. simpl. intros H. by apply bind_Ok in H. Qed.

Lemma aig_ok_initial module zinit t :
  aig_ok (set_aig_map (<[ConstBit S1 := 1]> (<[ConstBit S0 := 0]> ∅))
            (classified module zinit t)).
Proof.
  split; simpl; try done.
  intros b v. rewrite !lookup_insert.
  repeat case_decide; intros [= <-]; lia.
Qed.

(** *** Lines 581-592 *)

Lemma number_input_spec bit w w' :
  number_input bit w = Ok w' → aig_ok w → aig_gates w = [] →
  erase_num w' = erase_num w ∧ aig_ok w' ∧ aig_m w' = aig_m w + 1 ∧
  aig_map w ⊆ aig_map w' ∧ aig_map w' !! bit = Some (2 * aig_m w').
Proof.
  unfold number_input. intros H Hok Hgates.
  pose proof (aig_ok_m_nonneg _ Hok) as Hm0.
  destruct Hok as [Hc Hl Hin Hn Hlits Hg].
  apply bind_Ok in H as (u & Hfree & [= <-]).
  apply log_assert_Ok, bool_decide_eq_true in Hfree. simpl in Hfree.
  split; [reflexivity |]. split; [| split; [done |]; split].
  - split; simpl; try done; try lia.
    + intros b v. rewrite lookup_insert. case_decide.
      * intros [= <-]. lia.
      * intros Hb. specialize (Hlits b v Hb). lia.
    + rewrite Hgates. intros i g. by rewrite lookup_nil.
  - simpl. by apply insert_subseteq.
  - simpl. apply lookup_insert_eq.
Qed.

Lemma erase_num_gates w w' :
  erase_num w' = erase_num w → aig_gates w' = aig_gates w.
Proof. intros H. apply (f_equal aig_gates) in H. exact H. Qed.

Lemma number_inputs_spec bits : ∀ w w',
  for_each number_input bits w = Ok w' → aig_ok w → aig_gates w = [] →
  erase_num w' = erase_num w ∧ aig_ok w' ∧
  aig_m w' = aig_m w + GetSize bits ∧ aig_map w ⊆ aig_map w' ∧
  (∀ b, b ∈ bits → ∃ v, aig_map w' !! b = Some v ∧ v ≤ 2 * aig_m w').
Proof.
  unfold GetSize.
  induction bits as [| bit bits IH]; intros w w' H Hok Hg.
  - injection H as <-.
    split; [done |]. split; [done |]. split; [simpl; lia |].
    split; [done |]. intros b Hb. by apply elem_of_nil in Hb.
  - apply for_each_cons_Ok in H as (w1 & H1 & H).
    destruct (number_input_spec _ _ _ H1 Hok Hg) as (He1 & Hok1 & Hm1 & Hs1 & Hb1).
    pose proof (erase_num_gates _ _ He1) as Hg1. rewrite Hg in Hg1.
    destruct (IH _ _ H Hok1 Hg1) as (He & Hok' & Hm & Hs & Hb).
    split; [congruence |]. split; [done |].
    split; [rewrite Hm, Hm1; simpl; lia |].
    split; [by etrans |].
    intros b [-> | Hin]%elem_of_cons; [| by apply Hb].
    exists (2 * aig_m w1). split; [| lia].
    eapply lookup_weaken; eauto.
Qed.

(** *** Lines 594-601 *)

Lemma number_ci_spec c w fm w' fm' :
  number_ci c (w, fm) = Ok (w', fm') → aig_ok w → aig_gates w = [] →
  erase_num w' = erase_num w ∧ aig_ok w' ∧ aig_m w' = aig_m w + 1 ∧
  aig_map w ⊆ aig_map w' ∧ is_Some (aig_map w' !! ci_bit c) ∧
  fm' = match aig_map w !! ci_bit c with
        | Some _ => <[ci_bit c := 2 * aig_m w']> fm
        | None => fm
        end.
Proof.
  unfold number_ci, ci_bit. intros H Hok Hgates.
  pose proof (aig_ok_m_nonneg _ Hok) as Hm0.
  destruct Hok as [Hc Hl Hin Hn Hlits Hg].
  simpl in H.
  assert (Hok1 : ∀ m, (∀ b v, m !! b = Some v → 0 ≤ v ≤ 2 * (aig_m w + 1) + 1) →
     aig_ok (set_aig_map m (set_aig_i (aig_i w + 1) (set_aig_m (aig_m w + 1) w)))).
  { intros m Hm. split; simpl; try done; try lia.
    rewrite Hgates. intros i g. by rewrite lookup_nil. }
  destruct (aig_map w !! c.1.1.1) as [v |] eqn:Hhit.
  - injection H as <- <-.
    split; [reflexivity |]. split.
    { apply (Hok1 (aig_map w)). intros b v' Hb.
      specialize (Hlits b v' Hb). lia. }
    split; [done |]. split; [done |]. split; [by eexists |].
    done.
  - injection H as <- <-.
    split; [reflexivity |]. split.
    { apply Hok1. intros b v'. rewrite lookup_insert. case_decide.
      - intros [= <-]. lia.
      - intros Hb. specialize (Hlits b v' Hb). lia. }
    split; [done |]. simpl. split; [by apply insert_subseteq |].
    split; [rewrite lookup_insert_eq; by eexists | done].
Qed.

(** After the loop over a prefix [cs] of [ci_bits]: an entry of
    [ff_aig_map] is the literal of the variable given to the last entry
    of [cs] for that bit, and its bit is in [aig_map]. *)
Lemma number_cis_spec cs : ∀ w w' fm',
  for_each number_ci cs (w, ∅) = Ok (w', fm') → aig_ok w → aig_gates w = [] →
  erase_num w' = erase_num w ∧ aig_ok w' ∧
  aig_m w' = aig_m w + GetSize cs ∧ aig_map w ⊆ aig_map w' ∧
  (∀ D a, fm' !! D = Some a →
     is_Some (aig_map w' !! D) ∧
     ∃ k, last_at (map ci_bit cs) k D ∧ a = 2 * (aig_m w + Z.of_nat k + 1)).
Proof.
  unfold GetSize.
  induction cs as [| c cs IH] using rev_ind; intros w w' fm' H Hok Hg.
  - injection H as <- <-.
    split; [done |]. split; [done |]. split; [simpl; lia |].
    split; [done |]. intros D a HD. by rewrite lookup_empty in HD.
  - rewrite for_each_app in H.
    apply bind_Ok in H as ([w1 fm1] & H1 & H).
    apply for_each_cons_Ok in H as ([w2 fm2] & H2 & [= <- <-]).
    destruct (IH _ _ _ H1 Hok Hg) as (He1 & Hok1 & Hm1 & Hs1 & Hfm1).
    pose proof (erase_num_gates _ _ He1) as Hg1. rewrite Hg in Hg1.
    destruct (number_ci_spec _ _ _ _ _ H2 Hok1 Hg1)
      as (He2 & Hok2 & Hm2 & Hs2 & Hin2 & Hfm2).
    split; [congruence |]. split; [done |].
    split; [rewrite length_app; simpl; lia |].
    split; [by etrans |].
    intros D a HD. rewrite map_app. simpl.
    assert (Hlen : length (map ci_bit cs) = length cs) by apply length_map.
    destruct (decide (D = ci_bit c)) as [-> | Hne].
    + (* the entry just visited *)
      split; [done |].
      destruct (aig_map w1 !! ci_bit c) as [v |] eqn:Hhit.
      * subst fm2.
        rewrite lookup_insert_eq in HD. injection HD as <-.
        exists (length cs). split; [| lia].
        split.
        -- rewrite lookup_app_r by lia. by rewrite Hlen, Nat.sub_diag.
        -- intros k' Hk'. rewrite lookup_ge_None_2; [done |].
           rewrite length_app. simpl. lia.
      * subst fm2. destruct (Hfm1 _ _ HD) as ([v Hv] & _). congruence.
    + assert (HD1 : fm1 !! D = Some a).
      { destruct (aig_map w1 !! ci_bit c); subst fm2; [| done].
        by rewrite lookup_insert_ne in HD. }
      destruct (Hfm1 _ _ HD1) as ([v Hv] & k & [Hk Hlast] & ->).
      split; [exists v; eapply lookup_weaken; eauto |].
      exists k. split; [| done].
      split.
      * by apply lookup_app_l_Some.
      * intros k' Hk'. destruct (decide (k' < length cs)%nat).
        -- rewrite lookup_app_l by lia. by apply Hlast.
        -- rewrite lookup_app_r by lia.
           destruct (k' - length (map ci_bit cs))%nat; simpl; [congruence |].
           by rewrite lookup_nil.
Qed.


(** *** Lines 603-623 *)

Lemma aig_ok_ext w w' :
  aig_m w' = aig_m w → aig_i w' = aig_i w → aig_l w' = aig_l w →
  aig_a w' = aig_a w → aig_gates w' = aig_gates w → aig_map w' = aig_map w →
  aig_ok w → aig_ok w'.
Proof.
  intros Hm Hi Hl Ha Hg Hmap [Hc Hla Hin Hn Hlits Hgs].
  split; rewrite ?Hm, ?Hi, ?Hl, ?Ha, ?Hg, ?Hmap; done.
Qed.

Lemma frame_erase_out w w' : frame w w' → erase_out w' = erase_out w.
Proof. intros H. apply (f_equal erase_out) in H. exact H. Qed.

Lemma output_po_spec fuel bit w w' :
  output_po fuel bit w = Ok w' → aig_ok w →
  erase_out w' = erase_out w ∧ aig_ok w' ∧ aig_map w ⊆ aig_map w' ∧
  aig_o w' = aig_o w + 1 ∧
  ∃ a, aig_outputs w' = aig_outputs w ++ [a] ∧ aig_map w' !! bit = Some a.
Proof.
  unfold output_po. intros H Hok.
  apply bind_Ok in H as ([a w2] & H2 & [= <-]).
  set (w1 := set_ordered_outputs _ _) in H2.
  assert (Hok1 : aig_ok w1) by (by eapply aig_ok_ext; [.. | exact Hok]).
  destruct (bit2aig_spec _ _ _ _ _ Hok1 H2) as (Hf & Hok2 & _ & _ & Hsub & Hhit).
  split; [exact (frame_erase_out _ _ Hf) |].
  split; [by eapply aig_ok_ext; [.. | exact Hok2] |].
  split; [exact Hsub |].
  split; [exact (frame_aig_o _ _ Hf) |].
  exists a. split; [| exact Hhit].
  simpl. by rewrite (frame_aig_outputs _ _ Hf).
Qed.

Lemma output_co_spec fuel c w done w' done' :
  output_co fuel c (w, done) = Ok (w', done') → aig_ok w →
  erase_out w' = erase_out w ∧ aig_ok w' ∧ aig_map w ⊆ aig_map w' ∧
  aig_o w' = aig_o w + 1 ∧ done' = done ++ [(c.1, aig_o w)] ∧
  ∃ a, aig_outputs w' = aig_outputs w ++ [a] ∧
       aig_map w' !! co_bit c = Some a.
Proof.
  unfold output_co, co_bit. intros H Hok. simpl in H.
  apply bind_Ok in H as ([a w2] & H2 & [= <- <-]).
  set (w1 := set_ordered_outputs _ _) in H2.
  assert (Hok1 : aig_ok w1) by (by eapply aig_ok_ext; [.. | exact Hok]).
  destruct (bit2aig_spec _ _ _ _ _ Hok1 H2) as (Hf & Hok2 & _ & _ & Hsub & Hhit).
  split; [exact (frame_erase_out _ _ Hf) |].
  split; [by eapply aig_ok_ext; [.. | exact Hok2] |].
  split; [exact Hsub |].
  split; [exact (frame_aig_o _ _ Hf) |].
  split; [done |].
  exists a. split; [| exact Hhit].
  simpl. by rewrite (frame_aig_outputs _ _ Hf).
Qed.

Lemma Forall2_lookup_weaken {A : Type} (f : A → SigBit) (m m' : gmap SigBit Z)
    (l : list A) (lits : list Z) :
  m ⊆ m' →
  Forall2 (λ x a, m !! f x = Some a) l lits →
  Forall2 (λ x a, m' !! f x = Some a) l lits.
Proof.
  intros Hsub H. eapply Forall2_impl; [exact H |].
  intros x a Hx. simpl in *. exact (lookup_weaken _ _ _ _ Hx Hsub).
Qed.

Lemma output_pos_spec fuel bits : ∀ w w',
  for_each (output_po fuel) bits w = Ok w' → aig_ok w →
  erase_out w' = erase_out w ∧ aig_ok w' ∧ aig_map w ⊆ aig_map w' ∧
  ∃ lits, aig_outputs w' = aig_outputs w ++ lits ∧
          aig_o w' = aig_o w + GetSize lits ∧
          Forall2 (λ b a, aig_map w' !! b = Some a) bits lits.
Proof.
  induction bits as [| bit bits IH]; intros w w' H Hok.
  - injection H as <-. split; [done |]. split; [done |]. split; [done |].
    exists []. rewrite app_nil_r. unfold GetSize. simpl.
    split; [done |]. split; [lia | constructor].
  - apply for_each_cons_Ok in H as (w1 & H1 & H).
    destruct (output_po_spec _ _ _ _ H1 Hok)
      as (He1 & Hok1 & Hs1 & Ho1 & a & Hout1 & Ha).
    destruct (IH _ _ H Hok1) as (He & Hok' & Hs & lits & Hout & Ho & Hall).
    split; [congruence |]. split; [done |]. split; [by etrans |].
    exists (a :: lits). rewrite Hout, Hout1, <- app_assoc.
    split; [done |]. unfold GetSize in *. simpl.
    split; [lia |]. constructor; [| done]. eapply lookup_weaken; eauto.
Qed.

Lemma output_cos_spec fuel cs : ∀ w done w' done',
  for_each (output_co fuel) cs (w, done) = Ok (w', done') → aig_ok w →
  erase_out w' = erase_out w ∧ aig_ok w' ∧ aig_map w ⊆ aig_map w' ∧
  map fst done' = map fst done ++ map fst cs ∧
  ∃ lits, aig_outputs w' = aig_outputs w ++ lits ∧
          aig_o w' = aig_o w + GetSize lits ∧
          Forall2 (λ c a, aig_map w' !! co_bit c = Some a) cs lits.
Proof.
  induction cs as [| c cs IH]; intros w done w' done' H Hok.
  - injection H as <- <-. split; [done |]. split; [done |]. split; [done |].
    split; [by rewrite app_nil_r |].
    exists []. rewrite app_nil_r. unfold GetSize. simpl.
    split; [done |]. split; [lia | constructor].
  - apply for_each_cons_Ok in H as ([w1 done1] & H1 & H).
    destruct (output_co_spec _ _ _ _ _ _ H1 Hok)
      as (He1 & Hok1 & Hs1 & Ho1 & -> & a & Hout1 & Ha).
    destruct (IH _ _ _ _ H Hok1)
      as (He & Hok' & Hs & Hdone & lits & Hout & Ho & Hall).
    split; [congruence |]. split; [done |]. split; [by etrans |].
    split; [rewrite Hdone, map_app, <- app_assoc; done |].
    exists (a :: lits). rewrite Hout, Hout1, <- app_assoc.
    split; [done |]. unfold GetSize in *. simpl.
    split; [lia |]. constructor; [| done]. eapply lookup_weaken; eauto.
Qed.

Lemma output_ffs_spec fm ffs : ∀ w w',
  for_each (output_ff fm) ffs w = Ok w' →
  ∃ lits, w' = set_aig_outputs (aig_outputs w ++ lits)
                 (set_aig_o (aig_o w + GetSize lits) w) ∧
          Forall2 (λ (i : SigBit * Z) a, fm !! i.1 = Some a) ffs lits.
Proof.
  induction ffs as [| i ffs IH]; intros w w' H.
  - injection H as <-. exists []. split; [| constructor].
    rewrite app_nil_r. unfold GetSize. simpl. rewrite Z.add_0_r.
    by destruct w.
  - apply for_each_cons_Ok in H as (w1 & H1 & H).
    unfold output_ff, dict_at in H1.
    destruct (fm !! i.1) as [a |] eqn:Ha; [| discriminate].
    injection H1 as <-.
    destruct (IH _ _ H) as (lits & -> & Hall).
    exists (a :: lits). split; [| by constructor].
    simpl. rewrite <- app_assoc. unfold GetSize. simpl.
    replace (aig_o w + 1 + Z.of_nat (length lits))
      with (aig_o w + Z.pos (Pos.of_succ_nat (length lits))) by lia.
    done.
Qed.


Lemma Forall2_impl_elem {A B : Type} (P Q : A → B → Prop) l k :
  Forall2 P l k → (∀ x y, x ∈ l → P x y → Q x y) → Forall2 Q l k.
Proof.
  induction 1 as [| x y l k Hxy _ IH]; intros HPQ; constructor.
  - apply HPQ; [apply elem_of_cons; by left | done].
  - apply IH. intros x' y' Hin. apply HPQ. apply elem_of_cons. by right.
Qed.

Lemma final_output_bits_nonempty t : final_output_bits t ≠ [].
Proof.
  unfold final_output_bits.
  destruct (bool_decide_reflect (t_output_bits t = [])); [done |].
  done.
Qed.

(** Reading one member off an equation between blanked writers. *)
Tactic Notation "member" constr(H) constr(f) "as" ident(E) :=
  pose proof (f_equal f H) as E; simpl in E.

(** *** The constructor as a whole *)

Lemma XAigerWriter_new_built fuel module zinit t w :
  XAigerWriter_new fuel module zinit t = Ok w → built module zinit t w.
Proof.
  unfold XAigerWriter_new. intros H.
  set (w0 := set_aig_map _ (set_aig_map _ _)) in H.
  assert (Hok0 : aig_ok w0) by apply aig_ok_initial.
  apply bind_Ok in H as (w1 & H1 & H).
  apply bind_Ok in H as (w2 & H2 & H).
  apply bind_Ok in H as ([w3 fm] & H3 & H).
  apply bind_Ok in H as ([w4 co] & H4 & H).
  apply bind_Ok in H as (w7 & H7 & H).
  apply bind_Ok in H as (w8 & H8 & H).
  (* the numbering loops *)
  destruct (number_inputs_spec _ _ _ H1 Hok0 eq_refl)
    as (He1 & Hok1 & Hm1 & Hs1 & _).
  member He1 aig_gates as Eg1. member He1 ff_bits as Eff1.
  member He1 ci_bits as Eci1.
  rewrite Eff1 in H2.
  destruct (number_inputs_spec _ _ _ H2 Hok1 Eg1)
    as (He2 & Hok2 & Hm2 & Hs2 & Hff).
  member He2 aig_gates as Eg2. member He2 ci_bits as Eci2.
  rewrite Eci2, Eci1 in H3. rewrite Eg1 in Eg2.
  destruct (number_cis_spec _ _ _ _ H3 Hok2 Eg2)
    as (He3 & Hok3 & Hm3 & Hs3 & Hfm).
  assert (Hn2 : aig_m w2 = GetSize (t_input_bits t) + GetSize (t_ff_bits t)).
  { rewrite Hm2, Hm1. unfold GetSize. rewrite length_map. simpl. lia. }
  assert (He03 : erase_num w3 = erase_num w0) by congruence.
  member He03 aig_gates as Eg3. member He03 aig_outputs as Eouts3.
  member He03 aig_o as Eo3. member He03 co_bits as Eco3.
  member He03 output_bits as Eob3. member He03 ff_bits as Eff3.
  member He03 aig_l as El3. member He03 aig_a as Ea3.
  member He03 omode as Eom3.
  assert (Hi3 : aig_i w3 = GetSize (t_input_bits t) + GetSize (t_ff_bits t)
                           + GetSize (t_ci_bits t)).
  { pose proof (ok_count _ Hok3). lia. }
  (* the outputs of the boxes *)
  rewrite Eco3 in H4.
  destruct (output_cos_spec _ _ _ _ _ _ H4 Hok3)
    as (He4 & Hok4 & Hs4 & Hco & co_lits & Hout4 & Ho4 & Hall4).
  rewrite Eouts3 in Hout4. rewrite Eo3 in Ho4. simpl in Hout4, Ho4, Hco.
  member He4 output_bits as Eob4. member He4 ff_bits as Eff4.
  member He4 aig_i as Ei4. member He4 omode as Eom4.
  (* the primary outputs *)
  set (w5 := set_co_bits co w4) in *.
  set (w6 := if bool_decide (output_bits w5 = []) then _ else w5) in *.
  assert (Hob5 : output_bits w5 = t_output_bits t).
  { unfold w5. simpl. congruence. }
  assert (Hout6 : output_bits w6 = final_output_bits t).
  { unfold w6, final_output_bits. rewrite Hob5.
    by destruct (bool_decide (t_output_bits t = [])). }
  assert (Hom6 : omode w6 = bool_decide (t_output_bits t = [])).
  { unfold w6. rewrite Hob5.
    destruct (bool_decide (t_output_bits t = [])); simpl;
      [done | congruence]. }
  assert (Hok6 : aig_ok w6).
  { eapply aig_ok_ext; [.. | exact Hok4]; unfold w6;
      by destruct (bool_decide (output_bits w5 = [])). }
  assert (H46 : ∀ {A : Type} (f : XAigerWriter → A),
            (∀ v x, f (set_co_bits v x) = f x) →
            (∀ v x, f (set_omode v x) = f x) →
            (∀ v x, f (set_output_bits v x) = f x) → f w6 = f w4).
  { intros A f Hf1 Hf2 Hf3. unfold w6.
    destruct (bool_decide (output_bits w5 = [])); unfold w5;
      by rewrite ?Hf2, ?Hf3, ?Hf1. }
  rewrite Hout6 in H7.
  destruct (output_pos_spec _ _ _ _ H7 Hok6)
    as (He7 & Hok7 & Hs7 & po_lits & Hout7 & Ho7 & Hall7).
  member He7 ff_bits as Eff7. member He7 output_bits as Eob7.
  member He7 omode as Eom7. member He7 co_bits as Eco7.
  member He7 aig_i as Ei7.
  (* the registers *)
  rewrite Eff7 in H8.
  rewrite (H46 _ ff_bits) in H8 by done. rewrite Eff4, Eff3 in H8.
  simpl in H8.
  destruct (output_ffs_spec _ _ _ _ H8) as (ff_lits & -> & Hall8).
  set (w8 := set_aig_outputs _ _) in *.
  assert (Hout8 : output_bits w8 = final_output_bits t).
  { unfold w8. simpl. congruence. }
  rewrite Hout8 in H.
  rewrite bool_decide_eq_false_2 in H by apply final_output_bits_nonempty.
  injection H as <-.
  assert (Hmap8 : aig_map w8 = aig_map w7) by reflexivity.
  split.
  - by eapply aig_ok_ext; [.. | exact Hok7].
  - transitivity (erase_built w6).
    { apply (f_equal erase_built) in He7. exact He7. }
    transitivity (erase_built w4).
    { unfold w6. by destruct (bool_decide (output_bits w5 = [])). }
    transitivity (erase_built w3).
    { apply (f_equal erase_built) in He4. exact He4. }
    apply (f_equal erase_built) in He03. exact He03.
  - change (aig_i w8) with (aig_i w7). rewrite Ei7.
    rewrite (H46 _ aig_i) by done. congruence.
  - exact Hout8.
  - change (omode w8) with (omode w7). congruence.
  - change (co_bits w8) with (co_bits w7). rewrite Eco7.
    transitivity (map fst (co_bits w5));
      [unfold w6; by destruct (bool_decide (output_bits w5 = [])) |].
    exact Hco.
  - unfold w8. simpl. rewrite Ho7, Hout7.
    rewrite (H46 _ aig_o), (H46 _ aig_outputs) by done.
    rewrite Ho4, Hout4. unfold GetSize. rewrite !length_app. lia.
  - rewrite Hmap8. eapply lookup_weaken; [| exact Hs7].
    rewrite (H46 _ aig_map) by done.
    eapply lookup_weaken; [| exact Hs4].
    eapply lookup_weaken; [| exact Hs3].
    eapply lookup_weaken; [| exact Hs2].
    eapply lookup_weaken; [| exact Hs1].
    unfold w0. simpl. rewrite lookup_insert_ne by done.
    apply lookup_insert_eq.
  - exists co_lits, po_lits, ff_lits. split; [| split; [| split]].
    + unfold w8. simpl. rewrite Hout7, (H46 _ aig_outputs), Hout4 by done.
      by rewrite <- app_assoc.
    + rewrite Hmap8. eapply Forall2_lookup_weaken; [| exact Hall4].
      etrans; [| exact Hs7]. by rewrite (H46 _ aig_map).
    + rewrite Hmap8. exact Hall7.
    + eapply Forall2_impl_elem; [exact Hall8 |].
      intros i a Hin Ha. simpl in Ha.
      destruct (Hfm _ _ Ha) as (_ & k & Hlast & ->).
      destruct (Hff i.1) as (v & Hv & Hle).
      { apply list_elem_of_fmap. by exists i. }
      exists k, v. split; [exact Hlast |].
      split; [unfold ci_literal; by rewrite Hn2 |].
      split; [| lia].
      rewrite Hmap8. eapply lookup_weaken; [exact Hv |].
      etrans; [exact Hs3 |]. etrans; [exact Hs4 |].
      etrans; [| exact Hs7]. by rewrite (H46 _ aig_map).
Qed.

End Constructor.

(** * The loops of write_aiger over the outputs and the gates *)

Section Streams.

Lemma for_each_cons {A S : Type} (body : A → S → result S) x l s :
  for_each body (x :: l) s = (s' ← body x s; for_each body l s').
Proof. reflexivity. Qed.

Lemma vector_at_middle {A : Type} (pre suf : list A) (x : A) :
  vector_at (pre ++ x :: suf) (Z.of_nat (length pre)) = Ok x.
Proof.
  unfold vector_at. destruct (Z.ltb_spec (Z.of_nat (length pre)) 0); [lia |].
  rewrite Nat2Z.id, lookup_app_r by lia.
  by rewrite Nat.sub_diag.
Qed.

Lemma seqZ_succ_length {A : Type} (pre : list A) (x : A) (suf : list A) :
  seqZ (Z.of_nat (length pre)) (Z.of_nat (length (x :: suf))) =
  Z.of_nat (length pre)
    :: seqZ (Z.of_nat (length (pre ++ [x]))) (Z.of_nat (length suf)).
Proof.
  rewrite seqZ_cons by (simpl; lia).
  rewrite length_app. simpl. f_equal. f_equal; lia.
Qed.

(** One line per element of [aig_outputs], in order. *)
Definition output_line (o : Z) : list Z := string_bytes (dec o +:+ nl).

Lemma write_output_middle w pre o suf f :
  aig_outputs w = pre ++ o :: suf →
  write_output w (Z.of_nat (length pre)) f = Ok (f ++ output_line o).
Proof. intros Hl. unfold write_output. by rewrite Hl, vector_at_middle. Qed.

Lemma write_outputs_from w suf : ∀ pre f,
  aig_outputs w = pre ++ suf →
  for_each (write_output w)
           (seqZ (Z.of_nat (length pre)) (Z.of_nat (length suf))) f
  = Ok (f ++ flat_map output_line suf).
Proof.
  induction suf as [| o suf IH]; intros pre f Hl.
  - simpl. by rewrite app_nil_r.
  - rewrite seqZ_succ_length, for_each_cons.
    rewrite (write_output_middle _ _ _ _ _ Hl). cbn [mbind result_bind bind].
    rewrite (IH (pre ++ [o])) by (by rewrite <- app_assoc).
    cbn [flat_map]. by rewrite <- app_assoc.
Qed.

Lemma write_outputs_all w f :
  for_each (write_output w) (seqZ 0 (GetSize (aig_outputs w))) f
  = Ok (f ++ flat_map output_line (aig_outputs w)).
Proof. exact (write_outputs_from w (aig_outputs w) [] f eq_refl). Qed.

Lemma write_input_lines n : ∀ k f,
  for_each (λ i f, Ok (f ++ string_bytes (dec (2 * i + 2) +:+ nl)))
           (seqZ k (Z.of_nat n)) f
  = Ok (f ++ flat_map (λ i, string_bytes (dec (2 * i + 2) +:+ nl))
                      (seqZ k (Z.of_nat n))).
Proof.
  induction n as [| n IH]; intros k f.
  - simpl. by rewrite app_nil_r.
  - rewrite seqZ_cons by lia.
    replace (Z.pred (Z.of_nat (S n))) with (Z.of_nat n) by lia.
    simpl. rewrite IH. by rewrite <- app_assoc.
Qed.

(** Lines 646-659 and 666-676 write the input lines in ASCII mode and
    then exactly the elements of [aig_outputs]. *)
Lemma write_inputs_outputs_spec w ascii_mode f :
  aig_o w = GetSize (aig_outputs w) → 0 ≤ aig_i w →
  write_inputs_outputs w ascii_mode f =
  Ok (f ++ (if ascii_mode
            then flat_map (λ i, string_bytes (dec (2 * i + 2) +:+ nl))
                          (seqZ 0 (aig_i w))
            else [])
        ++ flat_map output_line (aig_outputs w)).
Proof.
  intros Ho Hi. unfold write_inputs_outputs.
  rewrite Z.sub_diag. change (seqZ (aig_o w) 0) with (@nil Z).
  rewrite Ho.
  destruct ascii_mode.
  - rewrite <- (Z2Nat.id (aig_i w)) by lia.
    rewrite write_input_lines. simpl.
    rewrite write_outputs_all. simpl. by rewrite <- app_assoc.
  - simpl. rewrite write_outputs_all. simpl. done.
Qed.

Lemma aiger_encode_all_app xs ys bx by_ :
  aiger_encode_all xs = Ok bx → aiger_encode_all ys = Ok by_ →
  aiger_encode_all (xs ++ ys) = Ok (bx ++ by_).
Proof.
  revert bx. induction xs as [| x xs IH]; intros bx Hx Hy; simpl in *.
  - by injection Hx as <-.
  - apply bind_Ok in Hx as (b & Hb & Hx).
    apply bind_Ok in Hx as (bs & Hbs & [= <-]).
    rewrite Hb. simpl. rewrite (IH _ Hbs Hy). simpl.
    by rewrite <- app_assoc.
Qed.

Lemma write_gate_binary_middle w pre g suf f b0 b1 :
  aig_gates w = pre ++ g :: suf →
  aiger_encode (2 * (aig_i w + aig_l w + Z.of_nat (length pre)) + 2 - g.1)
    = Ok b0 →
  aiger_encode (g.1 - g.2) = Ok b1 →
  write_gate_binary w (Z.of_nat (length pre)) f = Ok (f ++ b0 ++ b1).
Proof.
  intros Hl Hb0 Hb1. unfold write_gate_binary.
  rewrite Hl, vector_at_middle. cbn [mbind result_bind bind].
  rewrite Hb0. cbn [mbind result_bind bind]. by rewrite Hb1.
Qed.

(** Lines 678-686 write, gate after gate, the encodings of the two
    deltas. *)
Lemma write_gates_from w suf : ∀ pre f,
  aig_gates w = pre ++ suf →
  (∀ (i : nat) g, aig_gates w !! i = Some g →
                  Forall (λ x, 0 ≤ x) (gate_deltas w i g)) →
  ∃ bs,
    for_each (write_gate_binary w)
             (seqZ (Z.of_nat (length pre)) (Z.of_nat (length suf))) f
    = Ok (f ++ bs) ∧
    aiger_encode_all
      (concat (imap (λ j, gate_deltas w (length pre + j)) suf)) = Ok bs.
Proof.
  induction suf as [| g suf IH]; intros pre f Hl Hpos.
  - exists []. simpl. by rewrite app_nil_r.
  - assert (Hg : aig_gates w !! length pre = Some g).
    { rewrite Hl, lookup_app_r by lia. by rewrite Nat.sub_diag. }
    pose proof (Hpos _ _ Hg) as Hd. unfold gate_deltas in Hd.
    apply Forall_cons in Hd as [Hd0 Hd1].
    apply Forall_cons in Hd1 as [Hd1 _].
    destruct (aiger_encode_total _ Hd0) as [b0 Hb0].
    destruct (aiger_encode_total _ Hd1) as [b1 Hb1].
    destruct (IH (pre ++ [g]) (f ++ b0 ++ b1)) as (bs & Hloop & Henc).
    { by rewrite <- app_assoc. }
    { exact Hpos. }
    exists (b0 ++ b1 ++ bs). split.
    + rewrite seqZ_succ_length, for_each_cons.
      rewrite (write_gate_binary_middle _ _ _ _ _ _ _ Hl Hb0 Hb1).
      cbn [mbind result_bind bind].
      rewrite Hloop. by rewrite <- !app_assoc.
    + rewrite imap_cons. cbn [concat]. rewrite Nat.add_0_r.
      unfold gate_deltas at 1. cbn [app aiger_encode_all].
      rewrite Hb0. cbn [mbind result_bind bind].
      rewrite Hb1. cbn [mbind result_bind bind].
      rewrite length_app in Henc. simpl in Henc.
      erewrite imap_ext; [rewrite Henc |].
      * reflexivity.
      * intros j x _. simpl. f_equal. lia.
Qed.

End Streams.

(** * The claims about the AIG builder *)

Section BuilderClaims.

#[local] Arguments mkgate : simpl never.

Lemma aiger_encode_all_bytes xs : ∀ bs,
  aiger_encode_all xs = Ok bs → Forall (λ b, 0 ≤ b < 256) bs.
Proof.
  induction xs as [| x xs IH]; intros bs H; simpl in H.
  - injection H as <-. constructor.
  - apply bind_Ok in H as (b & Hb & H).
    apply bind_Ok in H as (bs' & Hbs' & [= <-]).
    apply Forall_app. split; [| by apply IH].
    pose proof (aiger_encode_nonneg _ _ Hb) as Hx.
    unfold aiger_encode in Hb. destruct (Z.leb_spec 0 x); [simpl in Hb | lia].
    by eapply aiger_encode_loop_bytes.
Qed.

Lemma mkgate_larger_first a0 a1 w :
  aig_gates (mkgate a0 a1 w).2 = aig_gates w ++ [(Z.max a0 a1, Z.min a0 a1)] ∧
  (mkgate a0 a1 w).1 = 2 * aig_m (mkgate a0 a1 w).2 ∧
  aig_m (mkgate a0 a1 w).2 = aig_m w + 1.
Proof.
  unfold mkgate. simpl. split; [| done].
  f_equal. destruct (Z.gtb_spec a0 a1).
  - by rewrite Z.max_l, Z.min_r by lia.
  - by rewrite Z.max_r, Z.min_l by lia.
Qed.

Lemma gate_deltas_nonneg w i g :
  aig_ok w → aig_gates w !! i = Some g →
  Forall (λ x, 0 ≤ x) (gate_deltas w i g).
Proof.
  intros Hok Hg. destruct (ok_gates _ Hok _ _ Hg) as (H2 & H21 & H1).
  unfold gate_deltas. repeat constructor; lia.
Qed.

Lemma write_gates_binary w f :
  aig_ok w →
  ∃ bs, write_gates w false f = Ok (f ++ bs) ∧
        aiger_encode_all (all_deltas w) = Ok bs.
Proof.
  intros Hok. unfold write_gates, all_deltas.
  rewrite <- (ok_gates_len _ Hok).
  destruct (write_gates_from w (aig_gates w) [] f eq_refl) as (bs & H & Henc).
  { intros i g. by apply gate_deltas_nonneg. }
  exists bs. split; [exact H |].
  erewrite imap_ext; [exact Henc |]. done.
Qed.

(** C1: every sequence of non-negative integers is encoded by
    [aiger_encode] into bytes from which the 7-bit little-group decoder
    reads the same integers back; [mkgate] stores the larger operand
    first and returns the literal [2*aig_m] of a new variable; in every
    writer the constructor builds, each gate has its larger operand first
    and a left-hand side above both operands, so both deltas of binary
    mode are non-negative, and the gate section binary mode writes is the
    encoding of these deltas and decodes back to them. *)
Theorem aiger_roundtrip_and_deltas (xs : list Z) (fuel : nat)
    (module : RTLIL.Module) (zinit : bool) (t : Tables) (w : XAigerWriter)
    (Hxs : Forall (λ x, 0 ≤ x) xs)
    (Hw : XAigerWriter_new fuel module zinit t = Ok w) :
  (∃ bs, aiger_encode_all xs = Ok bs ∧ Forall (λ b, 0 ≤ b < 256) bs ∧
         ∀ rest, aiger_decode_all (length xs) (bs ++ rest) = Some (xs, rest)) ∧
  (∀ a0 a1 w0,
     aig_gates (mkgate a0 a1 w0).2
       = aig_gates w0 ++ [(Z.max a0 a1, Z.min a0 a1)] ∧
     (mkgate a0 a1 w0).1 = 2 * aig_m (mkgate a0 a1 w0).2 ∧
     aig_m (mkgate a0 a1 w0).2 = aig_m w0 + 1) ∧
  (∀ (i : nat) g, aig_gates w !! i = Some g →
     let lhs := 2 * (aig_i w + aig_l w + Z.of_nat i) + 2 in
     g.2 ≤ g.1 ∧ g.1 < lhs ∧ 0 ≤ lhs - g.1 ∧ 0 ≤ g.1 - g.2) ∧
  (∀ f, ∃ bs, write_gates w false f = Ok (f ++ bs) ∧
              aiger_encode_all (all_deltas w) = Ok bs ∧
              aiger_decode_all (length (all_deltas w)) bs
                = Some (all_deltas w, [])).
Proof.
  pose proof (b_ok _ _ _ _ (XAigerWriter_new_built _ _ _ _ _ Hw)) as Hok.
  split; [| split; [| split]].
  - destruct (aiger_encode_all_total xs Hxs) as [bs Hbs].
    exists bs. split; [done |]. split; [by eapply aiger_encode_all_bytes |].
    intros rest. by apply aiger_decode_encode_all.
  - intros a0 a1 w0. apply mkgate_larger_first.
  - intros i g Hg. destruct (ok_gates _ Hok _ _ Hg) as (H2 & H21 & H1).
    simpl. lia.
  - intros f. destruct (write_gates_binary w f Hok) as (bs & Hwr & Henc).
    exists bs. split; [done |]. split; [done |].
    rewrite <- (app_nil_r bs) at 1. by apply aiger_decode_encode_all.
Qed.

Lemma nand_writer_built :
  XAigerWriter_new 4 Examples.nand_module false Examples.nand_tables
  = Ok Examples.nand_writer.
Proof. vm_compute. reflexivity. Qed.

Lemma aiger_roundtrip_and_deltas_witness :
  Forall (λ x, 0 ≤ x) [0; 127; 128; 300] ∧
  XAigerWriter_new 4 Examples.nand_module false Examples.nand_tables
    = Ok Examples.nand_writer ∧
  aig_gates Examples.nand_writer = [(4, 2)] ∧
  (∃ bs, aiger_encode_all [0; 127; 128; 300] = Ok bs ∧
         Forall (λ b, 0 ≤ b < 256) bs ∧
         ∀ rest, aiger_decode_all 4 (bs ++ rest)
                 = Some ([0; 127; 128; 300], rest)) ∧
  (∀ f, ∃ bs, write_gates Examples.nand_writer false f = Ok (f ++ bs) ∧
              aiger_encode_all (all_deltas Examples.nand_writer) = Ok bs ∧
              aiger_decode_all (length (all_deltas Examples.nand_writer)) bs
                = Some (all_deltas Examples.nand_writer, [])).
Proof.
  assert (Hxs : Forall (λ x, 0 ≤ x) [0; 127; 128; 300])
    by (repeat constructor; lia).
  assert (Hw : XAigerWriter_new 4 Examples.nand_module false
                 Examples.nand_tables = Ok Examples.nand_writer)
    by (vm_compute; reflexivity).
  split; [exact Hxs |]. split; [exact Hw |]. split; [reflexivity |].
  destruct (aiger_roundtrip_and_deltas _ _ _ _ _ _ Hxs Hw)
    as (Hround & _ & _ & Hgates).
  split; [exact Hround | exact Hgates].
Defined.


Lemma flop_writer_built :
  XAigerWriter_new 4 Examples.flop_module false Examples.flop_tables
  = Ok Examples.flop_writer.
Proof. vm_compute. reflexivity. Qed.






(** *** The map file of a design without outputs *)















End BuilderClaims.

(** * The serializer: byte order and the extension sections *)

Section ByteOrder.

Lemma testbit_255 (n : Z) : 0 ≤ n → Z.testbit 255 n = (n <? 8).
Proof.
  intros Hn. change 255 with (Z.ones 8).
  destruct (Z.ltb_spec n 8).
  - apply Z.ones_spec_low; lia.
  - apply Z.ones_spec_high; lia.
Qed.

Lemma testbit_byte_of (x i j : Z) :
  0 ≤ i → 0 ≤ j →
  Z.testbit (byte_of x i) j = (j <? 8) && Z.testbit x (j + 8 * i).
Proof.
  intros Hi Hj. unfold byte_of.
  rewrite Z.land_spec, Z.shiftr_spec, testbit_255 by lia.
  apply andb_comm.
Qed.

Lemma testbit_shifted_byte (x i s m : Z) :
  0 ≤ i → 0 ≤ s → 0 ≤ m →
  Z.testbit (Z.shiftl (byte_of x i) s) m =
  (s <=? m) && (m - s <? 8) && Z.testbit x (m - s + 8 * i).
Proof.
  intros Hi Hs Hm. rewrite Z.shiftl_spec by lia.
  destruct (Z.leb_spec s m).
  - rewrite testbit_byte_of by lia. reflexivity.
  - rewrite Z.testbit_neg_r by lia. reflexivity.
Qed.

(** Deciding the comparisons that the bit positions give rise to. *)
Ltac cases_on_positions :=
  repeat match goal with
         | |- context [?a <=? ?b] => destruct (Z.leb_spec a b); try lia
         | |- context [?a <? ?b] => destruct (Z.ltb_spec a b); try lia
         end.

Lemma byte_of_bswap32 (x k : Z) :
  0 ≤ k ≤ 3 → byte_of (bswap32 x) k = byte_of x (3 - k).
Proof.
  intros Hk. apply Z.bits_inj'. intros n Hn.
  rewrite !testbit_byte_of by lia.
  destruct (Z.ltb_spec n 8) as [Hlt | Hge]; [| reflexivity].
  cbn [andb]. unfold bswap32.
  rewrite !Z.lor_spec, !testbit_shifted_byte, testbit_byte_of by lia.
  assert (k = 0 ∨ k = 1 ∨ k = 2 ∨ k = 3) as [-> | [-> | [-> | ->]]] by lia;
    cases_on_positions; cbn [andb orb]; rewrite ?orb_false_r;
    f_equal; lia.
Qed.

(** [write_buffer] writes its argument most significant byte first on
    either host. *)
Lemma write_buffer_big_endian host i32 :
  write_buffer host i32 = big_endian_bytes i32.
Proof.
  unfold write_buffer, big_endian_bytes. destruct host; simpl; [| done].
  rewrite !byte_of_bswap32 by lia. reflexivity.
Qed.

Lemma write_section_spec host tag buf f :
  write_section host tag buf f = f ++ section tag buf.
Proof.
  unfold write_section, section.
  change (object_bytes host (to_big_endian host (GetSize buf)))
    with (write_buffer host (GetSize buf)).
  by rewrite write_buffer_big_endian.
Qed.

(** Lines 819-825: the classes of the registers go to [r_buffer], their
    arrival times to [i_buffer]. *)
Lemma write_ff_r_loop env w ffs : ∀ r_buffer i_buffer r' i',
  for_each (write_ff_r env w) ffs (r_buffer, i_buffer) = Ok (r', i') →
  r' = r_buffer ++ flat_map (λ i : SigBit * Z, big_endian_bytes i.2) ffs ∧
  i' = i_buffer
       ++ flat_map (λ i : SigBit * Z,
                      write_buffer_float (host env) (arrival_at w i.1)) ffs.
Proof.
  induction ffs as [| i ffs IH]; intros r_buffer i_buffer r' i' H.
  - injection H as <- <-. by rewrite !app_nil_r.
  - apply for_each_cons_Ok in H as ([r1 i1] & H1 & H).
    unfold write_ff_r in H1.
    apply bind_Ok in H1 as (_ & _ & [= <- <-]).
    destruct (IH _ _ _ _ H) as [-> ->].
    rewrite write_buffer_big_endian. simpl. by rewrite <- !app_assoc.
Qed.




End ByteOrder.

(** * The zinit flag *)

Section Zinit.

#[local] Arguments mkgate : simpl never.
#[local] Arguments cache_literal : simpl never.

Variable z : bool.

(** The flag carried through a result. *)
Definition with_flag (p : Z * XAigerWriter) : Z * XAigerWriter :=
  (p.1, set_zinit_mode z p.2).

Lemma cache_literal_zinit bit a w :
  cache_literal bit a (set_zinit_mode z w)
  = result_map with_flag (cache_literal bit a w).
Proof.
  unfold cache_literal, result_map, dict_at. simpl.
  destruct (is_Sx_or_Sz bit); simpl.
  - destruct (aig_map w !! ConstBit S0) as [v |]; simpl; [| done].
    by destruct (0 <=? v).
  - by destruct (0 <=? a).
Qed.

Lemma bit2aig_zinit fuel : ∀ bit w,
  bit2aig fuel bit (set_zinit_mode z w)
  = result_map with_flag (bit2aig fuel bit w).
Proof.
  induction fuel as [| fuel IH]; intros bit w; [reflexivity |].
  rewrite !bit2aig_unfold.
  change (aig_map (set_zinit_mode z w)) with (aig_map w).
  change (not_map (set_zinit_mode z w)) with (not_map w).
  change (and_map (set_zinit_mode z w)) with (and_map w).
  change (alias_map (set_zinit_mode z w)) with (alias_map w).
  destruct (aig_map w !! bit) as [v |].
  { unfold result_map. simpl. by destruct (0 <=? v). }
  destruct (not_map w !! bit) as [arg |].
  { rewrite IH. unfold result_map at 1.
    destruct (bit2aig fuel arg w) as [[a1 w1] | | |]; simpl; try done.
    apply cache_literal_zinit. }
  destruct (and_map w !! bit) as [args |].
  { rewrite IH. unfold result_map at 1.
    destruct (bit2aig fuel args.1 w) as [[a1 w1] | | |]; simpl; try done.
    rewrite IH. unfold result_map at 1.
    destruct (bit2aig fuel args.2 w1) as [[a2 w2] | | |]; simpl; try done.
    exact (cache_literal_zinit bit _ (mkgate a1 a2 w2).2). }
  destruct (alias_map w !! bit) as [arg |].
  { rewrite IH. unfold result_map at 1.
    destruct (bit2aig fuel arg w) as [[a1 w1] | | |]; simpl; try done.
    apply cache_literal_zinit. }
  simpl. apply cache_literal_zinit.
Qed.

Lemma write_aiger_with_zinit nested env w ascii_mode :
  write_aiger_with nested env (set_zinit_mode z w) ascii_mode
  = write_aiger_with nested env w ascii_mode.
Proof. reflexivity. Qed.


Lemma for_each_commute {A S : Type} (g : S → S) (body : A → S → result S) :
  (∀ x s, body x (g s) = result_map g (body x s)) →
  ∀ l s, for_each body l (g s) = result_map g (for_each body l s).
Proof.
  intros Hbody. induction l as [| x l IH]; intros s; [reflexivity |].
  simpl. rewrite Hbody. unfold result_map at 1.
  destruct (body x s) as [s1 | | |]; simpl; [apply IH | done..].
Qed.

Lemma number_input_zinit bit w :
  number_input bit (set_zinit_mode z w)
  = result_map (set_zinit_mode z) (number_input bit w).
Proof.
  unfold number_input, result_map. simpl.
  by destruct (bool_decide (aig_map w !! bit = None)).
Qed.

(** The flag carried through the states of the loops over [ci_bits] and
    [co_bits]. *)
Definition with_flag_l {B : Type} (s : XAigerWriter * B) : XAigerWriter * B :=
  (set_zinit_mode z s.1, s.2).

Lemma number_ci_zinit c s :
  number_ci c (with_flag_l s) = result_map with_flag_l (number_ci c s).
Proof.
  destruct s as [w fm]. unfold number_ci, result_map, with_flag_l. simpl.
  by destruct (aig_map w !! c.1.1.1).
Qed.

Lemma output_co_zinit fuel c s :
  output_co fuel c (with_flag_l s)
  = result_map with_flag_l (output_co fuel c s).
Proof.
  destruct s as [w done]. unfold output_co, with_flag_l. simpl.
  match goal with
  | |- context [bit2aig fuel ?b (set_ordered_outputs ?oo (set_aig_o ?o
                                   (set_zinit_mode z w)))] =>
      change (set_ordered_outputs oo (set_aig_o o (set_zinit_mode z w)))
        with (set_zinit_mode z (set_ordered_outputs oo (set_aig_o o w)))
  end.
  rewrite bit2aig_zinit. unfold result_map.
  by destruct (bit2aig fuel _ _) as [[a w1] | | |].
Qed.

Lemma output_po_zinit fuel bit w :
  output_po fuel bit (set_zinit_mode z w)
  = result_map (set_zinit_mode z) (output_po fuel bit w).
Proof.
  unfold output_po.
  match goal with
  | |- context [bit2aig fuel ?b (set_ordered_outputs ?oo (set_aig_o ?o
                                   (set_zinit_mode z w)))] =>
      change (set_ordered_outputs oo (set_aig_o o (set_zinit_mode z w)))
        with (set_zinit_mode z (set_ordered_outputs oo (set_aig_o o w)))
  end.
  rewrite bit2aig_zinit. unfold result_map.
  by destruct (bit2aig fuel _ _) as [[a w1] | | |].
Qed.

Lemma output_ff_zinit fm i w :
  output_ff fm i (set_zinit_mode z w)
  = result_map (set_zinit_mode z) (output_ff fm i w).
Proof.
  unfold output_ff, result_map, dict_at. simpl.
  by destruct (fm !! i.1).
Qed.

(** The constructor copies the flag into the writer and does nothing
    else with it. *)
Lemma XAigerWriter_new_zinit fuel module t :
  XAigerWriter_new fuel module z t
  = result_map (set_zinit_mode z) (XAigerWriter_new fuel module false t).
Proof.
  unfold XAigerWriter_new.
  set (w0 := set_aig_map _ (set_aig_map _ (classified module false t))).
  change (set_aig_map _ (set_aig_map _ (classified module z t)))
    with (set_zinit_mode z w0).
  change (input_bits (set_zinit_mode z w0)) with (input_bits w0).
  rewrite (for_each_commute _ _ number_input_zinit).
  unfold result_map at 1 2.
  destruct (for_each number_input (input_bits w0) w0) as [w1 | | |];
    simpl; try done.
  rewrite (for_each_commute _ _ number_input_zinit).
  unfold result_map at 1.
  destruct (for_each number_input (map fst (ff_bits w1)) w1) as [w2 | | |];
    simpl; try done.
  change (set_zinit_mode z w2, ∅) with (with_flag_l (w2, (∅ : gmap SigBit Z))).
  rewrite (for_each_commute _ _ number_ci_zinit).
  unfold result_map at 1.
  destruct (for_each number_ci (ci_bits w2) (w2, ∅)) as [[w3 fm] | | |];
    simpl; try done.
  change (set_zinit_mode z w3, [])
    with (with_flag_l (w3, ([] : list (SigBit * IdString * IdString * Z * Z)))).
  rewrite (for_each_commute _ _ (output_co_zinit fuel)).
  unfold result_map at 1.
  destruct (for_each (output_co fuel) (co_bits w3) (w3, [])) as [[w4 co] | | |];
    simpl; try done.
  destruct (bool_decide (output_bits w4 = [])).
  - match goal with
    | |- context [for_each (output_po fuel) ?l ?s] =>
        change s with (set_zinit_mode z
          (set_omode true (set_output_bits [ConstBit S0] (set_co_bits co w4))));
        change l with (output_bits
          (set_omode true (set_output_bits [ConstBit S0] (set_co_bits co w4))))
    end.
    rewrite (for_each_commute _ _ (output_po_zinit fuel)).
    unfold result_map at 1.
    destruct (for_each (output_po fuel) _ _) as [w7 | | |]; simpl; try done.
    rewrite (for_each_commute _ _ (output_ff_zinit fm)).
    unfold result_map at 1.
    destruct (for_each (output_ff fm) _ w7) as [w8 | | |]; simpl; try done.
    by destruct (bool_decide (output_bits w8 = [])).
  - match goal with
    | |- context [for_each (output_po fuel) ?l ?s] =>
        change s with (set_zinit_mode z (set_co_bits co w4));
        change l with (output_bits (set_co_bits co w4))
    end.
    rewrite (for_each_commute _ _ (output_po_zinit fuel)).
    unfold result_map at 1.
    destruct (for_each (output_po fuel) _ _) as [w7 | | |]; simpl; try done.
    rewrite (for_each_commute _ _ (output_ff_zinit fm)).
    unfold result_map at 1.
    destruct (for_each (output_ff fm) _ w7) as [w8 | | |]; simpl; try done.
    by destruct (bool_decide (output_bits w8 = [])).
Qed.

End Zinit.

(** * The claims about the written file *)

Section SerializerClaims.

Lemma write_aiger_with_sections nested env w ascii_mode stream :
  write_aiger_with nested env w ascii_mode = Ok stream →
  ∃ head h i,
    write_body w ascii_mode = Ok head ∧
    if has_holes w
    then ∃ r s a,
           nested = Ok a ∧
           stream = head ++ string_bytes "c" ++ section "r" r
                    ++ section "s" s ++ section "a" a ++ section "h" h
                    ++ section "i" i ++ trailer env
    else stream = head ++ string_bytes "c" ++ section "h" h
                  ++ section "i" i ++ trailer env.
Proof.
  unfold write_aiger_with, has_holes. intros H.
  apply bind_Ok in H as (head & Hhead & H).
  apply bind_Ok in H as (_ & _ & H).
  apply bind_Ok in H as ([[f h] i] & Hmid & [= <-]).
  exists head, h, i. split; [exact Hhead |].
  rewrite !write_section_spec. fold (trailer env).
  destruct (negb (empty (box_list w)) || negb (empty (ff_bits w))).
  - apply bind_Ok in Hmid as ([[h1 c1] n1] & _ & Hmid).
    apply bind_Ok in Hmid as ([r i1] & _ & Hmid).
    apply bind_Ok in Hmid as (s & _ & Hmid).
    apply bind_Ok in Hmid as (a & Ha & [= <- <- <-]).
    exists r, s, a. split; [exact Ha |].
    rewrite !write_section_spec. by rewrite <- !app_assoc.
  - injection Hmid as <- <- <-. by rewrite <- !app_assoc.
Qed.

(** C5 (amended): after the header and the body comes the byte 'c', and
    after it the extension sections, each its tag byte, the length of its
    payload as four bytes, most significant first, and the payload, in
    the order 'r', 's', 'a', 'h', 'i' when the writer has a box or a
    register, and 'h', 'i' alone when it has neither; the payload of 'a'
    is the file the private writer produced for the holes module; the
    last line follows. *)
Theorem extension_sections (fuel : nat) (env : Env) (w : XAigerWriter)
    (ascii_mode : bool) (stream : list Z)
    (Hwrite : write_aiger fuel env w ascii_mode = Ok stream) :
  ∃ head h i,
    write_body w ascii_mode = Ok head ∧
    if has_holes w
    then ∃ r s a,
           write_holes fuel env = Ok a ∧
           stream = head ++ string_bytes "c" ++ section "r" r
                    ++ section "s" s ++ section "a" a ++ section "h" h
                    ++ section "i" i ++ trailer env
    else stream = head ++ string_bytes "c" ++ section "h" h
                  ++ section "i" i ++ trailer env.
Proof. by apply write_aiger_with_sections. Qed.

Lemma extension_sections_witness :
  write_aiger 4 (Examples.env LittleEndian) Examples.flop_writer false
    = Ok Examples.flop_stream ∧
  has_holes Examples.flop_writer = true ∧
  write_aiger 4 (Examples.env LittleEndian) Examples.nand_writer false
    = Ok Examples.nand_stream ∧
  has_holes Examples.nand_writer = false ∧
  (∃ head h i,
     write_body Examples.nand_writer false = Ok head ∧
     Examples.nand_stream
     = head ++ string_bytes "c" ++ section "h" h ++ section "i" i
       ++ trailer (Examples.env LittleEndian)).
Proof.
  assert (H1 : write_aiger 4 (Examples.env LittleEndian) Examples.flop_writer
                 false = Ok Examples.flop_stream)
    by (vm_compute; reflexivity).
  assert (H2 : write_aiger 4 (Examples.env LittleEndian) Examples.nand_writer
                 false = Ok Examples.nand_stream)
    by (vm_compute; reflexivity).
  split; [exact H1 |]. split; [reflexivity |].
  split; [exact H2 |]. split; [reflexivity |].
  exact (extension_sections _ _ _ _ _ H2).
Defined.

(** C5 as stated fails: for the design with a register the byte after
    'c' (99) is 'r' (114), not 'h' (104). *)
Lemma sections_start_with_r :
  write_aiger 4 (Examples.env LittleEndian) Examples.flop_writer false
    = Ok Examples.flop_stream ∧
  write_body Examples.flop_writer false = Ok Examples.flop_head ∧
  take 2 (drop (length Examples.flop_head) Examples.flop_stream) = [99; 114] ∧
  ¬ sections_h_first Examples.flop_writer false Examples.flop_stream.
Proof.
  split; [vm_compute; reflexivity |].
  assert (Hhead : write_body Examples.flop_writer false
                  = Ok Examples.flop_head) by (vm_compute; reflexivity).
  split; [exact Hhead |]. split; [vm_compute; reflexivity |].
  intros (head & h & r & s & a & i & rest & Hh & Hs).
  rewrite Hhead in Hh. injection Hh as <-.
  apply (f_equal (λ l, take 2 (drop (length Examples.flop_head) l))) in Hs.
  rewrite drop_app_length in Hs.
  change (take 2 (drop _ Examples.flop_stream)) with [99; 114] in Hs.
  unfold section in Hs. simpl in Hs. discriminate Hs.
Qed.

(** *** The flag in the map file *)

Lemma map_wire_bit_output_line w verbose_map wire i il ol wl il' ol' wl' o :
  count (output_bits w) (WireBit (RTLIL.name wire) i) = true →
  ordered_outputs w !! WireBit (RTLIL.name wire) i = Some o →
  map_wire_bit w verbose_map wire i (il, ol, wl) = Ok (il', ol', wl') →
  ol' = lines_add o
          (map_output_line w wire i o
             match init_map w !! WireBit (RTLIL.name wire) i with
             | Some true => 1
             | Some false => 0
             | None => if zinit_mode w then 0 else 2
             end) ol.
Proof.
  intros Hcount Ho H. unfold map_wire_bit in H.
  apply bind_Ok in H as (il1 & _ & H).
  rewrite Hcount in H. unfold dict_at in H. rewrite Ho in H. simpl in H.
  injection H as _ <- _. unfold map_output_line.
  by destruct (init_map w !! WireBit (RTLIL.name wire) i) as [[] |].
Qed.

Lemma map_wire_bit_init_known w verbose_map wire i s :
  is_Some (init_map w !! WireBit (RTLIL.name wire) i) →
  map_wire_bit (set_zinit_mode true w) verbose_map wire i s
  = map_wire_bit (set_zinit_mode false w) verbose_map wire i s.
Proof.
  intros [v Hv]. destruct s as [[il ol] wl]. unfold map_wire_bit. simpl.
  rewrite Hv. reflexivity.
Qed.

(** C10: the two writers built from the same module with the flag set
    and with it clear differ in the flag alone, and [write_aiger] writes
    the same bytes for both; in the map file the flag changes the init
    field of an output line from 2 to 0 when the bit has no entry in
    [init_map], and changes nothing when it has one. *)
Theorem zinit_affects_only_map (fuel : nat) (env : Env)
    (module : RTLIL.Module) (t : Tables) (wt wf : XAigerWriter)
    (Ht : XAigerWriter_new fuel module true t = Ok wt)
    (Hf : XAigerWriter_new fuel module false t = Ok wf) :
  wt = set_zinit_mode true wf ∧
  (∀ ascii_mode,
     write_aiger fuel env wt ascii_mode = write_aiger fuel env wf ascii_mode) ∧
  (∀ verbose_map wire i s,
     is_Some (init_map wf !! WireBit (RTLIL.name wire) i) →
     map_wire_bit wt verbose_map wire i s
     = map_wire_bit wf verbose_map wire i s) ∧
  (∀ verbose_map wire i il ol wl o,
     count (output_bits wf) (WireBit (RTLIL.name wire) i) = true →
     ordered_outputs wf !! WireBit (RTLIL.name wire) i = Some o →
     init_map wf !! WireBit (RTLIL.name wire) i = None →
     (∀ il' ol' wl',
        map_wire_bit wf verbose_map wire i (il, ol, wl) = Ok (il', ol', wl') →
        ol' = lines_add o (map_output_line wf wire i o 2) ol) ∧
     (∀ il' ol' wl',
        map_wire_bit wt verbose_map wire i (il, ol, wl) = Ok (il', ol', wl') →
        ol' = lines_add o (map_output_line wf wire i o 0) ol)).
Proof.
  assert (Hwt : wt = set_zinit_mode true wf).
  { rewrite XAigerWriter_new_zinit, Hf in Ht. by injection Ht as <-. }
  assert (Hzf : zinit_mode wf = false).
  { pose proof (b_tables _ _ _ _ (XAigerWriter_new_built _ _ _ _ _ Hf)) as E.
    apply (f_equal zinit_mode) in E. exact E. }
  split; [exact Hwt |]. split; [| split].
  - intros ascii_mode. subst wt. apply write_aiger_with_zinit.
  - intros verbose_map wire i s Hinit. subst wt.
    rewrite (map_wire_bit_init_known wf) by done.
    f_equal. destruct wf. simpl in Hzf. by subst.
  - intros verbose_map wire i il ol wl o Hcount Ho Hnone. split.
    + intros il' ol' wl' H.
      rewrite (map_wire_bit_output_line _ _ _ _ _ _ _ _ _ _ _ Hcount Ho H).
      by rewrite Hnone, Hzf.
    + intros il' ol' wl' H. subst wt.
      rewrite (map_wire_bit_output_line (set_zinit_mode true wf)
                 _ _ _ _ _ _ _ _ _ _ Hcount Ho H).
      simpl. by rewrite Hnone.
Qed.

Lemma zinit_affects_only_map_witness :
  XAigerWriter_new 4 Examples.nand_module true Examples.nand_tables
    = Ok Examples.nand_writer_zinit ∧
  XAigerWriter_new 4 Examples.nand_module false Examples.nand_tables
    = Ok Examples.nand_writer ∧
  write_aiger 4 (Examples.env LittleEndian) Examples.nand_writer_zinit false
    = write_aiger 4 (Examples.env LittleEndian) Examples.nand_writer false ∧
  write_map Examples.nand_writer false
    = Ok ["input 0 0 a" +:+ nl; "input 1 0 b" +:+ nl;
          "output 0 0 y 2" +:+ nl] ∧
  write_map Examples.nand_writer_zinit false
    = Ok ["input 0 0 a" +:+ nl; "input 1 0 b" +:+ nl;
          "output 0 0 y 0" +:+ nl].
Proof.
  assert (Ht : XAigerWriter_new 4 Examples.nand_module true
                 Examples.nand_tables = Ok Examples.nand_writer_zinit)
    by (vm_compute; reflexivity).
  assert (Hf : XAigerWriter_new 4 Examples.nand_module false
                 Examples.nand_tables = Ok Examples.nand_writer)
    by (vm_compute; reflexivity).
  split; [exact Ht |]. split; [exact Hf |].
  split; [exact (proj1 (proj2 (zinit_affects_only_map 4
                   (Examples.env LittleEndian) _ _ _ _ Ht Hf)) false) |].
  split; vm_compute; reflexivity.
Defined.

End SerializerClaims.

(** * The dependency order (lines 216-409) *)

Section DependencyOrder.

Lemma for_each_invariant {A S : Type} (P : S → Prop)
    (body : A → S → result S) :
  (∀ x s s', P s → body x s = Ok s' → P s') →
  ∀ l s s', P s → for_each body l s = Ok s' → P s'.
Proof.
  intros Hbody. induction l as [| x l IH]; intros s s' HP H.
  - simpl in H. by injection H as <-.
  - apply for_each_cons_Ok in H as (s1 & H1 & H2). eauto.
Qed.

Lemma foldl_invariant {A S : Type} (P : S → Prop) (f : S → A → S) :
  (∀ s x, P s → P (f s x)) → ∀ l s, P s → P (foldl f s l).
Proof.
  intros Hf. induction l as [| x l IH]; intros s HP; simpl; [done |].
  apply IH, Hf, HP.
Qed.

(** ** The passes of the sort *)


Lemma elem_of_sort_round t placed n :
  n ∈ sort_round t placed ↔
  n ∈ placed ∨
  ((n ∉ placed) ∧ ready (edges t) placed n = true ∧ n ∈ nodes t).
Proof.
  unfold sort_round. rewrite elem_of_app, list_elem_of_filter. tauto.
Qed.

Lemma sort_rounds_incl r t placed n :
  n ∈ placed → n ∈ sort_rounds r t placed.
Proof.
  revert placed. induction r as [| r IH]; intros placed H; simpl; [done |].
  apply IH, elem_of_sort_round. by left.
Qed.

(** ** A loop is never placed *)





(** ** A graph free of loops is placed in full *)






(** ** The order puts producers first *)




(** ** The graph of lines 388-392 *)




(** The loop over the cells enters nodes and no edge. *)
Lemma order_box_conn_edges m im n conn o o' :
  order_box_conn m im n conn o = Ok o' →
  edges (toposort o') = edges (toposort o).
Proof.
  unfold order_box_conn. destruct (RTLIL.wire im conn.1) as [pw |];
    [| discriminate].
  destruct (RTLIL.port_input pw && RTLIL.port_output pw).
  { by intros [= <-]. }
  intros [= <-].
  assert (∀ l o1, edges (toposort (foldl (λ o bit,
            add_user (sigmap_apply m bit) n o) o1 l))
          = edges (toposort o1)) as Husers.
  { induction l as [| bit l IH]; intros o1; simpl; [done |].
    by rewrite IH. }
  assert (∀ l o1, edges (toposort (foldl (λ o bit,
            add_driver (sigmap_apply m bit) n o) o1 l))
          = edges (toposort o1)) as Hdrivers.
  { induction l as [| bit l IH]; intros o1; simpl; [done |].
    by rewrite IH. }
  destruct (RTLIL.port_input pw), (RTLIL.port_output pw);
    rewrite ?Hdrivers, ?Husers; done.
Qed.

Lemma check_conn_edges im cell c o o' :
  check_conn im cell c o = Ok o' → o' = o.
Proof.
  unfold check_conn. destruct (is_fully_const c.2); [by intros [= <-] |].
  intros H. apply bind_Ok in H as (u & _ & H). by injection H as <-.
Qed.

Lemma order_cell_edges holes_mode d m cell o o' :
  order_cell holes_mode d m cell o = Ok o' →
  edges (toposort o') = edges (toposort o).
Proof.
  unfold order_cell.
  destruct (bool_decide (RTLIL.cell_type cell = "$_NOT_")).
  { intros H. apply bind_Ok in H as (A & _ & H).
    apply bind_Ok in H as (Y & _ & H). injection H as <-.
    by destruct holes_mode. }
  destruct (bool_decide (RTLIL.cell_type cell = "$_AND_")).
  { intros H. apply bind_Ok in H as (A & _ & H).
    apply bind_Ok in H as (B & _ & H).
    apply bind_Ok in H as (Y & _ & H). injection H as <-.
    by destruct holes_mode. }
  intros H. apply bind_Ok in H as (u & _ & H).
  destruct (bool_decide (RTLIL.cell_type cell = "$__ABC9_FF_")).
  { apply bind_Ok in H as (D & _ & H). apply bind_Ok in H as (Q & _ & H).
    apply bind_Ok in H as (u' & _ & H). by injection H as <-. }
  assert (∀ im, for_each (check_conn im cell) (RTLIL.connections cell) o
                = Ok o' → edges (toposort o') = edges (toposort o))
    as Hcheck.
  { intros im. apply (for_each_invariant
      (λ s, edges (toposort s) = edges (toposort o))); [| done].
    intros c s s' Hs Hc. apply check_conn_edges in Hc. by subst s'. }
  destruct (d !! RTLIL.cell_type cell) as [im |]; [| exact (Hcheck None H)].
  destruct (bool_decide (is_Some (RTLIL.abc9_box_id im)));
    [| exact (Hcheck (Some im) H)].
  revert H. apply (for_each_invariant
    (λ s, edges (toposort s) = edges (toposort o))); [| done].
  intros c s s' Hs Hc. apply order_box_conn_edges in Hc. congruence.
Qed.





End DependencyOrder.

(** * Promotion in the signal map (lines 150-163) *)

Section Promotion.












End Promotion.

(** * Further properties of the encoder and of the byte order *)

Section EncoderShape.

Lemma continuation_byte_value (x : Z) :
  0 ≤ x → Z.lor (Z.land x 127) 128 = x mod 128 + 128.
Proof.
  intros Hx. rewrite Z.land_ones with (n := 7) by lia.
  change (2 ^ 7) with 128.
  assert (0 ≤ x mod 128 < 128) by (apply Z.mod_pos_bound; lia).
  rewrite <- Z.add_nocarry_lor; [reflexivity |].
  apply Z.bits_inj'. intros n Hn.
  rewrite Z.land_spec, testbit_128, Z.bits_0 by lia.
  destruct (Z.eqb_spec n 7) as [-> |]; [| apply andb_false_r].
  rewrite small_top_bit_clear by lia. reflexivity.
Qed.

Lemma aiger_encode_loop_shape (fuel : nat) : ∀ x bs,
  0 ≤ x → aiger_encode_loop fuel x = Ok bs →
  ∃ init last, bs = init ++ [last] ∧
               Forall (λ b, 128 ≤ b < 256) init ∧ 0 ≤ last < 128 ∧
               (x < 128 → init = []).
Proof.
  induction fuel as [| fuel IH]; intros x bs Hx; simpl;
    rewrite high_bits_zero by lia;
    destruct (Z.ltb_spec x 128) as [Hlt | Hge]; intros H;
    try discriminate.
  - injection H as <-. exists [], x. repeat split; [constructor | lia..].
  - injection H as <-. exists [], x. repeat split; [constructor | lia..].
  - apply bind_Ok in H as (bs' & Hrec & H). injection H as <-.
    destruct (IH _ _ (proj1 (shiftr7_bounds x Hge)) Hrec)
      as (init & last & -> & Hinit & Hlast & _).
    exists (Z.lor (Z.land x 127) 128 :: init), last.
    split; [reflexivity |]. split; [| split; [done | lia]].
    constructor; [| done]. rewrite continuation_byte_value by lia.
    assert (0 ≤ x mod 128 < 128) by (apply Z.mod_pos_bound; lia). lia.
Qed.

Lemma aiger_encode_loop_length (fuel : nat) : ∀ x bs,
  0 ≤ x → aiger_encode_loop fuel x = Ok bs →
  Z.of_nat (length bs) = Z.log2 x / 7 + 1.
Proof.
  induction fuel as [| fuel IH]; intros x bs Hx; simpl;
    rewrite high_bits_zero by lia;
    destruct (Z.ltb_spec x 128) as [Hlt | Hge]; intros H;
    try discriminate.
  1, 2: injection H as <-; simpl;
    assert (Z.log2 x < 7) by
      (destruct (decide (x = 0)) as [-> |];
       [done | apply Z.log2_lt_pow2; lia]);
    pose proof (Z.log2_nonneg x); rewrite Z.div_small by lia; lia.
  apply bind_Ok in H as (bs' & Hrec & H). injection H as <-.
  pose proof (IH _ _ (proj1 (shiftr7_bounds x Hge)) Hrec) as Hlen.
  rewrite shiftr7_log2 in Hlen by lia.
  replace (Z.log2 x - 7) with (Z.log2 x + (-1) * 7) in Hlen by lia.
  rewrite Z.div_add in Hlen by lia.
  rewrite length_cons. lia.
Qed.

(** X1 (lines 64-74).  The encoding of a non-negative integer is never
    empty and marks its own end: every byte before the last lies in
    [128, 256), the last lies in [0, 128), and an integer below 128 is
    its own single byte. *)
Theorem aiger_encode_shape (x : Z) (Hx : 0 ≤ x) :
  ∃ init last,
    aiger_encode x = Ok (init ++ [last]) ∧
    Forall (λ b, 128 ≤ b < 256) init ∧ 0 ≤ last < 128 ∧
    (x < 128 → init = [] ∧ last = x).
Proof.
  destruct (aiger_encode_total x Hx) as [bs Hbs].
  pose proof Hbs as H. unfold aiger_encode in H.
  destruct (Z.leb_spec 0 x); [simpl in H | lia].
  destruct (aiger_encode_loop_shape _ _ _ Hx H)
    as (init & last & -> & Hinit & Hlast & Hsmall).
  exists init, last. rewrite Hbs.
  split; [done |]. split; [done |]. split; [done |].
  intros Hlt. specialize (Hsmall Hlt). subst init. split; [done |].
  destruct (Z.to_nat (Z.log2 x)); simpl in H;
    rewrite high_bits_zero in H by lia;
    destruct (Z.ltb_spec x 128); try lia; by injection H.
Qed.

Lemma aiger_encode_shape_witness :
  ∃ init last,
    aiger_encode 300 = Ok (init ++ [last]) ∧
    Forall (λ b, 128 ≤ b < 256) init ∧ 0 ≤ last < 128 ∧
    (300 < 128 → init = [] ∧ last = 300).
Proof. apply aiger_encode_shape. lia. Defined.

(** X2 (lines 64-74).  The encoding takes one byte for every seven bits
    of the integer: [log2 x / 7 + 1] bytes, hence at most five for a
    non-negative 32-bit [int]. *)
Theorem aiger_encode_length (x : Z) (bs : list Z)
    (Hbs : aiger_encode x = Ok bs) :
  Z.of_nat (length bs) = Z.log2 x / 7 + 1 ∧
  (x < 2 ^ 31 → (length bs ≤ 5)%nat).
Proof.
  pose proof (aiger_encode_nonneg _ _ Hbs) as Hx.
  unfold aiger_encode in Hbs.
  destruct (Z.leb_spec 0 x); [simpl in Hbs | lia].
  pose proof (aiger_encode_loop_length _ _ _ Hx Hbs) as Hlen.
  split; [done |]. intros Hlt.
  assert (Z.log2 x < 31).
  { destruct (decide (x = 0)) as [-> |]; [done |].
    apply Z.log2_lt_pow2; lia. }
  assert (Z.log2 x / 7 < 5) by (apply Z.div_lt_upper_bound; lia).
  lia.
Qed.

Lemma aiger_encode_length_witness :
  Z.of_nat (length [172; 2]) = Z.log2 300 / 7 + 1 ∧
  (300 < 2 ^ 31 → (length [172; 2] ≤ 5)%nat).
Proof. apply (aiger_encode_length 300 [172; 2]). reflexivity. Defined.

(** X3 (lines 64-74, 684-685).  No encoding is the beginning of another:
    when two encodings, each followed by anything, give the same bytes,
    the integers are equal and so is what follows.  This is what lets a
    reader split the gate section of binary mode into its deltas. *)
Theorem aiger_encode_prefix_free (x y : Z) (bx by_ r1 r2 : list Z)
    (Hx : aiger_encode x = Ok bx) (Hy : aiger_encode y = Ok by_)
    (Heq : bx ++ r1 = by_ ++ r2) :
  x = y ∧ bx = by_ ∧ r1 = r2.
Proof.
  pose proof (aiger_decode_encode _ _ r1 Hx) as Dx.
  pose proof (aiger_decode_encode _ _ r2 Hy) as Dy.
  rewrite Heq, Dy in Dx. injection Dx as -> ->.
  split; [done |]. split; [congruence | done].
Qed.

Lemma aiger_encode_prefix_free_witness :
  300 = 300 ∧ [172; 2] = [172; 2] ∧ [7] = [7].
Proof.
  apply (aiger_encode_prefix_free 300 300 [172; 2] [172; 2] [7] [7]);
    reflexivity.
Defined.

End EncoderShape.

Section ByteSwap.




End ByteSwap.

(** * Further properties of the AIG builder *)

Section BuilderSemantics.

#[local] Arguments mkgate : simpl never.
#[local] Arguments cache_literal : simpl never.

(** X5 (lines 102-107).  [mkgate] does not depend on the order of its
    operands: either order stores the same gate, returns the same
    literal and leaves the same writer. *)
Theorem mkgate_symmetric (a0 a1 : Z) (w : XAigerWriter) :
  mkgate a0 a1 w = mkgate a1 a0 w.
Proof.
  unfold mkgate. simpl.
  destruct (Z.gtb_spec a0 a1), (Z.gtb_spec a1 a0); try lia; try reflexivity.
  by replace a1 with a0 by lia.
Qed.

(** *** Error and edge behaviour of bit2aig *)

(** X6 (lines 109-142).  A bit that is not in the cache, has no driver in
    any of the three maps and is neither x nor z stops the pass at
    [log_assert(a >= 0)]. *)
Theorem bit2aig_undriven_aborts (fuel : nat) (bit : SigBit)
    (w : XAigerWriter)
    (Hcache : aig_map w !! bit = None)
    (Hnot : not_map w !! bit = None)
    (Hand : and_map w !! bit = None)
    (Halias : alias_map w !! bit = None)
    (Hx : is_Sx_or_Sz bit = false) :
  bit2aig (S fuel) bit w = Abort.
Proof.
  rewrite bit2aig_unfold, Hcache, Hnot, Hand, Halias. simpl.
  unfold cache_literal. by rewrite Hx.
Qed.

Lemma bit2aig_undriven_aborts_witness :
  bit2aig 1 (WireBit "$u" 0) Examples.nand_writer = Abort.
Proof. by apply bit2aig_undriven_aborts. Defined.

(** The recursive part of [bit2aig] only adds to the cache. *)
Lemma bit2aig_gates fuel : ∀ bit w a w',
  bit2aig fuel bit w = Ok (a, w') → aig_gates w `prefix_of` aig_gates w'.
Proof.
  induction fuel as [| fuel IH]; intros bit w a w' H; [discriminate |].
  rewrite bit2aig_unfold in H.
  destruct (aig_map w !! bit) as [v |].
  { by apply bind_Ok in H as (u & _ & [= <- <-]). }
  apply bind_Ok in H as ([a0 w0] & Hrec & H).
  apply cache_literal_Ok in H as (-> & _ & _). simpl.
  destruct (not_map w !! bit) as [arg |].
  { apply bind_Ok in Hrec as ([a2 w2] & H2 & [= <- <-]). eauto. }
  destruct (and_map w !! bit) as [args |].
  { apply bind_Ok in Hrec as ([a2 w2] & H2 & Hrec).
    apply bind_Ok in Hrec as ([a3 w3] & H3 & Hmk).
    assert (mkgate a2 a3 w3 = (a0, w0)) as Hmk' by congruence.
    assert (w0 = (mkgate a2 a3 w3).2) as -> by (by rewrite Hmk').
    destruct (mkgate_larger_first a2 a3 w3) as [-> _].
    etrans; [by eapply IH |]. etrans; [by eapply IH |].
    by apply prefix_app_r. }
  destruct (alias_map w !! bit) as [arg |]; [eauto |].
  by injection Hrec as <- <-.
Qed.

(** X7 (lines 109-142).  A successful [bit2aig] keeps the numbering
    invariant ([M = I + L + A], every literal in range, every gate above
    its operands), returns a literal of an existing variable, leaves
    every gate and every cache entry that was there in place, and
    touches no other member of the writer. *)
Theorem bit2aig_keeps_invariant (fuel : nat) (bit : SigBit)
    (w w' : XAigerWriter) (a : Z)
    (Hok : aig_ok w) (Hcall : bit2aig fuel bit w = Ok (a, w')) :
  aig_ok w' ∧ 0 ≤ a ≤ 2 * aig_m w' + 1 ∧
  aig_gates w `prefix_of` aig_gates w' ∧ aig_map w ⊆ aig_map w' ∧
  aig_map w' !! bit = Some a ∧ frame w w' ∧
  aig_m w' - aig_m w = GetSize (aig_gates w') - GetSize (aig_gates w).
Proof.
  destruct (bit2aig_spec _ _ _ _ _ Hok Hcall)
    as (Hf & Hok' & Ha & Hm & Hsub & Hhit).
  split; [done |]. split; [done |].
  split; [by eapply bit2aig_gates |]. split; [done |]. split; [done |].
  split; [done |].
  pose proof (ok_count _ Hok). pose proof (ok_count _ Hok').
  pose proof (ok_gates_len _ Hok). pose proof (ok_gates_len _ Hok').
  rewrite (frame_aig_i _ _ Hf), (frame_aig_l _ _ Hf) in *. lia.
Qed.

Lemma bit2aig_keeps_invariant_witness :
  aig_ok Examples.nand_numbered ∧
  bit2aig 3 Examples.y Examples.nand_numbered
  = Ok (7, set_aig_outputs [] (set_aig_o 0 (set_ordered_outputs ∅
                                              Examples.nand_writer))) ∧
  aig_gates Examples.nand_numbered `prefix_of` [(4, 2)].
Proof.
  assert (aig_ok Examples.nand_numbered) as Hok.
  { split; try done.
    assert (map_Forall (λ _ v, 0 ≤ v ≤ 2 * 2 + 1)
              (aig_map Examples.nand_numbered)) as Hall
      by (apply (bool_decide_unpack _); vm_compute; exact I).
    exact Hall. }
  assert (bit2aig 3 Examples.y Examples.nand_numbered
          = Ok (7, set_aig_outputs [] (set_aig_o 0 (set_ordered_outputs ∅
                                                      Examples.nand_writer))))
    as Hcall by (vm_compute; reflexivity).
  split; [exact Hok |]. split; [exact Hcall |].
  exact (proj1 (proj2 (proj2 (bit2aig_keeps_invariant _ _ _ _ _ Hok Hcall)))).
Defined.

End BuilderSemantics.

(** * The AIG computes the netlist *)

Section Soundness.

#[local] Arguments mkgate : simpl never.
#[local] Arguments cache_literal : simpl never.

(** X8 (lines 109-142).  An x or z bit is translated to the literal of
    constant 0, whatever the three maps hold for it; when they hold
    nothing, one call does it and enters the bit in the cache. *)
Theorem bit2aig_x_is_false (bit : SigBit) (w : XAigerWriter) (a0 : Z)
    (Hx : is_Sx_or_Sz bit = true)
    (Hcache : aig_map w !! bit = None)
    (Hfalse : aig_map w !! ConstBit S0 = Some a0) :
  (∀ fuel a w', bit2aig fuel bit w = Ok (a, w') → a = a0) ∧
  (not_map w !! bit = None → and_map w !! bit = None →
   alias_map w !! bit = None → 0 ≤ a0 →
   ∀ fuel, bit2aig (S fuel) bit w
           = Ok (a0, set_aig_map (<[bit := a0]> (aig_map w)) w)).
Proof.
  split.
  - intros [| fuel] a w' H; [discriminate |].
    rewrite bit2aig_unfold, Hcache in H.
    apply bind_Ok in H as ([a1 w1] & Hrec & H).
    apply cache_literal_Ok in H as (_ & _ & Hsel). rewrite Hx in Hsel.
    enough (aig_map w ⊆ aig_map w1) as Hsub.
    { pose proof (lookup_weaken _ _ _ _ Hfalse Hsub). congruence. }
    destruct (not_map w !! bit) as [arg |].
    { apply bind_Ok in Hrec as ([a2 w2] & H2 & [= <- <-]).
      by destruct (bit2aig_cache _ _ _ _ _ H2). }
    destruct (and_map w !! bit) as [args |].
    { apply bind_Ok in Hrec as ([a2 w2] & H2 & Hrec).
      apply bind_Ok in Hrec as ([a3 w3] & H3 & Hmk).
      injection Hmk as <- <-. simpl.
      destruct (bit2aig_cache _ _ _ _ _ H2) as [Hs2 _].
      destruct (bit2aig_cache _ _ _ _ _ H3) as [Hs3 _]. by etrans. }
    destruct (alias_map w !! bit) as [arg |].
    { by destruct (bit2aig_cache _ _ _ _ _ Hrec). }
    by injection Hrec as <- <-.
  - intros Hnot Hand Halias Ha0 fuel.
    rewrite bit2aig_unfold, Hcache, Hnot, Hand, Halias. simpl.
    unfold cache_literal, dict_at. rewrite Hx, Hfalse. simpl.
    by destruct (Z.leb_spec 0 a0); [| lia].
Qed.

Lemma bit2aig_x_is_false_witness :
  (∀ fuel a w', bit2aig fuel (ConstBit Sx) Examples.nand_writer = Ok (a, w') →
                a = 0) ∧
  bit2aig 1 (ConstBit Sx) Examples.nand_writer
  = Ok (0, set_aig_map (<[ConstBit Sx := 0]> (aig_map Examples.nand_writer))
             Examples.nand_writer).
Proof.
  pose proof (bit2aig_x_is_false (ConstBit Sx) Examples.nand_writer 0
                eq_refl eq_refl eq_refl) as [H1 H2].
  split; [exact H1 |]. apply H2; [reflexivity.. | lia].
Defined.

(** *** Values of literals *)

Lemma lit_value_lxor1 (var : Z → bool) (a : Z) :
  0 ≤ a → lit_value var (Z.lxor a 1) = negb (lit_value var a).
Proof.
  intros Ha. unfold lit_value.
  assert (Z.lxor a 1 / 2 = a / 2) as ->.
  { change 2 with (2 ^ 1). rewrite <- !Z.shiftr_div_pow2 by lia.
    rewrite Z.shiftr_lxor. change (Z.shiftr 1 1) with 0.
    apply Z.lxor_0_r. }
  rewrite <- !Z.bit0_odd, Z.lxor_spec. change (Z.testbit 1 0) with true.
  by destruct (var (a / 2)), (Z.testbit a 0).
Qed.

Lemma eval_gates_below gates : ∀ var next v,
  v < next → eval_gates var next gates v = var v.
Proof.
  induction gates as [| g gates IH]; intros var next v Hv; simpl; [done |].
  rewrite IH by lia. unfold set_var.
  by destruct (Z.eqb_spec v next); [lia |].
Qed.

Lemma eval_gates_app gates more : ∀ var next,
  eval_gates var next (gates ++ more)
  = eval_gates (eval_gates var next gates) (next + GetSize gates) more.
Proof.
  unfold GetSize.
  induction gates as [| g gates IH]; intros var next; simpl.
  - by rewrite Z.add_0_r.
  - rewrite IH. f_equal. lia.
Qed.

(** Gates added later do not change the value of a literal that was in
    range before. *)
Lemma aig_value_stable w w' inputs lit :
  aig_ok w → aig_i w' = aig_i w → aig_l w' = aig_l w →
  aig_gates w `prefix_of` aig_gates w' →
  0 ≤ lit ≤ 2 * aig_m w + 1 →
  aig_value w' inputs lit = aig_value w inputs lit.
Proof.
  intros Hok Hi Hl [more Hmore] Hlit.
  unfold aig_value, lit_value, aig_vars. f_equal.
  rewrite Hmore, eval_gates_app, Hi, Hl.
  apply eval_gates_below.
  pose proof (ok_count _ Hok). pose proof (ok_gates_len _ Hok).
  assert (lit / 2 < aig_m w + 1) by (apply Z.div_lt_upper_bound; lia).
  lia.
Qed.

(** The variable [mkgate] defines is the conjunction of the operands. *)
Lemma aig_value_mkgate w inputs a1 a2 :
  aig_ok w → 0 ≤ a1 ≤ 2 * aig_m w + 1 → 0 ≤ a2 ≤ 2 * aig_m w + 1 →
  aig_value (mkgate a1 a2 w).2 inputs (mkgate a1 a2 w).1
  = aig_value w inputs a1 && aig_value w inputs a2.
Proof.
  intros Hok Ha1 Ha2.
  destruct (mkgate_larger_first a1 a2 w) as (Hg & Hlit & Hm).
  rewrite Hlit, Hm. unfold aig_value, aig_vars. rewrite Hg.
  assert (aig_i (mkgate a1 a2 w).2 = aig_i w) as -> by reflexivity.
  assert (aig_l (mkgate a1 a2 w).2 = aig_l w) as -> by reflexivity.
  rewrite eval_gates_app. simpl.
  pose proof (ok_count _ Hok). pose proof (ok_gates_len _ Hok).
  unfold lit_value at 1.
  replace (2 * (aig_m w + 1) / 2) with (aig_m w + 1)
    by (symmetry; rewrite Z.mul_comm; apply Z.div_mul; lia).
  replace (Z.odd (2 * (aig_m w + 1))) with false
    by (symmetry; rewrite Z.odd_mul; reflexivity).
  unfold set_var at 1.
  destruct (Z.eqb_spec (aig_m w + 1)
              (aig_i w + aig_l w + 1 + GetSize (aig_gates w))); [| lia].
  rewrite xorb_false_r.
  destruct (Z.le_gt_cases a1 a2).
  - rewrite Z.max_r, Z.min_l by lia. apply andb_comm.
  - by rewrite Z.max_l, Z.min_r by lia.
Qed.

Lemma solves_mono w w' val :
  frame w w' → aig_map w ⊆ aig_map w' → solves w val → solves w' val.
Proof.
  intros Hf Hsub Hs bit Hmiss.
  rewrite (frame_not_map _ _ Hf), (frame_and_map _ _ Hf),
    (frame_alias_map _ _ Hf).
  apply Hs. destruct (aig_map w !! bit) as [v |] eqn:E; [| done].
  pose proof (lookup_weaken _ _ _ _ E Hsub). congruence.
Qed.

Lemma consistent_stable w w' inputs val :
  aig_ok w → frame w w' → aig_gates w `prefix_of` aig_gates w' →
  aig_map w' = aig_map w → consistent w inputs val →
  consistent w' inputs val.
Proof.
  intros Hok Hf Hpre Hmap Hc bit a Hhit. rewrite Hmap in Hhit.
  rewrite (aig_value_stable w w'); eauto using frame_aig_i, frame_aig_l.
  by apply (ok_lits _ Hok bit).
Qed.

Lemma bit2aig_consistent inputs val fuel : ∀ bit w a w',
  aig_ok w → consistent w inputs val → solves w val →
  bit2aig fuel bit w = Ok (a, w') → consistent w' inputs val.
Proof.
  induction fuel as [| fuel IH]; intros bit w a w' Hok Hc Hs H;
    [discriminate |].
  rewrite bit2aig_unfold in H.
  destruct (aig_map w !! bit) as [v |] eqn:Hhit.
  { by apply bind_Ok in H as (u & _ & [= <- <-]). }
  apply bind_Ok in H as ([a0 w0] & Hrec & H).
  apply cache_literal_Ok in H as (-> & Ha & Hsel).
  pose proof (Hs bit Hhit) as Heq.
  assert (aig_ok w0 ∧ consistent w0 inputs val ∧ aig_map w ⊆ aig_map w0 ∧
          (is_Sx_or_Sz bit = false → 0 ≤ a0 →
           aig_value w0 inputs a0 = val bit)) as (Hok0 & Hc0 & Hsub & Hval).
  { destruct (not_map w !! bit) as [arg |].
    { apply bind_Ok in Hrec as ([a1 w1] & H1 & [= <- <-]).
      destruct (bit2aig_spec _ _ _ _ _ Hok H1)
        as (Hf1 & Hok1 & Ha1 & _ & Hs1 & Hhit1).
      pose proof (IH _ _ _ _ Hok Hc Hs H1) as Hc1.
      split; [done |]. split; [done |]. split; [done |].
      intros Hx _. rewrite Hx in Heq. unfold aig_value in *.
      rewrite lit_value_lxor1 by lia. rewrite Heq. f_equal.
      by apply Hc1. }
    destruct (and_map w !! bit) as [args |].
    { apply bind_Ok in Hrec as ([a1 w1] & H1 & Hrec).
      apply bind_Ok in Hrec as ([a2 w2] & H2 & Hrec).
      assert (Hmk : mkgate a1 a2 w2 = (a0, w0)) by congruence.
      clear Hrec.
      destruct (bit2aig_spec _ _ _ _ _ Hok H1)
        as (Hf1 & Hok1 & Ha1 & Hm1 & Hs1 & Hhit1).
      pose proof (IH _ _ _ _ Hok Hc Hs H1) as Hc1.
      pose proof (solves_mono _ _ _ Hf1 Hs1 Hs) as Hsol1.
      destruct (bit2aig_spec _ _ _ _ _ Hok1 H2)
        as (Hf2 & Hok2 & Ha2 & Hm2 & Hs2 & Hhit2).
      pose proof (IH _ _ _ _ Hok1 Hc1 Hsol1 H2) as Hc2.
      destruct (mkgate_spec w2 a1 a2 a0 w0 Hok2 ltac:(lia) Ha2 Hmk)
        as (Hf3 & Hok3 & Hlit3 & Hm3 & Hmap3).
      assert (aig_gates w2 `prefix_of` aig_gates w0) as Hpre.
      { replace w0 with (mkgate a1 a2 w2).2 by (by rewrite Hmk).
        destruct (mkgate_larger_first a1 a2 w2) as [-> _].
        by apply prefix_app_r. }
      split; [done |].
      split; [by eapply (consistent_stable w2) |].
      split; [rewrite Hmap3; by etrans |].
      intros Hx _. rewrite Hx in Heq.
      pose proof (aig_value_mkgate w2 inputs a1 a2 Hok2 ltac:(lia) Ha2)
        as Hgate.
      rewrite Hmk in Hgate. simpl in Hgate. rewrite Hgate, Heq.
      f_equal; apply Hc2; [| done].
      exact (lookup_weaken _ _ _ _ Hhit1 Hs2). }
    destruct (alias_map w !! bit) as [arg |].
    { destruct (bit2aig_spec _ _ _ _ _ Hok Hrec)
        as (Hf1 & Hok1 & Ha1 & _ & Hs1 & Hhit1).
      pose proof (IH _ _ _ _ Hok Hc Hs Hrec) as Hc1.
      split; [done |]. split; [done |]. split; [done |].
      intros Hx _. rewrite Hx in Heq. rewrite Heq. by apply Hc1. }
    injection Hrec as <- <-.
    split; [done |]. split; [done |]. split; [done |]. intros _ ?. lia. }
  intros b v. simpl. rewrite lookup_insert.
  case_decide as Hb.
  - intros [= <-]. subst b.
    change (aig_value (set_aig_map _ w0) inputs a)
      with (aig_value w0 inputs a).
    destruct (is_Sx_or_Sz bit).
    + rewrite Heq. by apply Hc0.
    + subst a0. by apply Hval.
  - intros Hb'. by apply Hc0.
Qed.

(** X9 (lines 102-142).  The literal [bit2aig] returns computes the
    bit: when every literal in the cache computes the value of its bit
    and the values satisfy the equations of the drivers (inverter, AND,
    alias, x and z as constant 0) of the bits not yet in the cache, the
    AIG after the call gives the returned literal the value of the bit,
    and every literal in the enlarged cache the value of its bit. *)
Theorem bit2aig_sound (inputs : Z → bool) (val : SigBit → bool)
    (fuel : nat) (bit : SigBit) (w w' : XAigerWriter) (a : Z)
    (Hok : aig_ok w) (Hcache : consistent w inputs val)
    (Hval : solves w val) (Hcall : bit2aig fuel bit w = Ok (a, w')) :
  aig_value w' inputs a = val bit ∧ consistent w' inputs val ∧
  solves w' val.
Proof.
  pose proof (bit2aig_consistent _ _ _ _ _ _ _ Hok Hcache Hval Hcall) as Hc.
  destruct (bit2aig_cache _ _ _ _ _ Hcall) as (Hsub & Hhit & _).
  split; [by apply Hc |]. split; [done |].
  eapply solves_mono; eauto. by eapply bit2aig_frame.
Qed.

Lemma bit2aig_sound_witness :
  ∃ w', bit2aig 3 Examples.y Examples.nand_numbered = Ok (7, w') ∧
        aig_value w' MoreExamples.nand_inputs 7
        = MoreExamples.nand_val Examples.y ∧
        consistent w' MoreExamples.nand_inputs MoreExamples.nand_val ∧
        solves w' MoreExamples.nand_val.
Proof.
  assert (aig_ok Examples.nand_numbered) as Hok.
  { split; try done.
    assert (map_Forall (λ _ v, 0 ≤ v ≤ 2 * 2 + 1)
              (aig_map Examples.nand_numbered)) as Hall
      by (apply (bool_decide_unpack _); vm_compute; exact I).
    exact Hall. }
  assert (consistent Examples.nand_numbered MoreExamples.nand_inputs
            MoreExamples.nand_val) as Hcons.
  { assert (map_Forall
              (λ bit a, aig_value Examples.nand_numbered
                          MoreExamples.nand_inputs a
                        = MoreExamples.nand_val bit)
              (aig_map Examples.nand_numbered)) as Hall
      by (apply (bool_decide_unpack _); vm_compute; exact I).
    exact Hall. }
  assert (solves Examples.nand_numbered MoreExamples.nand_val) as Hsol.
  { intros bit _.
    destruct (decide (bit = Examples.y)) as [-> |]; [by vm_compute |].
    destruct (decide (bit = Examples.n)) as [-> |]; [by vm_compute |].
    destruct bit as [s | name offset]; [destruct s; by vm_compute |].
    change (is_Sx_or_Sz (WireBit name offset)) with false. cbv iota.
    unfold Examples.nand_numbered. simpl.
    rewrite !lookup_singleton_ne by done. by rewrite lookup_empty. }
  eexists. split; [vm_compute; reflexivity |].
  eapply (bit2aig_sound _ _ 3 Examples.y _ _ 7 Hok Hcons Hsol).
  vm_compute. reflexivity.
Defined.

End Soundness.

(** * Further properties of the constructor (lines 578-629) *)

(** Reading one member off an equation between blanked writers. *)
Tactic Notation "member" constr(H) constr(f) "as" ident(E) :=
  pose proof (f_equal f H) as E; simpl in E.

Section Numbering.

#[local] Arguments mkgate : simpl never.
#[local] Arguments cache_literal : simpl never.

Lemma number_input_Ok bit w w' :
  number_input bit w = Ok w' →
  aig_map w !! bit = None ∧
  w' = set_aig_map (<[bit := 2 * (aig_m w + 1)]> (aig_map w))
         (set_aig_i (aig_i w + 1) (set_aig_m (aig_m w + 1) w)).
Proof.
  unfold number_input. intros H.
  apply bind_Ok in H as (u & Hfree & [= <-]).
  by apply log_assert_Ok, bool_decide_eq_true in Hfree.
Qed.

(** The loop of lines 581-585 (and 587-592): the bits are new to the
    cache and pairwise distinct, and bit [k] gets the next variable but
    [k]. *)
Lemma number_inputs_exact bits : ∀ w w',
  for_each number_input bits w = Ok w' →
  aig_m w' = aig_m w + GetSize bits ∧ aig_map w ⊆ aig_map w' ∧
  NoDup bits ∧ (∀ b, b ∈ bits → aig_map w !! b = None) ∧
  (∀ (k : nat) b, bits !! k = Some b →
     aig_map w' !! b = Some (2 * (aig_m w + Z.of_nat k + 1))) ∧
  (∀ b v, aig_map w' !! b = Some v →
     aig_map w !! b = Some v ∨
     ∃ k : nat, bits !! k = Some b ∧ v = 2 * (aig_m w + Z.of_nat k + 1)).
Proof.
  unfold GetSize.
  induction bits as [| bit bits IH]; intros w w' H.
  - injection H as <-. split; [simpl; lia |]. split; [done |].
    split; [constructor |]. split; [by intros b ?%elem_of_nil |].
    split; [intros k b Hk; by rewrite lookup_nil in Hk |]. by left.
  - apply for_each_cons_Ok in H as (w1 & H1 & H).
    apply number_input_Ok in H1 as [Hfree ->].
    destruct (IH _ _ H) as (Hm & Hsub & Hnd & Hnew & Hlow & Hup).
    simpl in Hm, Hsub, Hnew, Hlow, Hup.
    assert (bit ∉ bits) as Hnotin.
    { intros Hin. specialize (Hnew _ Hin).
      by rewrite lookup_insert_eq in Hnew. }
    split; [rewrite Hm; simpl; lia |].
    split; [etrans; [by apply insert_subseteq | exact Hsub] |].
    split; [by constructor |].
    split.
    { intros b [-> | Hin]%elem_of_cons; [done |].
      specialize (Hnew _ Hin). rewrite lookup_insert_ne in Hnew; [done |].
      by intros ->. }
    split.
    { intros [| k] b Hk; simpl in Hk.
      - injection Hk as <-.
        eapply lookup_weaken; [| exact Hsub].
        rewrite lookup_insert_eq. f_equal. lia.
      - rewrite (Hlow _ _ Hk). f_equal. lia. }
    intros b v Hb. destruct (Hup _ _ Hb) as [Hold | (k & Hk & ->)].
    + rewrite lookup_insert in Hold. case_decide as Hbit.
      * injection Hold as <-. subst b. right. exists 0%nat.
        split; [done | lia].
      * by left.
    + right. exists (S k). split; [done | lia].
Qed.

(** The loop of lines 595-601: every bit of [ci_bits] is in the cache
    afterwards, and what the loop enters is the variable of the entry. *)
Lemma number_cis_exact cs : ∀ w fm w' fm',
  for_each number_ci cs (w, fm) = Ok (w', fm') →
  (∀ c, c ∈ cs → is_Some (aig_map w' !! ci_bit c)) ∧
  (∀ b v, aig_map w' !! b = Some v →
     aig_map w !! b = Some v ∨
     ∃ (k : nat) c, cs !! k = Some c ∧ ci_bit c = b ∧
                    v = 2 * (aig_m w + Z.of_nat k + 1)).
Proof.
  induction cs as [| c cs IH]; intros w fm w' fm' H.
  - injection H as <- <-. split; [by intros c ?%elem_of_nil | by left].
  - apply for_each_cons_Ok in H as ([w1 fm1] & H1 & H).
    destruct (IH _ _ _ _ H) as (Hin & Hup).
    unfold number_ci in H1. simpl in H1.
    assert (aig_m w1 = aig_m w + 1 ∧
            aig_map w1 = match aig_map w !! ci_bit c with
                         | Some _ => aig_map w
                         | None => <[ci_bit c := 2 * (aig_m w + 1)]> (aig_map w)
                         end) as [Hm1 Hmap1].
    { unfold ci_bit. destruct (aig_map w !! c.1.1.1);
        by injection H1 as <- <-. }
    assert (is_Some (aig_map w1 !! ci_bit c)) as [v1 Hv1].
    { rewrite Hmap1. destruct (aig_map w !! ci_bit c) eqn:E; [by eexists |].
      rewrite lookup_insert_eq. by eexists. }
    assert (aig_map w1 ⊆ aig_map w') as Hsub.
    { clear -H. revert H. generalize w1 fm1. clear w1 fm1.
      induction cs as [| c cs IH]; intros w1 fm1 H.
      - by injection H as <- <-.
      - apply for_each_cons_Ok in H as ([w2 fm2] & H2 & H).
        etrans; [| by eapply IH].
        unfold number_ci in H2. simpl in H2.
        destruct (aig_map w1 !! c.1.1.1) eqn:E; injection H2 as <- <-;
          simpl; [done | by apply insert_subseteq]. }
    split.
    { intros c' [-> | Hc']%elem_of_cons; [| by apply Hin].
      exists v1. by eapply lookup_weaken. }
    intros b v Hb. destruct (Hup _ _ Hb) as [Hold | (k & c' & Hk & Hc' & ->)].
    + rewrite Hmap1 in Hold.
      destruct (aig_map w !! ci_bit c) eqn:E; [by left |].
      rewrite lookup_insert in Hold. case_decide as Hbit.
      * injection Hold as <-. right. exists 0%nat, c.
        split; [done |]. split; [done | lia].
      * by left.
    + right. exists (S k), c'. split; [done |]. split; [done | lia].
Qed.

(** The stages of the constructor. *)
Lemma XAigerWriter_new_stages fuel module zinit t w :
  XAigerWriter_new fuel module zinit t = Ok w →
  ∃ w0 w1 w2 w3 fm w4 co w6 w7,
    aig_part w0
    = (<[ConstBit S1 := 1]> (<[ConstBit S0 := 0]> ∅), [], 0, 0, 0, 0,
       t_not_map t, t_and_map t, t_alias_map t) ∧
    for_each number_input (t_input_bits t) w0 = Ok w1 ∧
    for_each number_input (map fst (t_ff_bits t)) w1 = Ok w2 ∧
    for_each number_ci (t_ci_bits t) (w2, ∅) = Ok (w3, fm) ∧
    aig_ok w3 ∧ aig_gates w3 = [] ∧ erase_num w3 = erase_num w0 ∧
    aig_i w3 = GetSize (numbered t) ∧
    for_each (output_co fuel) (t_co_bits t) (w3, []) = Ok (w4, co) ∧
    aig_ok w4 ∧ aig_part w6 = aig_part w4 ∧
    for_each (output_po fuel) (final_output_bits t) w6 = Ok w7 ∧
    aig_part w = aig_part w7 ∧
    aig_map w2 ⊆ aig_map w3 ∧ aig_map w3 ⊆ aig_map w ∧
    aig_o w6 = GetSize (t_co_bits t) ∧
    ordered_outputs w = ordered_outputs w7.
Proof.
  unfold XAigerWriter_new. intros H.
  set (w0 := set_aig_map _ (set_aig_map _ _)) in H.
  assert (Hok0 : aig_ok w0) by apply aig_ok_initial.
  apply bind_Ok in H as (w1 & H1 & H).
  apply bind_Ok in H as (w2 & H2 & H).
  apply bind_Ok in H as ([w3 fm] & H3 & H).
  apply bind_Ok in H as ([w4 co] & H4 & H).
  apply bind_Ok in H as (w7 & H7 & H).
  apply bind_Ok in H as (w8 & H8 & H).
  destruct (number_inputs_spec _ _ _ H1 Hok0 eq_refl)
    as (He1 & Hok1 & Hm1 & Hs1 & _).
  member He1 aig_gates as Eg1. member He1 ff_bits as Eff1.
  member He1 ci_bits as Eci1.
  rewrite Eff1 in H2.
  destruct (number_inputs_spec _ _ _ H2 Hok1 Eg1)
    as (He2 & Hok2 & Hm2 & Hs2 & Hff).
  member He2 aig_gates as Eg2. member He2 ci_bits as Eci2.
  rewrite Eci2, Eci1 in H3. rewrite Eg1 in Eg2.
  destruct (number_cis_spec _ _ _ _ H3 Hok2 Eg2)
    as (He3 & Hok3 & Hm3 & Hs3 & Hfm).
  assert (He03 : erase_num w3 = erase_num w0) by congruence.
  member He03 aig_gates as Eg3. member He03 co_bits as Eco3.
  member He03 output_bits as Eob3. member He03 ff_bits as Eff3.
  member He03 aig_l as El3. member He03 aig_a as Ea3.
  member He03 aig_o as Eo3. member He03 aig_outputs as Eouts3.
  rewrite Eco3 in H4.
  destruct (output_cos_spec _ _ _ _ _ _ H4 Hok3)
    as (He4 & Hok4 & Hs4 & Hco & co_lits & Hout4 & Ho4 & Hall4).
  member He4 output_bits as Eob4. member He4 ff_bits as Eff4.
  set (w5 := set_co_bits co w4) in *.
  set (w6 := if bool_decide (output_bits w5 = []) then _ else w5) in *.
  assert (Hob5 : output_bits w5 = t_output_bits t).
  { unfold w5. simpl. congruence. }
  assert (Hout6 : output_bits w6 = final_output_bits t).
  { unfold w6, final_output_bits. rewrite Hob5.
    by destruct (bool_decide (t_output_bits t = [])). }
  assert (Hpart6 : aig_part w6 = aig_part w4).
  { unfold w6. by destruct (bool_decide (output_bits w5 = [])). }
  assert (Hff6 : ff_bits w6 = ff_bits w4).
  { unfold w6. by destruct (bool_decide (output_bits w5 = [])). }
  assert (Hok6 : aig_ok w6).
  { eapply aig_ok_ext; [.. | exact Hok4]; unfold w6;
      by destruct (bool_decide (output_bits w5 = [])). }
  rewrite Hout6 in H7.
  destruct (output_pos_spec _ _ _ _ H7 Hok6)
    as (He7 & Hok7 & Hs7 & po_lits & Hout7 & Ho7 & Hall7).
  member He7 ff_bits as Eff7. member He7 output_bits as Eob7.
  rewrite Eff7, Hff6, Eff4, Eff3 in H8. simpl in H8.
  destruct (output_ffs_spec _ _ _ _ H8) as (ff_lits & -> & Hall8).
  set (w8 := set_aig_outputs _ _) in *.
  assert (Hout8 : output_bits w8 = final_output_bits t).
  { unfold w8. simpl. congruence. }
  rewrite Hout8 in H.
  rewrite bool_decide_eq_false_2 in H by apply final_output_bits_nonempty.
  injection H as <-.
  exists w0, w1, w2, w3, fm, w4, co, w6, w7.
  split; [reflexivity |]. split; [done |]. split; [done |].
  split; [done |]. split; [done |]. split; [done |]. split; [done |].
  split.
  { pose proof (ok_count _ Hok3) as Hc. rewrite El3, Ea3 in Hc.
    simpl in Hc. unfold numbered, GetSize in *.
    rewrite !length_app, !length_map. rewrite length_map in Hm2.
    simpl in Hm1. lia. }
  split; [done |]. split; [done |]. split; [done |]. split; [done |].
  split; [reflexivity |]. split; [done |].
  split.
  { change (aig_map w8) with (aig_map w7).
    etrans; [exact Hs4 |]. etrans; [| exact Hs7].
    by injection Hpart6 as -> _ _ _ _ _ _ _ _. }
  split; [| reflexivity].
  assert (aig_o w6 = aig_o w4) as ->.
  { unfold w6. by destruct (bool_decide (output_bits w5 = [])). }
  rewrite Ho4, Eo3. simpl.
  apply Forall2_length in Hall4. unfold GetSize. lia.
Qed.

Lemma constructor_numbering fuel module zinit t w :
  XAigerWriter_new fuel module zinit t = Ok w →
  NoDup (t_input_bits t ++ map fst (t_ff_bits t)) ∧
  (ConstBit S0 ∉ t_input_bits t ++ map fst (t_ff_bits t)) ∧
  (ConstBit S1 ∉ t_input_bits t ++ map fst (t_ff_bits t)) ∧
  (∀ (k : nat) b, t_input_bits t !! k = Some b →
     aig_map w !! b = Some (2 * (Z.of_nat k + 1))) ∧
  (∀ (k : nat) i, t_ff_bits t !! k = Some i →
     aig_map w !! i.1
     = Some (2 * (GetSize (t_input_bits t) + Z.of_nat k + 1))).
Proof.
  intros Hw.
  destruct (XAigerWriter_new_stages _ _ _ _ _ Hw)
    as (w0 & w1 & w2 & w3 & fm & w4 & co & w6 & w7 & Hp0 & H1 & H2 & H3 &
        _ & _ & _ & _ & _ & _ & _ & _ & _ & Hs23 & Hs3 & _ & _).
  injection Hp0 as Hmap0 _ Hm0 _ _ _ _ _ _.
  destruct (number_inputs_exact _ _ _ H1)
    as (Hm1 & Hs1 & Hnd1 & Hnew1 & Hlow1 & _).
  destruct (number_inputs_exact _ _ _ H2)
    as (Hm2 & Hs2 & Hnd2 & Hnew2 & Hlow2 & _).
  rewrite Hm0 in *.
  assert (aig_map w2 ⊆ aig_map w) as Hs2w by (by etrans).
  assert (∀ b, b ∈ t_input_bits t ++ map fst (t_ff_bits t) →
               aig_map w0 !! b = None) as Hfresh.
  { intros b [Hb | Hb]%elem_of_app; [by apply Hnew1 |].
    specialize (Hnew2 _ Hb).
    destruct (aig_map w0 !! b) as [v |] eqn:E; [| done].
    pose proof (lookup_weaken _ _ _ _ E Hs1). congruence. }
  split.
  { apply NoDup_app. split; [done |]. split; [| done].
    intros b Hb Hb'. apply list_elem_of_lookup in Hb as [k Hk].
    specialize (Hlow1 _ _ Hk). specialize (Hnew2 _ Hb'). congruence. }
  split.
  { intros Hin. specialize (Hfresh _ Hin). rewrite Hmap0 in Hfresh.
    by rewrite lookup_insert_ne, lookup_insert_eq in Hfresh. }
  split.
  { intros Hin. specialize (Hfresh _ Hin). rewrite Hmap0 in Hfresh.
    by rewrite lookup_insert_eq in Hfresh. }
  split.
  - intros k b Hk. specialize (Hlow1 _ _ Hk).
    apply (lookup_weaken _ _ _ _ Hlow1). by etrans.
  - intros k i Hk.
    assert (map fst (t_ff_bits t) !! k = Some i.1) as Hk'
      by (by rewrite list_lookup_fmap, Hk).
    specialize (Hlow2 _ _ Hk'). rewrite Hm1 in Hlow2.
    rewrite Z.add_0_l in Hlow2.
    exact (lookup_weaken _ _ _ _ Hlow2 Hs2w).
Qed.

(** X10 (lines 578-592).  When the constructor returns, the primary
    inputs and the D bits of the registers are pairwise distinct and
    none is constant 0 or 1 (the assertions of lines 583 and 590);
    input [k] of [input_bits] has the literal [2(k+1)] and register [k]
    of [ff_bits] the literal [2(|input_bits| + k + 1)]. *)
Theorem input_numbering (fuel : nat) (module : RTLIL.Module) (zinit : bool)
    (t : Tables) (w : XAigerWriter)
    (Hw : XAigerWriter_new fuel module zinit t = Ok w) :
  NoDup (t_input_bits t ++ map fst (t_ff_bits t)) ∧
  (ConstBit S0 ∉ t_input_bits t ++ map fst (t_ff_bits t)) ∧
  (ConstBit S1 ∉ t_input_bits t ++ map fst (t_ff_bits t)) ∧
  (∀ (k : nat) b, t_input_bits t !! k = Some b →
     aig_map w !! b = Some (2 * (Z.of_nat k + 1))) ∧
  (∀ (k : nat) i, t_ff_bits t !! k = Some i →
     aig_map w !! i.1
     = Some (2 * (GetSize (t_input_bits t) + Z.of_nat k + 1))).
Proof. exact (constructor_numbering _ _ _ _ _ Hw). Qed.

Lemma input_numbering_witness :
  XAigerWriter_new 4 Examples.flop_module false Examples.flop_tables
  = Ok Examples.flop_writer ∧
  NoDup (t_input_bits Examples.flop_tables
         ++ map fst (t_ff_bits Examples.flop_tables)) ∧
  aig_map Examples.flop_writer !! Examples.a = Some 2 ∧
  aig_map Examples.flop_writer !! Examples.d = Some 4.
Proof.
  pose proof flop_writer_built as Hw.
  destruct (input_numbering _ _ _ _ _ Hw) as (Hnd & _ & _ & Hin & Hff).
  split; [exact Hw |]. split; [exact Hnd |].
  split; [exact (Hin 0%nat Examples.a eq_refl) |].
  exact (Hff 0%nat (Examples.d, 1) eq_refl).
Defined.

End Numbering.

(** * What the outputs of the AIG compute *)

Section OutputsSound.

#[local] Arguments mkgate : simpl never.
#[local] Arguments cache_literal : simpl never.

Lemma consistent_part w w' inputs val :
  aig_part w' = aig_part w → consistent w inputs val →
  consistent w' inputs val.
Proof.
  intros Hp Hc bit a. injection Hp as Hmap Hg _ Hi Hl _ _ _ _.
  unfold aig_value, aig_vars. rewrite Hmap, Hg, Hi, Hl. apply Hc.
Qed.

Lemma solves_part w w' val :
  aig_part w' = aig_part w → solves w val → solves w' val.
Proof.
  intros Hp Hs bit. injection Hp as Hmap _ _ _ _ _ Hn Ha Hal.
  rewrite Hmap, Hn, Ha, Hal. apply Hs.
Qed.

Lemma output_po_consistent inputs val fuel bit w w' :
  output_po fuel bit w = Ok w' → aig_ok w →
  consistent w inputs val → solves w val →
  consistent w' inputs val ∧ solves w' val.
Proof.
  unfold output_po. intros H Hok Hc Hs.
  apply bind_Ok in H as ([a w2] & H2 & [= <-]).
  set (w1 := set_ordered_outputs _ _) in H2.
  assert (Hok1 : aig_ok w1) by (by eapply aig_ok_ext; [.. | exact Hok]).
  assert (Hc1 : consistent w1 inputs val) by (by eapply consistent_part).
  assert (Hs1 : solves w1 val) by (by eapply solves_part).
  split.
  - eapply (consistent_part w2); [reflexivity |].
    by eapply bit2aig_consistent.
  - eapply (solves_part w2); [reflexivity |].
    destruct (bit2aig_cache _ _ _ _ _ H2) as [Hsub _].
    eapply solves_mono; eauto. by eapply bit2aig_frame.
Qed.

Lemma output_co_consistent inputs val fuel c w done w' done' :
  output_co fuel c (w, done) = Ok (w', done') → aig_ok w →
  consistent w inputs val → solves w val →
  consistent w' inputs val ∧ solves w' val.
Proof.
  unfold output_co. intros H Hok Hc Hs. simpl in H.
  apply bind_Ok in H as ([a w2] & H2 & [= <- <-]).
  set (w1 := set_ordered_outputs _ _) in H2.
  assert (Hok1 : aig_ok w1) by (by eapply aig_ok_ext; [.. | exact Hok]).
  assert (Hc1 : consistent w1 inputs val) by (by eapply consistent_part).
  assert (Hs1 : solves w1 val) by (by eapply solves_part).
  split.
  - eapply (consistent_part w2); [reflexivity |].
    by eapply bit2aig_consistent.
  - eapply (solves_part w2); [reflexivity |].
    destruct (bit2aig_cache _ _ _ _ _ H2) as [Hsub _].
    eapply solves_mono; eauto. by eapply bit2aig_frame.
Qed.

Lemma output_pos_consistent inputs val fuel bits : ∀ w w',
  for_each (output_po fuel) bits w = Ok w' → aig_ok w →
  consistent w inputs val → solves w val →
  consistent w' inputs val ∧ solves w' val.
Proof.
  induction bits as [| bit bits IH]; intros w w' H Hok Hc Hs.
  - by injection H as <-.
  - apply for_each_cons_Ok in H as (w1 & H1 & H).
    destruct (output_po_consistent _ _ _ _ _ _ H1 Hok Hc Hs) as [Hc1 Hs1].
    destruct (output_po_spec _ _ _ _ H1 Hok) as (_ & Hok1 & _).
    by eapply IH.
Qed.

Lemma output_cos_consistent inputs val fuel cs : ∀ w done w' done',
  for_each (output_co fuel) cs (w, done) = Ok (w', done') → aig_ok w →
  consistent w inputs val → solves w val →
  consistent w' inputs val ∧ solves w' val.
Proof.
  induction cs as [| c cs IH]; intros w done w' done' H Hok Hc Hs.
  - by injection H as <- <-.
  - apply for_each_cons_Ok in H as ([w1 done1] & H1 & H).
    destruct (output_co_consistent _ _ _ _ _ _ _ _ H1 Hok Hc Hs)
      as [Hc1 Hs1].
    destruct (output_co_spec _ _ _ _ _ _ H1 Hok) as (_ & Hok1 & _).
    by eapply IH.
Qed.

(** The literal of the variable given to entry [n] of the numbered bits
    has the value of the bit. *)
Lemma input_value_numbered t val (n : nat) bit :
  numbered t !! n = Some bit →
  lit_value (set_var (input_values t val) 0 false) (2 * (Z.of_nat n + 1))
  = val bit.
Proof.
  intros Hn. unfold lit_value, set_var, input_values.
  rewrite Z.mul_comm, Z.div_mul by lia.
  rewrite Z.odd_mul, andb_false_r, xorb_false_r.
  destruct (Z.eqb_spec (Z.of_nat n + 1) 0); [lia |].
  replace (Z.to_nat (Z.of_nat n + 1 - 1)) with n by lia.
  by rewrite Hn.
Qed.

(** After the numbering loops every literal in the cache computes its
    bit, and the bits outside the cache are those [table_solves]
    speaks of. *)
Lemma numbered_consistent fuel module zinit t w val :
  XAigerWriter_new fuel module zinit t = Ok w → table_solves t val →
  consistent w (input_values t val) val.
Proof.
  intros Hw (Hv0 & Hv1 & Heqs).
  destruct (XAigerWriter_new_stages _ _ _ _ _ Hw)
    as (w0 & w1 & w2 & w3 & fm & w4 & co & w6 & w7 & Hp0 & H1 & H2 & H3 &
        Hok3 & Hg3 & He3 & Hi3 & H4 & Hok4 & Hp6 & H7 & Hp & Hs23 & Hs3 &
        _ & _).
  injection Hp0 as Hmap0 _ Hm0 _ _ _ Hnot0 Hand0 Halias0.
  destruct (number_inputs_exact _ _ _ H1)
    as (Hm1 & Hs1 & _ & _ & Hlow1 & Hup1).
  destruct (number_inputs_exact _ _ _ H2)
    as (Hm2 & Hs2 & _ & _ & Hlow2 & Hup2).
  destruct (number_cis_exact _ _ _ _ _ H3) as (Hin3 & Hup3).
  rewrite Hm0 in *. rewrite Hm1 in *.
  unfold GetSize in Hm2, Hup2, Hup3, Hlow2. rewrite length_map in Hm2.
  rewrite Hm2 in Hup3. rewrite Z.add_0_l in *.
  member He3 not_map as En3. member He3 and_map as Ea3.
  member He3 alias_map as El3. member He3 aig_l as Ell3.
  (* the cache after the numbering *)
  assert (consistent w3 (input_values t val) val) as Hc3.
  { intros b v Hb. unfold aig_value, aig_vars. rewrite Hg3. simpl.
    destruct (Hup3 _ _ Hb) as [Hb2 | (k & c & Hk & <- & ->)].
    2: { replace (Z.of_nat (length (t_input_bits t))
                  + Z.of_nat (length (t_ff_bits t)) + Z.of_nat k)
           with (Z.of_nat (length (t_input_bits t)
                           + (length (t_ff_bits t) + k))) by lia.
         apply input_value_numbered. unfold numbered.
         rewrite lookup_app_r by lia.
         rewrite lookup_app_r by (rewrite length_map; lia).
         rewrite length_map, list_lookup_fmap.
         replace (length (t_input_bits t) + (length (t_ff_bits t) + k)
                  - length (t_input_bits t) - length (t_ff_bits t))%nat
           with k by lia.
         by rewrite Hk. }
    destruct (Hup2 _ _ Hb2) as [Hb1 | (k & Hk & ->)].
    2: { replace (Z.of_nat (length (t_input_bits t)) + Z.of_nat k)
           with (Z.of_nat (length (t_input_bits t) + k)) by lia.
         apply input_value_numbered. unfold numbered.
         rewrite lookup_app_r by lia.
         replace (length (t_input_bits t) + k - length (t_input_bits t))%nat
           with k by lia.
         by apply lookup_app_l_Some. }
    destruct (Hup1 _ _ Hb1) as [Hb0 | (k & Hk & ->)].
    2: { apply input_value_numbered. unfold numbered.
         by apply lookup_app_l_Some. }
    rewrite Hmap0 in Hb0. rewrite lookup_insert in Hb0.
    case_decide as E1; [injection Hb0 as <-; by subst b |].
    rewrite lookup_insert in Hb0.
    case_decide as E0; [injection Hb0 as <-; by subst b |].
    by rewrite lookup_empty in Hb0. }
  assert (solves w3 val) as Hsol3.
  { intros bit Hmiss. rewrite En3, Ea3, El3, Hnot0, Hand0, Halias0.
    apply Heqs.
    assert (aig_map w0 ⊆ aig_map w3) as Hs03
      by (etrans; [exact Hs1 |]; by etrans).
    intros [-> | [-> | Hin]%elem_of_cons]%elem_of_cons.
    - assert (aig_map w3 !! ConstBit S0 = Some 0); [| congruence].
      apply (lookup_weaken (aig_map w0)); [| done].
      rewrite Hmap0. by rewrite lookup_insert_ne, lookup_insert_eq.
    - assert (aig_map w3 !! ConstBit S1 = Some 1); [| congruence].
      apply (lookup_weaken (aig_map w0)); [| done].
      rewrite Hmap0. by rewrite lookup_insert_eq.
    - unfold numbered in Hin.
      apply elem_of_app in Hin as [Hin | [Hin | Hin]%elem_of_app].
      + apply list_elem_of_lookup in Hin as [k Hk].
        pose proof (Hlow1 _ _ Hk) as Hhit.
        assert (aig_map w1 ⊆ aig_map w3) by (by etrans).
        pose proof (lookup_weaken _ _ _ _ Hhit H). congruence.
      + apply list_elem_of_lookup in Hin as [k Hk].
        pose proof (Hlow2 _ _ Hk) as Hhit.
        pose proof (lookup_weaken _ _ _ _ Hhit Hs23). congruence.
      + apply list_elem_of_fmap in Hin as (c & -> & Hc).
        destruct (Hin3 _ Hc) as [v Hv]. congruence. }
  destruct (output_cos_consistent _ _ _ _ _ _ _ _ H4 Hok3 Hc3 Hsol3)
    as [Hc4 Hsol4].
  assert (aig_ok w6) as Hok6.
  { injection Hp6 as ? ? ? ? ? ? _ _ _.
    by eapply aig_ok_ext; [.. | exact Hok4]. }
  destruct (output_pos_consistent _ _ _ _ _ _ H7 Hok6
              (consistent_part _ _ _ _ Hp6 Hc4) (solves_part _ _ _ Hp6 Hsol4))
    as [Hc7 _].
  by eapply consistent_part.
Qed.

(** X11 (lines 578-629).  The AIG the constructor builds computes the
    netlist: take any values of the bits under which constant 0 is
    false, constant 1 true, and every bit that gets no input variable
    has the value its driver computes (x and z as constant 0).  Under
    the input assignment that gives each numbered bit its value, every
    literal in the cache has the value of its bit; in particular the
    entry of the output list for each box input and for each primary
    output has the value of that bit. *)
Theorem outputs_sound (fuel : nat) (module : RTLIL.Module) (zinit : bool)
    (t : Tables) (w : XAigerWriter) (val : SigBit → bool)
    (Hw : XAigerWriter_new fuel module zinit t = Ok w)
    (Hval : table_solves t val) :
  consistent w (input_values t val) val ∧
  ∃ co_lits po_lits ff_lits,
    aig_outputs w = co_lits ++ po_lits ++ ff_lits ∧
    Forall2 (λ c a, aig_value w (input_values t val) a = val (co_bit c))
            (t_co_bits t) co_lits ∧
    Forall2 (λ b a, aig_value w (input_values t val) a = val b)
            (final_output_bits t) po_lits ∧
    length ff_lits = length (t_ff_bits t).
Proof.
  pose proof (numbered_consistent _ _ _ _ _ _ Hw Hval) as Hc.
  split; [done |].
  destruct (b_outputs _ _ _ _ (XAigerWriter_new_built _ _ _ _ _ Hw))
    as (co_lits & po_lits & ff_lits & Hout & Hco & Hpo & Hff).
  exists co_lits, po_lits, ff_lits. split; [done |].
  split; [| split].
  - eapply Forall2_impl; [exact Hco |]. intros c a Ha. by apply Hc.
  - eapply Forall2_impl; [exact Hpo |]. intros b a Ha. by apply Hc.
  - symmetry. by eapply Forall2_length.
Qed.

Lemma outputs_sound_witness :
  XAigerWriter_new 4 Examples.nand_module false Examples.nand_tables
  = Ok Examples.nand_writer ∧
  table_solves Examples.nand_tables MoreExamples.nand_val ∧
  aig_outputs Examples.nand_writer = [7] ∧
  aig_value Examples.nand_writer
            (input_values Examples.nand_tables MoreExamples.nand_val) 7
  = MoreExamples.nand_val Examples.y.
Proof.
  pose proof nand_writer_built as Hw.
  assert (table_solves Examples.nand_tables MoreExamples.nand_val) as Hval.
  { split; [reflexivity |]. split; [reflexivity |]. intros bit _.
    destruct (decide (bit = Examples.y)) as [-> |]; [by vm_compute |].
    destruct (decide (bit = Examples.n)) as [-> |]; [by vm_compute |].
    destruct bit as [s | name offset]; [destruct s; by vm_compute |].
    change (is_Sx_or_Sz (WireBit name offset)) with false. cbv iota.
    simpl. rewrite !lookup_singleton_ne by done. by rewrite lookup_empty. }
  split; [exact Hw |]. split; [exact Hval |]. split; [reflexivity |].
  exact (proj1 (outputs_sound _ _ _ _ _ _ Hw Hval) Examples.y 7 eq_refl).
Defined.

Lemma Forall2_right {A B : Type} (P : A → B → Prop) (Q : B → Prop) l k :
  Forall2 P l k → (∀ x y, P x y → Q y) → Forall Q k.
Proof. induction 1; intros HPQ; constructor; eauto. Qed.

(** X12 (lines 603-629).  Every entry of the output list is the literal
    of a variable that exists: it lies between 0 and [2M + 1]. *)
Theorem output_literals_in_range (fuel : nat) (module : RTLIL.Module)
    (zinit : bool) (t : Tables) (w : XAigerWriter)
    (Hw : XAigerWriter_new fuel module zinit t = Ok w) :
  Forall (λ a, 0 ≤ a ≤ 2 * aig_m w + 1) (aig_outputs w).
Proof.
  destruct (XAigerWriter_new_built _ _ _ _ _ Hw)
    as [Hok _ Hi _ _ _ _ _ (co_lits & po_lits & ff_lits & -> & Hco & Hpo & Hff)].
  pose proof (ok_count _ Hok). pose proof (ok_latch _ Hok).
  pose proof (ok_gates_len _ Hok). unfold GetSize in *.
  rewrite !Forall_app. split; [| split].
  - eapply Forall2_right; [exact Hco |]. intros c a Ha.
    exact (ok_lits _ Hok _ _ Ha).
  - eapply Forall2_right; [exact Hpo |]. intros b a Ha.
    exact (ok_lits _ Hok _ _ Ha).
  - eapply Forall2_right; [exact Hff |].
    intros i a (k & v & [Hk _] & -> & _ & _).
    apply lookup_lt_Some in Hk. rewrite length_map in Hk.
    unfold ci_literal, GetSize. lia.
Qed.

Lemma output_literals_in_range_witness :
  XAigerWriter_new 4 Examples.flop_module false Examples.flop_tables
  = Ok Examples.flop_writer ∧
  Forall (λ a, 0 ≤ a ≤ 2 * aig_m Examples.flop_writer + 1) [2; 4; 4; 6].
Proof.
  pose proof flop_writer_built as Hw.
  split; [exact Hw |]. exact (output_literals_in_range _ _ _ _ _ Hw).
Defined.

End OutputsSound.

(** * Further properties of write_aiger *)

Section WriterExtras.

Lemma for_each_Forall {A S : Type} (P : A → Prop) (body : A → S → result S) :
  (∀ x s s', body x s = Ok s' → P x) →
  ∀ l s s', for_each body l s = Ok s' → Forall P l.
Proof.
  intros Hbody. induction l as [| x l IH]; intros s s' H; [constructor |].
  apply for_each_cons_Ok in H as (s1 & H1 & H). constructor; eauto.
Qed.

Lemma write_box_Ok env w cell s s' :
  write_box env w cell s = Ok s' →
  (∃ bm, design env !! RTLIL.cell_type cell = Some bm ∧
         is_Some (RTLIL.abc9_box_id (derive env bm cell))) ∧
  GetSize s'.1.1 = GetSize s.1.1 + 16.
Proof.
  destruct s as [[h cache] n]. unfold write_box.
  destruct (design env !! RTLIL.cell_type cell) as [bm |]; [| discriminate].
  intros H. apply bind_Ok in H as ([bi bo] & _ & H).
  apply bind_Ok in H as (bi' & _ & H).
  apply bind_Ok in H as (id & Hid & [= <-]).
  split.
  - exists bm. split; [done |].
    destruct (RTLIL.abc9_box_id (derive env bm cell)); [by eexists | done].
  - simpl. unfold GetSize. rewrite !length_app.
    rewrite !write_buffer_big_endian. simpl. lia.
Qed.

Lemma write_boxes_length env w cells : ∀ s s',
  for_each (write_box env w) cells s = Ok s' →
  GetSize s'.1.1 = GetSize s.1.1 + 16 * GetSize cells.
Proof.
  unfold GetSize.
  induction cells as [| c cells IH]; intros s s' H.
  - injection H as <-. simpl. lia.
  - apply for_each_cons_Ok in H as (s1 & H1 & H).
    apply write_box_Ok in H1 as [_ H1]. apply IH in H.
    unfold GetSize in *. simpl. lia.
Qed.

Lemma write_ff_s_Ok env w i s s' :
  write_ff_s env w i s = Ok s' →
  (∃ name offset, i.1 = WireBit name offset ∧
                  is_Some (RTLIL.wire (module w) name)) ∧
  GetSize s' = GetSize s + 4.
Proof.
  unfold write_ff_s. destruct i.1 as [| name offset]; [discriminate |].
  destruct (RTLIL.wire (module w) name) as [wire |] eqn:Ew;
    [| discriminate].
  intros H. split; [exists name, offset; by rewrite Ew |].
  assert (∃ x, s' = s ++ write_buffer (host env) x) as [x ->].
  { destruct (RTLIL.init wire) as [init |]; [| injection H as <-; eauto].
    destruct (init !! offset) as [[] |]; try discriminate;
      injection H as <-; eauto. }
  unfold GetSize. rewrite length_app, write_buffer_big_endian. simpl. lia.
Qed.

Lemma write_ff_s_length env w ffs : ∀ s s',
  for_each (write_ff_s env w) ffs s = Ok s' →
  GetSize s' = GetSize s + 4 * GetSize ffs.
Proof.
  induction ffs as [| i ffs IH]; intros s s' H.
  - injection H as <-. unfold GetSize. simpl. lia.
  - apply for_each_cons_Ok in H as (s1 & H1 & H).
    apply write_ff_s_Ok in H1 as [_ H1]. apply IH in H.
    unfold GetSize in *. simpl. lia.
Qed.

Lemma flat_map_length_const {A B : Type} (f : A → list B) (n : nat) l :
  (∀ x, length (f x) = n) → length (flat_map f l) = (n * length l)%nat.
Proof.
  intros Hf. induction l as [| x l IH]; simpl; [lia |].
  rewrite length_app, Hf, IH. lia.
Qed.

(** X13 (lines 632-952).  [write_aiger] returns only for a writer whose
    header equation [M = I + L + A] holds, whose output count is the
    length of the output list and which has a primary output; and, when
    it has a box or a register, only if every register has a positive
    merge class and is a bit of a wire of the module, and every box
    cell has its type in the design with a box id. *)
Theorem write_aiger_requires (fuel : nat) (env : Env) (w : XAigerWriter)
    (ascii_mode : bool) (stream : list Z)
    (Hwrite : write_aiger fuel env w ascii_mode = Ok stream) :
  aig_m w = aig_i w + aig_l w + aig_a w ∧
  aig_o w = GetSize (aig_outputs w) ∧
  output_bits w ≠ [] ∧
  (has_holes w = true →
   Forall (λ i : SigBit * Z,
             0 < i.2 ∧ ∃ name offset, i.1 = WireBit name offset ∧
                        is_Some (RTLIL.wire (module w) name))
          (ff_bits w) ∧
   Forall (λ cell, ∃ bm, design env !! RTLIL.cell_type cell = Some bm ∧
                         is_Some (RTLIL.abc9_box_id (derive env bm cell)))
          (box_list w)).
Proof.
  unfold write_aiger, write_aiger_with, has_holes in *.
  apply bind_Ok in Hwrite as (head & Hhead & H).
  apply bind_Ok in H as (u & Hout & H).
  apply bind_Ok in H as ([[f h] i] & Hmid & _).
  unfold write_body in Hhead.
  apply bind_Ok in Hhead as (u1 & Hm & Hhead).
  apply bind_Ok in Hhead as (u2 & Ho & _).
  apply log_assert_Ok, Z.eqb_eq in Hm, Ho.
  apply log_assert_Ok, negb_true_iff in Hout.
  split; [done |]. split; [done |].
  split; [by destruct (output_bits w) |].
  intros Hholes. rewrite Hholes in Hmid.
  apply bind_Ok in Hmid as ([[h1 c1] n1] & Hbox & Hmid).
  apply bind_Ok in Hmid as ([r i1] & Hr & Hmid).
  apply bind_Ok in Hmid as (s & Hs & _).
  split.
  - apply Forall_and. split.
    + eapply for_each_Forall; [| exact Hr]. intros x [r0 i0] s' Hx.
      unfold write_ff_r in Hx. apply bind_Ok in Hx as (u3 & Hpos & _).
      by apply log_assert_Ok, Z.ltb_lt in Hpos.
    + eapply for_each_Forall; [| exact Hs]. intros x s0 s' Hx.
      by apply write_ff_s_Ok in Hx as [Hx _].
  - eapply for_each_Forall; [| exact Hbox]. intros x s0 s' Hx.
    by apply write_box_Ok in Hx as [Hx _].
Qed.

(** X14 (lines 696-944).  The sizes of the sections: 'h' holds six words
    and four more for every box, 'i' one float for every primary input
    and every register, 'r' and 's' one word for the count and one for
    every register; without box and register 'h' is 24 bytes and 'i'
    four bytes for every primary input. *)
Theorem section_sizes (nested : result (list Z)) (env : Env)
    (w : XAigerWriter) (ascii_mode : bool) (stream : list Z)
    (Hwrite : write_aiger_with nested env w ascii_mode = Ok stream) :
  ∃ head h i,
    write_body w ascii_mode = Ok head ∧
    GetSize h = 4 * (6 + 4 * GetSize (box_list w)) ∧
    GetSize i = 4 * (GetSize (input_bits w)
                     + (if has_holes w then GetSize (ff_bits w) else 0)) ∧
    if has_holes w
    then ∃ r s a,
           nested = Ok a ∧
           GetSize r = 4 * (1 + GetSize (ff_bits w)) ∧
           GetSize s = 4 * (1 + GetSize (ff_bits w)) ∧
           stream = head ++ string_bytes "c" ++ section "r" r
                    ++ section "s" s ++ section "a" a ++ section "h" h
                    ++ section "i" i ++ trailer env
    else stream = head ++ string_bytes "c" ++ section "h" h
                  ++ section "i" i ++ trailer env.
Proof.
  unfold write_aiger_with, has_holes in *.
  apply bind_Ok in Hwrite as (head & Hhead & H).
  apply bind_Ok in H as (u & _ & H).
  apply bind_Ok in H as ([[f h] i] & Hmid & [= <-]).
  exists head, h, i. split; [exact Hhead |].
  rewrite !write_section_spec. fold (trailer env).
  assert (GetSize (h_buffer_counts env w) = 24) as Hh0.
  { unfold h_buffer_counts, GetSize. rewrite !length_app.
    by rewrite !write_buffer_big_endian. }
  assert (GetSize (flat_map (λ bit, write_buffer_float (host env)
                                      (arrival_at w bit)) (input_bits w))
          = 4 * GetSize (input_bits w)) as Hi0.
  { unfold GetSize. rewrite (flat_map_length_const _ 4); [lia |].
    intros x. by destruct (host env). }
  destruct (negb (empty (box_list w)) || negb (empty (ff_bits w))) eqn:E.
  - apply bind_Ok in Hmid as ([[h1 c1] n1] & Hbox & Hmid).
    apply bind_Ok in Hmid as ([r i1] & Hr & Hmid).
    apply bind_Ok in Hmid as (s & Hs & Hmid).
    apply bind_Ok in Hmid as (a & Ha & [= <- <- <-]).
    apply write_boxes_length in Hbox. simpl in Hbox.
    apply write_ff_r_loop in Hr as [-> ->].
    apply write_ff_s_length in Hs.
    assert (∀ x, GetSize (write_buffer (host env) x) = 4) as Hword
      by (intros x; by rewrite write_buffer_big_endian).
    rewrite Hword in Hs.
    split; [lia |]. split.
    { unfold GetSize in *. rewrite length_app, Nat2Z.inj_add, Hi0.
      rewrite (flat_map_length_const _ 4); [lia |].
      intros x. by destruct (host env). }
    exists (write_buffer (host env) (GetSize (ff_bits w))
            ++ flat_map (λ i : SigBit * Z, big_endian_bytes i.2) (ff_bits w)),
      s, a.
    split; [done |]. split.
    { unfold GetSize in *.
      rewrite length_app, Nat2Z.inj_add, write_buffer_big_endian.
      rewrite (flat_map_length_const _ 4); [simpl; lia | done]. }
    split; [lia |].
    rewrite !write_section_spec. by rewrite <- !app_assoc.
  - injection Hmid as <- <- <-.
    apply orb_false_iff in E as [E1 _]. apply negb_false_iff in E1.
    destruct (box_list w); [| done].
    split; [unfold GetSize in *; simpl; lia |].
    split; [lia |]. by rewrite <- !app_assoc.
Qed.

Lemma write_gate_ascii_middle w pre g suf f :
  aig_gates w = pre ++ g :: suf →
  write_gate_ascii w (Z.of_nat (length pre)) f
  = Ok (f ++ gate_line w (length pre) g).
Proof.
  intros Hl. unfold write_gate_ascii. by rewrite Hl, vector_at_middle.
Qed.

Lemma write_gates_ascii_from w suf : ∀ pre f,
  aig_gates w = pre ++ suf →
  for_each (write_gate_ascii w)
           (seqZ (Z.of_nat (length pre)) (Z.of_nat (length suf))) f
  = Ok (f ++ concat (imap (λ j, gate_line w (length pre + j)) suf)).
Proof.
  induction suf as [| g suf IH]; intros pre f Hl.
  - simpl. by rewrite app_nil_r.
  - rewrite seqZ_succ_length, for_each_cons.
    rewrite (write_gate_ascii_middle _ _ _ _ _ Hl).
    cbn [mbind result_bind bind].
    rewrite (IH (pre ++ [g])) by (by rewrite <- app_assoc).
    cbn [imap concat]. rewrite Nat.add_0_r, <- app_assoc.
    do 4 f_equal. apply imap_ext. intros j x _. simpl.
    rewrite length_app. simpl. f_equal. lia.
Qed.

(** X15 (lines 641-662).  The ASCII file of a writer the constructor
    built starts with the header line [aag M I L O A], followed by one
    line [2i+2] for every input, one line for every entry of the output
    list, and one line [lhs rhs0 rhs1] for every gate, gate [i] having
    the left-hand side [2(I + L + i) + 2]. *)
Theorem ascii_body (fuel : nat) (module : RTLIL.Module) (zinit : bool)
    (t : Tables) (w : XAigerWriter)
    (Hw : XAigerWriter_new fuel module zinit t = Ok w) :
  write_body w true
  = Ok (header_line w true
        ++ flat_map (λ i, string_bytes (dec (2 * i + 2) +:+ nl))
                    (seqZ 0 (aig_i w))
        ++ flat_map output_line (aig_outputs w)
        ++ concat (imap (gate_line w) (aig_gates w))).
Proof.
  destruct (XAigerWriter_new_built _ _ _ _ _ Hw)
    as [Hok _ _ _ _ _ Ho _ _].
  pose proof (ok_count _ Hok) as Hm. pose proof (ok_inputs _ Hok) as Hi.
  pose proof (ok_gates_len _ Hok) as Ha.
  unfold write_body. rewrite <- Hm, <- Ho, !Z.eqb_refl.
  cbn [log_assert mbind result_bind bind].
  rewrite write_inputs_outputs_spec by done.
  cbn [mbind result_bind bind]. unfold write_gates. rewrite <- Ha.
  rewrite (write_gates_ascii_from w (aig_gates w) [] _ eq_refl).
  unfold header_line. cbn [length Nat.add]. rewrite Ha.
  by rewrite <- !app_assoc.
Qed.

End WriterExtras.

Lemma ascii_body_witness :
  write_body Examples.nand_writer true
  = Ok (string_bytes ("aag 3 2 0 1 1" +:+ nl +:+ "2" +:+ nl +:+ "4" +:+ nl
                      +:+ "7" +:+ nl +:+ "6 4 2" +:+ nl)).
Proof.
  rewrite (ascii_body _ _ _ _ _ nand_writer_built). reflexivity.
Defined.

Lemma write_aiger_requires_witness :
  write_aiger 4 (Examples.env LittleEndian) Examples.flop_writer false
  = Ok Examples.flop_stream ∧
  has_holes Examples.flop_writer = true ∧
  Forall (λ i : SigBit * Z,
            0 < i.2 ∧ ∃ name offset, i.1 = WireBit name offset ∧
                       is_Some (RTLIL.wire (module Examples.flop_writer) name))
         (ff_bits Examples.flop_writer).
Proof.
  assert (write_aiger 4 (Examples.env LittleEndian) Examples.flop_writer false
          = Ok Examples.flop_stream) as Hw by (vm_compute; reflexivity).
  split; [exact Hw |]. split; [reflexivity |].
  exact (proj1 (proj2 (proj2 (proj2 (write_aiger_requires _ _ _ _ _ Hw)))
                  eq_refl)).
Defined.

Lemma section_sizes_witness :
  ∃ head h i,
    write_body Examples.flop_writer false = Ok head ∧
    GetSize h = 4 * (6 + 4 * GetSize (box_list Examples.flop_writer)) ∧
    GetSize i = 4 * (GetSize (input_bits Examples.flop_writer)
                     + (if has_holes Examples.flop_writer
                        then GetSize (ff_bits Examples.flop_writer) else 0)) ∧
    if has_holes Examples.flop_writer
    then ∃ r s a,
           write_holes 4 (Examples.env LittleEndian) = Ok a ∧
           GetSize r = 4 * (1 + GetSize (ff_bits Examples.flop_writer)) ∧
           GetSize s = 4 * (1 + GetSize (ff_bits Examples.flop_writer)) ∧
           Examples.flop_stream
           = head ++ string_bytes "c" ++ section "r" r
             ++ section "s" s ++ section "a" a ++ section "h" h
             ++ section "i" i ++ trailer (Examples.env LittleEndian)
    else Examples.flop_stream
         = head ++ string_bytes "c" ++ section "h" h
           ++ section "i" i ++ trailer (Examples.env LittleEndian).
Proof.
  apply (section_sizes (write_holes 4 (Examples.env LittleEndian))
           (Examples.env LittleEndian) Examples.flop_writer false).
  vm_compute. reflexivity.
Defined.

(** * Further properties of write_map *)

Section MapExtras.

#[local] Arguments mkgate : simpl never.
#[local] Arguments cache_literal : simpl never.





End MapExtras.



(** * Further properties of the loop over the cells (lines 221-346) and
      of the graph (lines 388-392) *)

Section OrdererExtras.

Lemma order_cell_holes d m cell o o' :
  order_cell true d m cell o = Ok o' →
  o' = o ∧ (RTLIL.cell_type cell = "$_NOT_" ∨ RTLIL.cell_type cell = "$_AND_").
Proof.
  unfold order_cell.
  destruct (bool_decide_reflect (RTLIL.cell_type cell = "$_NOT_")) as [E |].
  { intros H. apply bind_Ok in H as (A & _ & H).
    apply bind_Ok in H as (Y & _ & [= <-]). split; [done | by left]. }
  destruct (bool_decide_reflect (RTLIL.cell_type cell = "$_AND_")) as [E |].
  { intros H. apply bind_Ok in H as (A & _ & H).
    apply bind_Ok in H as (B & _ & H).
    apply bind_Ok in H as (Y & _ & [= <-]). split; [done | by right]. }
  discriminate.
Qed.

(** X18 (lines 221-255).  In holes mode the loop over the cells leaves
    the graph, the users and drivers and the registers as they were, and
    stops the pass at [log_assert(!holes_mode)] on any cell that is not
    an inverter or an AND gate: the private writer for the holes
    module never has a box or a register. *)
Theorem holes_mode_gates_only (d : RTLIL.Design) (m : SigMap)
    (cells : list RTLIL.Cell) (o o' : Orderer)
    (Hloop : for_each (order_cell true d m) cells o = Ok o') :
  o' = o ∧
  Forall (λ c, RTLIL.cell_type c = "$_NOT_" ∨ RTLIL.cell_type c = "$_AND_")
         cells.
Proof.
  revert o Hloop. induction cells as [| c cells IH]; intros o H.
  - injection H as <-. split; [done | constructor].
  - apply for_each_cons_Ok in H as (o1 & H1 & H).
    apply order_cell_holes in H1 as [-> Hc].
    destruct (IH _ H) as [-> Hall]. split; [done | by constructor].
Qed.

Lemma holes_mode_gates_only_witness :
  for_each (order_cell true ∅ Examples.no_sigmap)
           [Examples.not1; Examples.not2] new_orderer = Ok new_orderer ∧
  Forall (λ c, RTLIL.cell_type c = "$_NOT_" ∨ RTLIL.cell_type c = "$_AND_")
         [Examples.not1; Examples.not2].
Proof.
  assert (for_each (order_cell true ∅ Examples.no_sigmap)
            [Examples.not1; Examples.not2] new_orderer = Ok new_orderer)
    as H by reflexivity.
  split; [exact H |]. exact (proj2 (holes_mode_gates_only _ _ _ _ _ H)).
Defined.

(** *** Registers *)






(** *** The edges of the graph *)

Lemma edges_fold_users (driver : IdString) users : ∀ t,
  edges (foldl (λ t user_cell, toposort_edge driver user_cell t) t users)
  = edges t ++ map (pair driver) users.
Proof.
  induction users as [| u users IH]; intros t; simpl.
  - by rewrite app_nil_r.
  - rewrite IH. simpl. by rewrite <- app_assoc.
Qed.

Lemma edges_fold_drivers users drivers : ∀ t,
  edges (foldl (λ t driver_cell,
                  foldl (λ t user_cell, toposort_edge driver_cell user_cell t)
                        t users) t drivers)
  = edges t ++ flat_map (λ driver, map (pair driver) users) drivers.
Proof.
  induction drivers as [| dr drivers IH]; intros t; simpl.
  - by rewrite app_nil_r.
  - rewrite IH, edges_fold_users. by rewrite <- app_assoc.
Qed.

Lemma edges_add_edges o :
  edges (add_edges o)
  = edges (toposort o)
    ++ flat_map (λ it : SigBit * list IdString,
                   match bit_drivers o !! it.1 with
                   | None => []
                   | Some drivers =>
                       flat_map (λ driver, map (pair driver) it.2) drivers
                   end)
                (map_to_list (bit_users o)).
Proof.
  unfold add_edges. generalize (toposort o) as t.
  induction (map_to_list (bit_users o)) as [| it l IH]; intros t; simpl.
  - by rewrite app_nil_r.
  - rewrite IH. destruct (bit_drivers o !! it.1) as [drivers |]; simpl.
    + rewrite edges_fold_drivers. by rewrite <- app_assoc.
    + done.
Qed.

(** X20 (lines 216-392).  The graph the sort runs on has an edge from
    cell [a] to cell [b] exactly when some bit has [a] among its
    drivers and [b] among its users. *)
Theorem graph_edges (holes_mode : bool) (d : RTLIL.Design) (m : SigMap)
    (cells : list RTLIL.Cell) (o : Orderer) (a b : IdString)
    (Hloop : for_each (order_cell holes_mode d m) cells new_orderer = Ok o) :
  (a, b) ∈ edges (add_edges o) ↔
  ∃ bit users drivers,
    bit_users o !! bit = Some users ∧ bit_drivers o !! bit = Some drivers ∧
    a ∈ drivers ∧ b ∈ users.
Proof.
  assert (edges (toposort o) = []) as He.
  { revert Hloop. apply (for_each_invariant (λ s, edges (toposort s) = []));
      [| done].
    intros c s s' Hs Hc. apply order_cell_edges in Hc. congruence. }
  rewrite edges_add_edges, He, app_nil_l.
  rewrite list_elem_of_In, in_flat_map. split.
  - intros ([bit users] & Hit & Hin). simpl in Hin.
    apply list_elem_of_In, elem_of_map_to_list in Hit.
    destruct (bit_drivers o !! bit) as [drivers |] eqn:Hd; [| done].
    apply in_flat_map in Hin as (dr & Hdr & Hin).
    apply in_map_iff in Hin as (u & [= <- <-] & Hu).
    exists bit, users, drivers.
    split; [done |]. split; [done |].
    split; by apply list_elem_of_In.
  - intros (bit & users & drivers & Hu & Hd & Ha & Hb).
    exists (bit, users). split.
    + by apply list_elem_of_In, elem_of_map_to_list.
    + simpl. rewrite Hd. apply in_flat_map. exists a.
      split; [by apply list_elem_of_In |].
      apply in_map. by apply list_elem_of_In.
Qed.

Lemma graph_edges_witness :
  for_each (order_cell false Examples.box_design Examples.no_sigmap)
           [Examples.not3; Examples.box1; Examples.not4] new_orderer
  = Ok Examples.box_orderer ∧
  ("$not3", "\b1") ∈ edges (add_edges Examples.box_orderer) ∧
  ∃ bit users drivers,
    bit_users Examples.box_orderer !! bit = Some users ∧
    bit_drivers Examples.box_orderer !! bit = Some drivers ∧
    "$not3" ∈ drivers ∧ "\b1" ∈ users.
Proof.
  assert (for_each (order_cell false Examples.box_design Examples.no_sigmap)
            [Examples.not3; Examples.box1; Examples.not4] new_orderer
          = Ok Examples.box_orderer) as H by (vm_compute; reflexivity).
  assert (("$not3", "\b1") ∈ edges (add_edges Examples.box_orderer)) as Hin
    by (apply (bool_decide_unpack _); vm_compute; exact I).
  split; [exact H |]. split; [exact Hin |].
  exact (proj1 (graph_edges _ _ _ _ _ "$not3" "\b1" H) Hin).
Defined.

End OrdererExtras.

(** * The options of the backend (lines 1055-1103) *)

Section Execute.

(** What the loop leaves behind, for any state it starts in: it has
    taken a prefix of the arguments, and stops at the end or at an
    argument it cannot take. *)
Lemma parse_options_stops (n : nat) : ∀ rest o0,
  (length rest ≤ n)%nat →
  ∃ taken left,
    rest = taken ++ left ∧
    opt_argidx (parse_options rest o0)
    = (opt_argidx o0 + length taken)%nat ∧
    match left with
    | [] => True
    | arg :: left' =>
        arg ≠ "-ascii" ∧ arg ≠ "-zinit" ∧
        (arg = "-map" ∨ arg = "-vmap" →
         opt_map_filename (parse_options rest o0) ≠ "" ∨ left' = [])
    end.
Proof.
  induction n as [| n IH]; intros rest o0 Hlen.
  { destruct rest; [| simpl in Hlen; lia].
    exists [], []. simpl. split; [done |]. split; [lia | done]. }
  destruct rest as [| arg rest'].
  { exists [], []. simpl. split; [done |]. split; [lia | done]. }
  simpl in Hlen. simpl.
  destruct (String.eqb_spec arg "-ascii") as [-> | Ha].
  { destruct (IH rest' (mkOptions true (opt_zinit_mode o0)
                          (opt_verbose_map o0) (opt_map_filename o0)
                          (S (opt_argidx o0))) ltac:(lia))
      as (taken & left & -> & Hidx & Hstop).
    exists ("-ascii" :: taken), left. split; [done |].
    split; [rewrite Hidx; simpl; lia | done]. }
  destruct (String.eqb_spec arg "-zinit") as [-> | Hz].
  { destruct (IH rest' (mkOptions (opt_ascii_mode o0) true
                          (opt_verbose_map o0) (opt_map_filename o0)
                          (S (opt_argidx o0))) ltac:(lia))
      as (taken & left & -> & Hidx & Hstop).
    exists ("-zinit" :: taken), left. split; [done |].
    split; [rewrite Hidx; simpl; lia | done]. }
  destruct rest' as [| file rest''].
  { exists [], [arg]. simpl. split; [done |]. split; [lia |].
    split; [done |]. split; [done |]. by right. }
  simpl in Hlen.
  destruct (String.eqb_spec (opt_map_filename o0) "") as [He | Hne]; simpl.
  - destruct (String.eqb_spec arg "-map") as [-> | Hm].
    { destruct (IH rest'' (mkOptions (opt_ascii_mode o0) (opt_zinit_mode o0)
                             (opt_verbose_map o0) file
                             (S (S (opt_argidx o0)))) ltac:(lia))
        as (taken & left & -> & Hidx & Hstop).
      exists ("-map" :: file :: taken), left. split; [done |].
      split; [rewrite Hidx; simpl; lia | done]. }
    destruct (String.eqb_spec arg "-vmap") as [-> | Hv].
    { destruct (IH rest'' (mkOptions (opt_ascii_mode o0) (opt_zinit_mode o0)
                             true file (S (S (opt_argidx o0)))) ltac:(lia))
        as (taken & left & -> & Hidx & Hstop).
      exists ("-vmap" :: file :: taken), left. split; [done |].
      split; [rewrite Hidx; simpl; lia | done]. }
    exists [], (arg :: file :: rest''). simpl. split; [done |].
    split; [lia |]. split; [done |]. split; [done |]. by intros [? | ?].
  - exists [], (arg :: file :: rest''). simpl. split; [done |].
    split; [lia |]. split; [done |]. split; [done |]. intros _. by left.
Qed.

(** X21 (lines 1064-1085).  The option loop stops with [argidx] at
    least 1 and, when there is any argument, at most the number of
    arguments; the argument it stops at, if any, is neither [-ascii]
    nor [-zinit], and is [-map] or [-vmap] only when a map file name has
    been taken already or no file name follows. *)
Theorem parse_args_stops (args : list string) :
  (1 ≤ opt_argidx (parse_args args))%nat ∧
  (args ≠ [] → (opt_argidx (parse_args args) ≤ length args)%nat) ∧
  ∀ arg, args !! opt_argidx (parse_args args) = Some arg →
         arg ≠ "-ascii" ∧ arg ≠ "-zinit" ∧
         (arg = "-map" ∨ arg = "-vmap" →
          opt_map_filename (parse_args args) ≠ ""
          ∨ S (opt_argidx (parse_args args)) = length args).
Proof.
  unfold parse_args.
  destruct (parse_options_stops (length (drop 1 args)) (drop 1 args)
              (mkOptions false false false "" 1) ltac:(lia))
    as (taken & left & Hsplit & Hidx & Hstop).
  simpl in Hidx. rewrite Hidx.
  split; [lia |]. split.
  { intros Hne. destruct args as [| cmd args']; [done |].
    simpl in *. rewrite drop_0 in Hsplit. subst args'.
    rewrite length_app. lia. }
  intros arg Harg. destruct args as [| cmd args']; [done |].
  simpl in Hsplit, Harg. rewrite drop_0 in Hsplit. subst args'.
  rewrite lookup_app_r in Harg by lia. rewrite Nat.sub_diag in Harg.
  destruct left as [| arg' left']; [done |]. injection Harg as ->.
  destruct Hstop as (Ha & Hz & Hm). split; [done |]. split; [done |].
  intros Hopt. destruct (Hm Hopt) as [? | ->]; [by left | right].
  simpl. rewrite length_app. simpl. lia.
Qed.

(** With flags alone the loop takes them all. *)
Lemma parse_options_flags_only rest : ∀ o0,
  Forall (λ a, a = "-ascii" ∨ a = "-zinit") rest →
  parse_options rest o0
  = mkOptions (opt_ascii_mode o0 || bool_decide ("-ascii" ∈ rest))
              (opt_zinit_mode o0 || bool_decide ("-zinit" ∈ rest))
              (opt_verbose_map o0) (opt_map_filename o0)
              (opt_argidx o0 + length rest).
Proof.
  induction rest as [| arg rest IH]; intros o0 Hall.
  { simpl. rewrite !orb_false_r, Nat.add_0_r. by destruct o0. }
  apply Forall_cons in Hall as [Harg Hall]. simpl.
  destruct Harg as [-> | ->]; simpl; rewrite (IH _ Hall); simpl;
    rewrite orb_true_r; f_equal; try lia; f_equal; apply bool_decide_ext;
    rewrite elem_of_cons; (split; [by right | by intros [? | ?]]).
Qed.

(** X22 (lines 1064-1085).  When every argument after the command name
    is [-ascii] or [-zinit], the loop takes them all, in any order and
    however often they are repeated: a mode is set exactly when its
    option occurs, no map file is asked for, and [argidx] is the number
    of arguments. *)
Theorem parse_args_flags (cmd : string) (opts : list string)
    (Hflags : Forall (λ a, a = "-ascii" ∨ a = "-zinit") opts) :
  parse_args (cmd :: opts)
  = mkOptions (bool_decide ("-ascii" ∈ opts)) (bool_decide ("-zinit" ∈ opts))
              false "" (length (cmd :: opts)).
Proof.
  unfold parse_args. simpl. rewrite drop_0.
  by rewrite (parse_options_flags_only _ _ Hflags).
Qed.

Lemma parse_args_flags_witness :
  Forall (λ a, a = "-ascii" ∨ a = "-zinit") ["-zinit"; "-ascii"; "-zinit"] ∧
  parse_args ["write_xaiger"; "-zinit"; "-ascii"; "-zinit"]
  = mkOptions true true false "" 4.
Proof.
  assert (Forall (λ a, a = "-ascii" ∨ a = "-zinit")
            ["-zinit"; "-ascii"; "-zinit"]) as H
    by (repeat constructor; auto).
  split; [exact H |].
  exact (parse_args_flags "write_xaiger" _ H).
Defined.

(** The loop neither reads [zinit_mode] nor [argidx]. *)
Lemma parse_options_zinit (n : nat) : ∀ rest o0 z k,
  (length rest ≤ n)%nat →
  let o := parse_options rest o0 in
  let o' := parse_options rest
              (mkOptions (opt_ascii_mode o0) z (opt_verbose_map o0)
                         (opt_map_filename o0) k) in
  opt_ascii_mode o' = opt_ascii_mode o ∧
  opt_verbose_map o' = opt_verbose_map o ∧
  opt_map_filename o' = opt_map_filename o.
Proof.
  induction n as [| n IH]; intros rest o0 z k Hlen.
  { destruct rest; [done | simpl in Hlen; lia]. }
  destruct rest as [| arg rest']; [done |].
  simpl in Hlen. simpl.
  destruct (String.eqb arg "-ascii").
  { exact (IH rest' (mkOptions true (opt_zinit_mode o0) (opt_verbose_map o0)
                       (opt_map_filename o0) (S (opt_argidx o0)))
              z (S k) ltac:(lia)). }
  destruct (String.eqb arg "-zinit").
  { destruct (IH rest' (mkOptions (opt_ascii_mode o0) true
                          (opt_verbose_map o0) (opt_map_filename o0)
                          (S (opt_argidx o0))) true (S k) ltac:(lia))
      as (H1 & H2 & H3).
    done. }
  destruct rest' as [| file rest'']; [done |]. simpl in Hlen.
  destruct (String.eqb (opt_map_filename o0) "" && String.eqb arg "-map").
  { exact (IH rest'' (mkOptions (opt_ascii_mode o0) (opt_zinit_mode o0)
                        (opt_verbose_map o0) file (S (S (opt_argidx o0))))
              z (S (S k)) ltac:(lia)). }
  destruct (String.eqb (opt_map_filename o0) "" && String.eqb arg "-vmap");
    [| done].
  exact (IH rest'' (mkOptions (opt_ascii_mode o0) (opt_zinit_mode o0)
                      true file (S (S (opt_argidx o0))))
            z (S (S k)) ltac:(lia)).
Qed.

(** X23 (lines 1055-1103).  The option [-zinit] does not change the
    AIGER file: when the backend succeeds with [-zinit] put in front of
    the other arguments and without it, both runs write the same
    bytes, and a map file in one run means a map file in the other. *)
Theorem execute_zinit_same_stream (fuel : nat) (env : Env) (h : Host)
    (cmd : string) (rest : list string) (top : option RTLIL.Module)
    (f1 f2 : list Z) (m1 m2 : option (list string))
    (H1 : execute fuel env h (cmd :: "-zinit" :: rest) top = Ok (f1, m1))
    (H2 : execute fuel env h (cmd :: rest) top = Ok (f2, m2)) :
  f1 = f2 ∧ (is_Some m1 ↔ is_Some m2).
Proof.
  assert (parse_args (cmd :: "-zinit" :: rest)
          = parse_options rest (mkOptions false true false "" 2)) as E1
    by reflexivity.
  assert (parse_args (cmd :: rest)
          = parse_options rest (mkOptions false false false "" 1)) as E2
    by reflexivity.
  unfold execute in *. rewrite E1 in H1. rewrite E2 in H2. clear E1 E2.
  destruct (parse_options_zinit (length rest) rest
              (mkOptions false false false "" 1) true 2 ltac:(lia))
    as (Ea & Ev & Ef).
  simpl in Ea, Ev, Ef.
  set (o1 := parse_options rest (mkOptions false true false "" 2)) in *.
  set (o2 := parse_options rest (mkOptions false false false "" 1)) in *.
  apply bind_Ok in H1 as (u1 & _ & H1).
  apply bind_Ok in H2 as (u2 & _ & H2).
  destruct top as [top |]; [| discriminate].
  apply bind_Ok in H1 as (t1 & Ht1 & H1).
  apply bind_Ok in H2 as (t2 & Ht2 & H2).
  assert (t2 = t1) as -> by congruence.
  apply bind_Ok in H1 as (w1 & Hw1 & H1).
  apply bind_Ok in H2 as (w2 & Hw2 & H2).
  apply bind_Ok in H1 as (g1 & Hg1 & H1).
  apply bind_Ok in H2 as (g2 & Hg2 & H2).
  rewrite XAigerWriter_new_zinit in Hw1, Hw2.
  apply bind_Ok in Hw1 as (w0 & Hw0 & [= <-]).
  apply bind_Ok in Hw2 as (w0' & Hw0' & [= <-]).
  assert (w0' = w0) as -> by congruence.
  unfold write_aiger in Hg1, Hg2.
  rewrite write_aiger_with_zinit in Hg1, Hg2. rewrite Ea in Hg1.
  assert (g1 = g2) as -> by congruence.
  rewrite Ef in H1.
  destruct (String.eqb (opt_map_filename o2) "").
  - injection H1 as <- <-. injection H2 as <- <-.
    split; [done |]. split; intros [? ?]; done.
  - apply bind_Ok in H1 as (? & _ & H1).
    apply bind_Ok in H1 as (l1 & _ & [= <- <-]).
    apply bind_Ok in H2 as (? & _ & H2).
    apply bind_Ok in H2 as (l2 & _ & [= <- <-]).
    split; [done |]. split; intros _; by eexists.
Qed.

End Execute.

Lemma execute_zinit_same_stream_witness :
  execute 4 (Examples.env LittleEndian) MoreExamples.nand_host
          ["write_xaiger"; "-zinit"] (Some Examples.nand_module)
  = Ok (Examples.nand_stream, None) ∧
  execute 4 (Examples.env LittleEndian) MoreExamples.nand_host
          ["write_xaiger"] (Some Examples.nand_module)
  = Ok (Examples.nand_stream, None) ∧
  Examples.nand_stream = Examples.nand_stream ∧
  (is_Some (@None (list string)) ↔ is_Some (@None (list string))).
Proof.
  assert (execute 4 (Examples.env LittleEndian) MoreExamples.nand_host
            ["write_xaiger"; "-zinit"] (Some Examples.nand_module)
          = Ok (Examples.nand_stream, None)) as H1
    by (vm_compute; reflexivity).
  assert (execute 4 (Examples.env LittleEndian) MoreExamples.nand_host
            ["write_xaiger"] (Some Examples.nand_module)
          = Ok (Examples.nand_stream, None)) as H2
    by (vm_compute; reflexivity).
  split; [exact H1 |]. split; [exact H2 |].
  exact (execute_zinit_same_stream _ _ _ _ _ _ _ _ _ _ H1 H2).
Defined.

(** * The loop over the wires (lines 165-212) *)

Section Wires.

Lemma elem_of_pool_insert (x b : SigBit) p :
  x ∈ pool_insert b p ↔ x = b ∨ x ∈ p.
Proof.
  unfold pool_insert. destruct (bool_decide_reflect (b ∈ p)) as [Hin |].
  - split; [by right | by intros [-> | ?]].
  - rewrite elem_of_app, list_elem_of_singleton. tauto.
Qed.

Lemma NoDup_pool_insert (b : SigBit) p : NoDup p → NoDup (pool_insert b p).
Proof.
  intros Hnd. unfold pool_insert.
  destruct (bool_decide_reflect (b ∈ p)) as [Hin | Hout]; [done |].
  apply NoDup_app. split; [done |]. split; [| apply NoDup_singleton].
  by intros x Hx ->%list_elem_of_singleton.
Qed.

Lemma elem_of_pool_erase (x b : SigBit) p :
  x ∈ pool_erase b p ↔ x ≠ b ∧ x ∈ p.
Proof. unfold pool_erase. by rewrite list_elem_of_filter. Qed.

(** A pool that every step of a loop only adds to holds, after the
    loop, what it held before and what the steps added. *)
Lemma foldl_members {S A : Type} (pool : S → list SigBit) (f : S → A → S)
    (P : A → SigBit → Prop) :
  (∀ s x b, b ∈ pool (f s x) ↔ b ∈ pool s ∨ P x b) →
  ∀ l s b, b ∈ pool (foldl f s l) ↔ b ∈ pool s ∨ ∃ x, x ∈ l ∧ P x b.
Proof.
  intros Hf. induction l as [| x l IH]; intros s b; simpl.
  - split; [by left | intros [H | (x & Hx%elem_of_nil & _)]; done].
  - rewrite IH, Hf. split.
    + intros [[H | H] | (y & Hy & H)].
      * by left.
      * right. exists x. split; [by left | done].
      * right. exists y. split; [by right | done].
    + intros [H | (y & [-> | Hy]%elem_of_cons & H)].
      * by left; left.
      * by left; right.
      * right. by exists y.
Qed.

(** ** One bit of a wire (lines 179-204) *)

Lemma classify_bit_input_bits m keep wire c i :
  c_input_bits (classify_bit m keep wire c i)
  = if RTLIL.port_input wire || keep
    then pool_insert (WireBit (RTLIL.name wire) i) (c_input_bits c)
    else c_input_bits c.
Proof.
  unfold classify_bit.
  generalize (sigmap_apply m (WireBit (RTLIL.name wire) i)) as bit.
  intros bit. destruct (bool_decide (bit ≠ ConstBit Sx));
    destruct bit, keep, (RTLIL.port_input wire), (RTLIL.port_output wire);
    reflexivity.
Qed.

Lemma classify_bit_output_bits m keep wire c i :
  c_output_bits (classify_bit m keep wire c i)
  = if (RTLIL.port_output wire || keep)
       && bool_decide (sigmap_apply m (WireBit (RTLIL.name wire) i)
                       ≠ ConstBit Sx)
    then pool_insert (WireBit (RTLIL.name wire) i) (c_output_bits c)
    else c_output_bits c.
Proof.
  unfold classify_bit.
  generalize (sigmap_apply m (WireBit (RTLIL.name wire) i)) as bit.
  intros bit. destruct (bool_decide (bit ≠ ConstBit Sx));
    destruct bit, keep, (RTLIL.port_input wire), (RTLIL.port_output wire);
    reflexivity.
Qed.

Lemma classify_bit_undriven_bits m keep wire c i :
  c_undriven_bits (classify_bit m keep wire c i)
  = match sigmap_apply m (WireBit (RTLIL.name wire) i) with
    | WireBit _ _ =>
        pool_insert (sigmap_apply m (WireBit (RTLIL.name wire) i))
                    (c_undriven_bits c)
    | ConstBit _ => c_undriven_bits c
    end.
Proof.
  unfold classify_bit.
  generalize (sigmap_apply m (WireBit (RTLIL.name wire) i)) as bit.
  intros bit. destruct (bool_decide (bit ≠ ConstBit Sx));
    destruct bit, keep, (RTLIL.port_input wire), (RTLIL.port_output wire);
    reflexivity.
Qed.

Lemma classify_bit_init_map m keep wire c i :
  c_init_map (classify_bit m keep wire c i) = c_init_map c.
Proof.
  unfold classify_bit.
  generalize (sigmap_apply m (WireBit (RTLIL.name wire) i)) as bit.
  intros bit. destruct (bool_decide (bit ≠ ConstBit Sx));
    destruct bit, keep, (RTLIL.port_input wire), (RTLIL.port_output wire);
    reflexivity.
Qed.

Lemma classify_bit_inputs m keep wire c i b :
  b ∈ c_input_bits (classify_bit m (keep wire) wire c i) ↔
  b ∈ c_input_bits c ∨ input_of keep wire i b.
Proof.
  rewrite classify_bit_input_bits. unfold input_of.
  destruct (RTLIL.port_input wire || keep wire).
  - rewrite elem_of_pool_insert. split.
    + intros [-> | H]; [by right | by left].
    + intros [H | [_ ->]]; [by right | by left].
  - split; [by left | by intros [H | [H _]]].
Qed.

Lemma classify_bit_outputs m keep wire c i b :
  b ∈ c_output_bits (classify_bit m (keep wire) wire c i) ↔
  b ∈ c_output_bits c ∨ output_of m keep wire i b.
Proof.
  rewrite classify_bit_output_bits. unfold output_of.
  destruct (RTLIL.port_output wire || keep wire); simpl.
  - destruct (bool_decide_reflect
                (sigmap_apply m (WireBit (RTLIL.name wire) i) ≠ ConstBit Sx))
      as [Hx | Hx].
    + rewrite elem_of_pool_insert. split.
      * intros [-> | H]; [by right | by left].
      * intros [H | (_ & -> & _)]; [by right | by left].
    + split; [by left |]. intros [H | (_ & -> & H)]; [done |].
      by destruct Hx.
  - split; [by left | by intros [H | [H _]]].
Qed.

Lemma classify_bit_undriven m keep wire c i b :
  b ∈ c_undriven_bits (classify_bit m keep wire c i) ↔
  b ∈ c_undriven_bits c ∨ canonical_of m wire i b.
Proof.
  rewrite classify_bit_undriven_bits. unfold canonical_of, is_wire_bit.
  destruct (sigmap_apply m (WireBit (RTLIL.name wire) i)) as [s | n o].
  - split; [by left |]. intros [H | [(n & o & ->) H]]; [done |].
    discriminate H.
  - rewrite elem_of_pool_insert. split.
    + intros [-> | H]; [right | by left]. split; [by exists n, o | done].
    + intros [H | [_ ->]]; [by right | by left].
Qed.

(** ** The init attribute (lines 167-173) *)

Lemma classify_init_ports m wire c :
  c_input_bits (classify_init m wire c) = c_input_bits c ∧
  c_output_bits (classify_init m wire c) = c_output_bits c ∧
  c_undriven_bits (classify_init m wire c) = c_undriven_bits c.
Proof.
  unfold classify_init. destruct (RTLIL.init wire) as [initval |]; [| done].
  apply (foldl_invariant
           (λ s, c_input_bits s = c_input_bits c ∧
                 c_output_bits s = c_output_bits c ∧
                 c_undriven_bits s = c_undriven_bits c)); [| done].
  intros s i Hs. by destruct (initval !! i) as [[] |].
Qed.

(** ** One wire (lines 165-206) *)

Lemma classify_wire_inputs m keep c wire b :
  b ∈ c_input_bits (classify_wire m keep c wire) ↔
  b ∈ c_input_bits c ∨
  ∃ i, i ∈ seq 0 (RTLIL.width wire) ∧ input_of keep wire i b.
Proof.
  unfold classify_wire.
  destruct (classify_init_ports m wire c) as (<- & _ & _).
  apply (foldl_members c_input_bits). intros s i b'.
  apply classify_bit_inputs.
Qed.

Lemma classify_wire_outputs m keep c wire b :
  b ∈ c_output_bits (classify_wire m keep c wire) ↔
  b ∈ c_output_bits c ∨
  ∃ i, i ∈ seq 0 (RTLIL.width wire) ∧ output_of m keep wire i b.
Proof.
  unfold classify_wire.
  destruct (classify_init_ports m wire c) as (_ & <- & _).
  apply (foldl_members c_output_bits). intros s i b'.
  apply classify_bit_outputs.
Qed.

Lemma classify_wire_undriven m keep c wire b :
  b ∈ c_undriven_bits (classify_wire m keep c wire) ↔
  b ∈ c_undriven_bits c ∨
  ∃ i, i ∈ seq 0 (RTLIL.width wire) ∧ canonical_of m wire i b.
Proof.
  unfold classify_wire.
  destruct (classify_init_ports m wire c) as (_ & _ & <-).
  apply (foldl_members c_undriven_bits). intros s i b'.
  apply classify_bit_undriven.
Qed.

Lemma classify_wire_NoDup m keep c wire :
  NoDup (c_input_bits c) ∧ NoDup (c_output_bits c) →
  NoDup (c_input_bits (classify_wire m keep c wire)) ∧
  NoDup (c_output_bits (classify_wire m keep c wire)).
Proof.
  unfold classify_wire.
  destruct (classify_init_ports m wire c) as (<- & <- & _).
  apply (foldl_invariant
           (λ s, NoDup (c_input_bits s) ∧ NoDup (c_output_bits s))).
  intros s i [Hi Ho].
  rewrite classify_bit_input_bits, classify_bit_output_bits.
  split.
  - destruct (RTLIL.port_input wire || keep wire);
      [by apply NoDup_pool_insert | done].
  - destruct ((RTLIL.port_output wire || keep wire) && _);
      [by apply NoDup_pool_insert | done].
Qed.

(** X24 (lines 165-206).  After the loop over the wires the primary
    inputs are exactly the bits of the wires that are input ports or
    kept, and the primary outputs exactly the bits of the wires that
    are output ports or kept and whose canonical bit is not the
    constant x; neither pool holds a bit twice. *)
Theorem ports_classified (m : SigMap) (keep : RTLIL.Wire → bool)
    (module : RTLIL.Module) (b : SigBit) :
  let c := classify_wires m keep module in
  (b ∈ c_input_bits c ↔
   ∃ wire i, wire ∈ RTLIL.wires module ∧
             RTLIL.port_input wire || keep wire = true ∧
             (i < RTLIL.width wire)%nat ∧ b = WireBit (RTLIL.name wire) i) ∧
  (b ∈ c_output_bits c ↔
   ∃ wire i, wire ∈ RTLIL.wires module ∧
             RTLIL.port_output wire || keep wire = true ∧
             (i < RTLIL.width wire)%nat ∧ b = WireBit (RTLIL.name wire) i ∧
             sigmap_apply m b ≠ ConstBit Sx) ∧
  NoDup (c_input_bits c) ∧ NoDup (c_output_bits c).
Proof.
  unfold classify_wires, settle_ports. simpl.
  split; [| split].
  - rewrite (foldl_members c_input_bits (classify_wire m keep)
               (λ wire b, ∃ i, i ∈ seq 0 (RTLIL.width wire) ∧
                               input_of keep wire i b))
      by (intros; apply classify_wire_inputs).
    unfold input_of. simpl. split.
    + intros [H%elem_of_nil | (wire & Hw & i & Hi%elem_of_seq & Hk & Hb)];
        [done |].
      exists wire, i. split; [done |]. split; [done |]. split; [lia | done].
    + intros (wire & i & Hw & Hk & Hi & Hb). right.
      exists wire. split; [done |]. exists i.
      split; [apply elem_of_seq; lia | done].
  - rewrite (foldl_members c_output_bits (classify_wire m keep)
               (λ wire b, ∃ i, i ∈ seq 0 (RTLIL.width wire) ∧
                               output_of m keep wire i b))
      by (intros; apply classify_wire_outputs).
    unfold output_of. simpl. split.
    + intros [H%elem_of_nil
             | (wire & Hw & i & Hi%elem_of_seq & Hk & Hb & Hx)]; [done |].
      exists wire, i. split; [done |]. split; [done |]. split; [lia | done].
    + intros (wire & i & Hw & Hk & Hi & Hb & Hx). right.
      exists wire. split; [done |]. exists i.
      split; [apply elem_of_seq; lia | done].
  - apply (foldl_invariant
             (λ s, NoDup (c_input_bits s) ∧ NoDup (c_output_bits s))).
    + intros s wire. apply classify_wire_NoDup.
    + split; constructor.
Qed.

(** ** The undriven bits (lines 182-185 and 208-209) *)

Lemma elem_of_erase_all (f : SigBit → SigBit) l : ∀ p x,
  x ∈ foldl (λ p bit, pool_erase (f bit) p) p l ↔
  x ∈ p ∧ ∀ y, y ∈ l → f y ≠ x.
Proof.
  induction l as [| y l IH]; intros p x; simpl.
  - split; [| by intros []]. intros H. split; [done |].
    by intros y ?%elem_of_nil.
  - rewrite IH, elem_of_pool_erase. split.
    + intros [[Hne Hp] Hl]. split; [done |].
      intros z [-> | Hz]%elem_of_cons; [congruence | by apply Hl].
    + intros [Hp Hl]. split; [split; [| done] |].
      * intros ->. apply (Hl y); [by left | done].
      * intros z Hz. apply Hl. by right.
Qed.

(** X25 (lines 182-185, 208-209).  After line 209 the undriven bits
    are exactly the canonical bits of the wires of the module that are
    bits of wires, constants left out, and are not the canonical bit of
    a primary input. *)
Theorem undriven_after_ports (m : SigMap) (keep : RTLIL.Wire → bool)
    (module : RTLIL.Module) (b : SigBit) :
  let c := classify_wires m keep module in
  b ∈ c_undriven_bits c ↔
  canonical_wire_bit m (RTLIL.wires module) b ∧
  ∀ x, x ∈ c_input_bits c → sigmap_apply m x ≠ b.
Proof.
  unfold classify_wires, settle_ports. simpl.
  rewrite elem_of_erase_all.
  rewrite (foldl_members c_undriven_bits (classify_wire m keep)
             (λ wire b, ∃ i, i ∈ seq 0 (RTLIL.width wire) ∧
                             canonical_of m wire i b))
    by (intros; apply classify_wire_undriven).
  unfold canonical_of, canonical_wire_bit. simpl. split.
  - intros [[H%elem_of_nil
            | (wire & Hw & i & Hi%elem_of_seq & Hb & He)] Hin]; [done |].
    split; [| done]. split; [done |]. exists wire, i.
    split; [done |]. split; [lia | done].
  - intros [(Hb & wire & i & Hw & Hi & He) Hin]. split; [| done].
    right. exists wire. split; [done |]. exists i.
    split; [apply elem_of_seq; lia | done].
Qed.

(** *** The init values *)

Lemma classify_init_map m wire c b v :
  c_init_map (classify_init m wire c) !! b = Some v →
  c_init_map c !! b = Some v ∨
  ∃ initval i s,
    RTLIL.init wire = Some initval ∧ (i < RTLIL.width wire)%nat ∧
    initval !! i = Some s ∧ (s = S0 ∨ s = S1) ∧
    b = sigmap_apply m (WireBit (RTLIL.name wire) i) ∧
    v = bool_decide (s = S1).
Proof.
  unfold classify_init. destruct (RTLIL.init wire) as [initval |];
    [| by left].
  assert (∀ l c1,
    c_init_map (foldl (λ c i,
        match initval !! i with
        | Some S0 | Some S1 =>
            mkClassifier
              (<[sigmap_apply m (WireBit (RTLIL.name wire) i)
                 := bool_decide (initval !! i = Some S1)]> (c_init_map c))
              (c_undriven_bits c) (c_unused_bits c) (c_keep_bits c)
              (c_input_bits c) (c_output_bits c) (c_alias_map c)
        | _ => c
        end) c1 l) !! b = Some v →
    c_init_map c1 !! b = Some v ∨
    ∃ i s, i ∈ l ∧ initval !! i = Some s ∧ (s = S0 ∨ s = S1) ∧
           b = sigmap_apply m (WireBit (RTLIL.name wire) i) ∧
           v = bool_decide (s = S1)) as Hfold.
  { induction l as [| i l IH]; intros c1 H; [by left |].
    simpl in H. apply IH in H as [H | (j & s & Hj & Hs)].
    - destruct (initval !! i) as [s |] eqn:Es; [| by left].
      assert (s = S0 ∨ s = S1 → c_init_map c1 !! b = Some v ∨
              ∃ i0 s0, i0 ∈ i :: l ∧ initval !! i0 = Some s0 ∧
                       (s0 = S0 ∨ s0 = S1) ∧
                       b = sigmap_apply m (WireBit (RTLIL.name wire) i0) ∧
                       v = bool_decide (s0 = S1)) as Hcase.
      { intros Hs01.
        assert (c_init_map
                  (mkClassifier
                     (<[sigmap_apply m (WireBit (RTLIL.name wire) i)
                        := bool_decide (Some s = Some S1)]> (c_init_map c1))
                     (c_undriven_bits c1) (c_unused_bits c1) (c_keep_bits c1)
                     (c_input_bits c1) (c_output_bits c1) (c_alias_map c1))
                !! b = Some v) as H'
          by (destruct Hs01 as [-> | ->]; exact H).
        simpl in H'. rewrite lookup_insert in H'. case_decide as Hb.
        - injection H' as <-. right. exists i, s.
          split; [by left |]. split; [done |]. split; [done |].
          split; [done |]. apply bool_decide_ext. naive_solver.
        - by left. }
      destruct s; try (by left); apply Hcase; auto.
    - right. exists j, s. split; [by right | done]. }
  intros H. apply Hfold in H as [H | (i & s & Hi & Hs & Hs01 & -> & ->)];
    [by left | right].
  apply elem_of_seq in Hi. exists initval, i, s.
  split; [done |]. split; [lia | done].
Qed.

Lemma classify_wire_init_map m keep c wire b v :
  c_init_map (classify_wire m keep c wire) !! b = Some v →
  c_init_map c !! b = Some v ∨
  ∃ initval i s,
    RTLIL.init wire = Some initval ∧ (i < RTLIL.width wire)%nat ∧
    initval !! i = Some s ∧ (s = S0 ∨ s = S1) ∧
    b = sigmap_apply m (WireBit (RTLIL.name wire) i) ∧
    v = bool_decide (s = S1).
Proof.
  unfold classify_wire. intros H. apply (classify_init_map m wire c).
  revert H. generalize (classify_init m wire c) as c0.
  generalize (seq 0 (RTLIL.width wire)) as l.
  induction l as [| i l IH]; intros c0 H; [done |].
  simpl in H. apply IH in H.
  by rewrite classify_bit_init_map in H.
Qed.

(** X26 (lines 167-173).  Every entry of [init_map] comes from a bit of
    the init attribute of a wire that is 0 or 1: its key is the
    canonical bit of that bit of the wire and its value says whether
    the init bit is 1; x and other init bits leave no entry. *)
Theorem init_map_entries (m : SigMap) (keep : RTLIL.Wire → bool)
    (module : RTLIL.Module) (b : SigBit) (v : bool)
    (Hentry : c_init_map (classify_wires m keep module) !! b = Some v) :
  ∃ wire initval i s,
    wire ∈ RTLIL.wires module ∧ RTLIL.init wire = Some initval ∧
    (i < RTLIL.width wire)%nat ∧ initval !! i = Some s ∧
    (s = S0 ∨ s = S1) ∧
    b = sigmap_apply m (WireBit (RTLIL.name wire) i) ∧
    v = bool_decide (s = S1).
Proof.
  unfold classify_wires, settle_ports in Hentry. simpl in Hentry.
  assert (∀ wires c,
    c_init_map (foldl (classify_wire m keep) c wires) !! b = Some v →
    c_init_map c !! b = Some v ∨
    ∃ wire initval i s,
      wire ∈ wires ∧ RTLIL.init wire = Some initval ∧
      (i < RTLIL.width wire)%nat ∧ initval !! i = Some s ∧
      (s = S0 ∨ s = S1) ∧
      b = sigmap_apply m (WireBit (RTLIL.name wire) i) ∧
      v = bool_decide (s = S1)) as Hfold.
  { induction wires as [| wire wires IH]; intros c H; [by left |].
    simpl in H. apply IH in H as [H | (w & iv & i & s & Hw & Hrest)].
    - apply classify_wire_init_map in H as [H | (iv & i & s & Hrest)];
        [by left | right].
      exists wire, iv, i, s. split; [by left | done].
    - right. exists w, iv, i, s. split; [by right | done]. }
  apply Hfold in Hentry as [H | H]; [| done].
  simpl in H. by rewrite lookup_empty in H.
Qed.

End Wires.

Lemma init_map_entries_witness :
  c_init_map (classify_wires MoreExamples.ports_sigmap MoreExamples.ports_keep
                MoreExamples.ports_module) !! WireBit "\k" 0 = Some true ∧
  ∃ wire initval i s,
    wire ∈ RTLIL.wires MoreExamples.ports_module ∧
    RTLIL.init wire = Some initval ∧
    (i < RTLIL.width wire)%nat ∧ initval !! i = Some s ∧
    (s = S0 ∨ s = S1) ∧
    WireBit "\k" 0
    = sigmap_apply MoreExamples.ports_sigmap (WireBit (RTLIL.name wire) i) ∧
    true = bool_decide (s = S1).
Proof.
  assert (c_init_map (classify_wires MoreExamples.ports_sigmap
                        MoreExamples.ports_keep MoreExamples.ports_module)
          !! WireBit "\k" 0 = Some true) as H by (vm_compute; reflexivity).
  split; [exact H |]. exact (init_map_entries _ _ _ _ _ H).
Defined.
